(** * vedo.applications.Animation: booking and playback of timed transitions

    A shallow embedding of the [Animation] class of [vedo/applications.py]
    (the event scheduler: [_parse], the transition methods and [play]),
    with the properties stated about it.

    Conventions of the embedding.
    - Python floats are read as exact rationals ([Q]); [int(x)] is
      truncation toward zero.  Equalities between computed times and
      payloads are therefore stated with [==] ([Qeq]).  The module
      [Binary64] repeats the quantization on IEEE 754 doubles for a
      concrete check.
    - [numpy.linspace] is written out from its documented behaviour;
      [lin_interpolate] and [get_color], which live in modules of vedo
      outside this file, are modelled where they are defined below.
    - Scene objects are references ([obj], compared by identity); their
      visual properties live in a store [scene : obj -> props].
    - The instance fields of [Animation] form the record [Animation]; the
      calls into the renderer, the video writer, the logger and the
      progress bar are recorded, in order, in a [trace].
    - A method is a function from the state before the call to an outcome
      (a returned value or a raised exception) and the state after it:
      what was mutated before an exception stays mutated.

    The module [AnimationPlayer] embeds the class of that name of the same
    file (the frame counter behind the play/pause and step buttons, the
    timer and the slider); its conventions are given there. *)

From Stdlib Require Import QArith Qround ZArith List String Bool Lia Lqa.
From Stdlib Require Import Sorting.Sorted Sorting.Permutation.
From Stdlib Require Floats.
Import ListNotations.
Open Scope Q_scope.

(** ** Numbers *)

(** [int(x)] on a float: truncation toward zero. *)
Definition py_int (x : Q) : Z := Z.quot (Qnum x) (Zpos (Qden x)).

(** Truth value of a float: [if x:] holds unless [x] is zero. *)
Definition truthy (x : Q) : bool := negb (Qeq_bool x 0).

(** [a > b] on floats. *)
Definition Qgt_bool (a b : Q) : bool := negb (Qle_bool a b).

(** [a >= b] on floats. *)
Definition Qge_bool (a b : Q) : bool := Qle_bool b a.

(** Rounding to the nearest integer, halves going up: the reading of
    [round] under which [round(3.5) = 4]. *)
Definition round_half_up (x : Q) : Z := Qfloor (x + (1 # 2)).

Definition vec3 : Type := Q * Q * Q.
Definition rgb : Type := Q * Q * Q.

Definition vadd (u v : vec3) : vec3 :=
  let '(a, b, c) := u in let '(x, y, z) := v in (a + x, b + y, c + z).
Definition vsub (u v : vec3) : vec3 :=
  let '(a, b, c) := u in let '(x, y, z) := v in (a - x, b - y, c - z).
Definition vscale (u : vec3) (k : Q) : vec3 :=
  let '(a, b, c) := u in (a * k, b * k, c * k).
Definition vdiv (u : vec3) (k : Q) : vec3 :=
  let '(a, b, c) := u in (a / k, b / k, c / k).

(** ** Exceptions and outcomes *)

Inductive exn : Type :=
| RuntimeError
| IndexError
| UnboundLocalError
| AttributeError
| ValueError
| TypeError
| ZeroDivisionError.

Inductive outcome (A : Type) : Type :=
| Returned (v : A)
| Raised (e : exn).
Arguments Returned {A} v.
Arguments Raised {A} e.

(** ** numpy.linspace

    [np.linspace(start, stop, num)]: [num] evenly spaced samples over
    [[start, stop]], both ends included; the step is
    [(stop - start) / (num - 1)], sample [i] is [start + i * step], and
    for [num > 1] the last sample is set to [stop].  A negative [num]
    raises [ValueError]. *)
Definition linspace_sample (start stop : Q) (num i : nat) : Q :=
  if ((1 <? num)%nat && (S i =? num)%nat)%bool then stop
  else start + inject_Z (Z.of_nat i) * ((stop - start) / inject_Z (Z.of_nat num - 1)).

Definition linspace (start stop : Q) (num : Z) : outcome (list Q) :=
  if (num <? 0)%Z then Raised ValueError
  else Returned (map (linspace_sample start stop (Z.to_nat num))
                     (seq 0 (Z.to_nat num))).

(** ** vedo.utils helpers *)

(** Modelled from the spec: [lin_interpolate] of [vedo.utils], which is not
    among the sources.  "Linear interpolation between the transition's
    start-value and end-value": [x] in [rangeX] is mapped linearly onto
    [rangeY].  On a degenerate [rangeX] (both ends equal) the start value of
    [rangeY] is returned. *)
Definition lin_interpolate (x : Q) (rangeX rangeY : Q * Q) : Q :=
  let x0 := fst rangeX in
  let dx := snd rangeX - x0 in
  if Qeq_bool dx 0 then fst rangeY
  else
    let s := (x - x0) / dx in
    fst rangeY * (1 - s) + snd rangeY * s.

(** Modelled from the spec: [get_color] of [vedo.colors], which is not among
    the sources; colours are passed already resolved to an RGB triple, which
    [get_color] returns as it is (so ["red"] is [(1, 0, 0)]). *)
Definition get_color (c : rgb) : rgb := c.

(** ** Data model *)

(** A scene object, by identity. *)
Definition obj : Type := nat.

(** The [axis] argument of [rotate]: a string or a tuple. *)
Inductive axis_val : Type :=
| AxisStr (s : string)
| AxisTuple (v : vec3).

(** Opaque geometry queries used by [mesh_erode]. *)
Record geometry : Type := mkGeometry {
  diagonal_size : Q;
  GetBounds : Q * Q * Q * Q * Q * Q;
  (* norm(closest_point(c) - c) *)
  closest_point_dist : vec3 -> Q;
  (* closest_point(c, radius=d, return_point_id=True) *)
  closest_point_ids : vec3 -> Q -> list nat;
  npoints : nat
}.

(** The visual state of an object, as far as the transitions read or write
    it.  [rotate_x/y/z] and [scale] are recorded as the calls made. *)
Record props : Type := mkProps {
  has_alpha : bool;            (* hasattr(a, "alpha") *)
  alpha : Q;
  color : rgb;
  GetBackfaceProperty : bool;
  backColor : rgb;
  wireframe : bool;
  lw : Q;
  linecolor : rgb;
  Ambient : Q;
  Diffuse : Q;
  Specular : Q;
  SpecularPower : Q;
  pos : vec3;
  rotations : list (string * Q);
  scales : list Q;
  geom : geometry
}.

Definition scene : Type := obj -> props.

Definition upd (sc : scene) (a : obj) (p : props) : scene :=
  fun b => if Nat.eqb b a then p else sc b.

(** The transition methods that can stand as the action of an Event. *)
Inductive action : Type :=
| fade_in_m | fade_out_m | change_alpha_between_m
| change_color_m | change_backcolor_m
| change_to_wireframe_m | change_to_surface_m
| change_line_width_m | change_line_color_m
| change_lighting_m | move_m | rotate_m | scale_m | mesh_erode_m.

(** The precomputed value(s) an Event carries. *)
Inductive payload : Type :=
| PNone                                  (* [] before the first Event *)
| PScalar (v : Q)                        (* alpha, scale factor *)
| PBool (b : bool)                       (* wireframe flag *)
| PColors (l : list rgb)                 (* one colour per target *)
| PBackColors (l : list (option rgb))
| PWidths (l : list Q)
| PLighting (l : list (Q * Q * Q * Q))
| PPos (v : vec3)
| PRot (ax : axis_val) (ang : Q)
| PIds (l : list nat).

(** An Event: [(tt, action, acts, inputvalues)]. *)
Record event : Type := mkEvent {
  ev_time : Q;
  ev_action : action;
  ev_acts : list obj;
  ev_payload : payload
}.

(** Calls into the collaborators, in the order made. *)
Inductive effect : Type :=
| LogError (msg : string)
| ProgressBarNew (total : nat)
| ProgressPrint (tt : Q) (a : action)
| VideoOpen (name : string) (fps : Z) (duration : option Q)
| VideoAddFrame
| VideoPause (dt : Q)
| VideoClose
| Show (interactive : bool).

(** The instance fields set by [__init__]. *)
Record Animation : Type := mkAnimation {
  events : list event;
  time_resolution : Q;
  total_duration : option Q;
  show_progressbar : bool;
  video_filename : string;
  video_fps : Z;
  bookingMode : bool;
  _inputvalues : payload;
  _performers : list obj;
  _lastT : option Q;
  _lastDuration : option Q;
  _lastActs : option (list obj);
  eps : Q;
  objects : list obj
}.

Record state : Type := mkState {
  self : Animation;
  world : scene;
  trace : list effect
}.

(** [Animation(total_duration, time_resolution, show_progressbar,
    video_filename, video_fps)]. *)
Definition init (total_duration : option Q) (time_resolution : Q)
    (show_progressbar : bool) (video_filename : string) (video_fps : Z)
  : Animation :=
  {| events := [];
     time_resolution := time_resolution;
     total_duration := total_duration;
     show_progressbar := show_progressbar;
     video_filename := video_filename;
     video_fps := video_fps;
     bookingMode := true;
     _inputvalues := PNone;
     _performers := [];
     _lastT := None;
     _lastDuration := None;
     _lastActs := None;
     eps := 1 # 100000;
     objects := [] |}.

(** [Animation()] with every argument at its default. *)
Definition default_animation : Animation :=
  init None (2 # 100) true "animation.mp4" 12.

(** ** Field updates *)

Definition set_events (a : Animation) (l : list event) : Animation :=
  {| events := l;
     time_resolution := time_resolution a;
     total_duration := total_duration a;
     show_progressbar := show_progressbar a;
     video_filename := video_filename a;
     video_fps := video_fps a;
     bookingMode := bookingMode a;
     _inputvalues := _inputvalues a;
     _performers := _performers a;
     _lastT := _lastT a;
     _lastDuration := _lastDuration a;
     _lastActs := _lastActs a;
     eps := eps a;
     objects := objects a |}.

Definition set_total_duration (a : Animation) (d : option Q) : Animation :=
  {| events := events a;
     time_resolution := time_resolution a;
     total_duration := d;
     show_progressbar := show_progressbar a;
     video_filename := video_filename a;
     video_fps := video_fps a;
     bookingMode := bookingMode a;
     _inputvalues := _inputvalues a;
     _performers := _performers a;
     _lastT := _lastT a;
     _lastDuration := _lastDuration a;
     _lastActs := _lastActs a;
     eps := eps a;
     objects := objects a |}.

Definition set_bookingMode (a : Animation) (b : bool) : Animation :=
  {| events := events a;
     time_resolution := time_resolution a;
     total_duration := total_duration a;
     show_progressbar := show_progressbar a;
     video_filename := video_filename a;
     video_fps := video_fps a;
     bookingMode := b;
     _inputvalues := _inputvalues a;
     _performers := _performers a;
     _lastT := _lastT a;
     _lastDuration := _lastDuration a;
     _lastActs := _lastActs a;
     eps := eps a;
     objects := objects a |}.

(** [self._performers, self._inputvalues = ...]. *)
Definition set_current (a : Animation) (perf : list obj) (v : payload)
  : Animation :=
  {| events := events a;
     time_resolution := time_resolution a;
     total_duration := total_duration a;
     show_progressbar := show_progressbar a;
     video_filename := video_filename a;
     video_fps := video_fps a;
     bookingMode := bookingMode a;
     _inputvalues := v;
     _performers := perf;
     _lastT := _lastT a;
     _lastDuration := _lastDuration a;
     _lastActs := _lastActs a;
     eps := eps a;
     objects := objects a |}.

(** [self._lastT, self._lastDuration, self._lastActs = ...]. *)
Definition set_last (a : Animation) (t d : Q) (acts : list obj) : Animation :=
  {| events := events a;
     time_resolution := time_resolution a;
     total_duration := total_duration a;
     show_progressbar := show_progressbar a;
     video_filename := video_filename a;
     video_fps := video_fps a;
     bookingMode := bookingMode a;
     _inputvalues := _inputvalues a;
     _performers := _performers a;
     _lastT := Some t;
     _lastDuration := Some d;
     _lastActs := Some acts;
     eps := eps a;
     objects := objects a |}.

Definition set_objects (a : Animation) (l : list obj) : Animation :=
  {| events := events a;
     time_resolution := time_resolution a;
     total_duration := total_duration a;
     show_progressbar := show_progressbar a;
     video_filename := video_filename a;
     video_fps := video_fps a;
     bookingMode := bookingMode a;
     _inputvalues := _inputvalues a;
     _performers := _performers a;
     _lastT := _lastT a;
     _lastDuration := _lastDuration a;
     _lastActs := _lastActs a;
     eps := eps a;
     objects := l |}.

Definition set_alpha (p : props) (v : Q) : props :=
  mkProps (has_alpha p) v (color p) (GetBackfaceProperty p) (backColor p)
    (wireframe p) (lw p) (linecolor p) (Ambient p) (Diffuse p) (Specular p)
    (SpecularPower p) (pos p) (rotations p) (scales p) (geom p).
Definition set_color (p : props) (c : rgb) : props :=
  mkProps (has_alpha p) (alpha p) c (GetBackfaceProperty p) (backColor p)
    (wireframe p) (lw p) (linecolor p) (Ambient p) (Diffuse p) (Specular p)
    (SpecularPower p) (pos p) (rotations p) (scales p) (geom p).
(** [backColor(c)]; with [None] the call only reads the colour. *)
Definition set_backColor (p : props) (c : option rgb) : props :=
  match c with
  | None => p
  | Some c =>
    mkProps (has_alpha p) (alpha p) (color p) (GetBackfaceProperty p) c
      (wireframe p) (lw p) (linecolor p) (Ambient p) (Diffuse p) (Specular p)
      (SpecularPower p) (pos p) (rotations p) (scales p) (geom p)
  end.
Definition set_wireframe (p : props) (b : bool) : props :=
  mkProps (has_alpha p) (alpha p) (color p) (GetBackfaceProperty p) (backColor p)
    b (lw p) (linecolor p) (Ambient p) (Diffuse p) (Specular p)
    (SpecularPower p) (pos p) (rotations p) (scales p) (geom p).
Definition set_lw (p : props) (v : Q) : props :=
  mkProps (has_alpha p) (alpha p) (color p) (GetBackfaceProperty p) (backColor p)
    (wireframe p) v (linecolor p) (Ambient p) (Diffuse p) (Specular p)
    (SpecularPower p) (pos p) (rotations p) (scales p) (geom p).
Definition set_linecolor (p : props) (c : rgb) : props :=
  mkProps (has_alpha p) (alpha p) (color p) (GetBackfaceProperty p) (backColor p)
    (wireframe p) (lw p) c (Ambient p) (Diffuse p) (Specular p)
    (SpecularPower p) (pos p) (rotations p) (scales p) (geom p).
Definition set_lighting (p : props) (v : Q * Q * Q * Q) : props :=
  let '(a, d, s, sp) := v in
  mkProps (has_alpha p) (alpha p) (color p) (GetBackfaceProperty p) (backColor p)
    (wireframe p) (lw p) (linecolor p) a d s sp
    (pos p) (rotations p) (scales p) (geom p).
Definition set_pos (p : props) (v : vec3) : props :=
  mkProps (has_alpha p) (alpha p) (color p) (GetBackfaceProperty p) (backColor p)
    (wireframe p) (lw p) (linecolor p) (Ambient p) (Diffuse p) (Specular p)
    (SpecularPower p) v (rotations p) (scales p) (geom p).
(** [rotate_x], [rotate_y], [rotate_z]: the call is recorded. *)
Definition add_rotation (p : props) (ax : string) (ang : Q) : props :=
  mkProps (has_alpha p) (alpha p) (color p) (GetBackfaceProperty p) (backColor p)
    (wireframe p) (lw p) (linecolor p) (Ambient p) (Diffuse p) (Specular p)
    (SpecularPower p) (pos p) (rotations p ++ [(ax, ang)]) (scales p) (geom p).
(** [scale(factor)]: the call is recorded. *)
Definition add_scale (p : props) (f : Q) : props :=
  mkProps (has_alpha p) (alpha p) (color p) (GetBackfaceProperty p) (backColor p)
    (wireframe p) (lw p) (linecolor p) (Ambient p) (Diffuse p) (Specular p)
    (SpecularPower p) (pos p) (rotations p) (scales p ++ [f]) (geom p).

(** ** The state-and-exception monad of a method call *)

Definition M (A : Type) : Type := state -> outcome A * state.

Definition ret {A} (v : A) : M A := fun st => (Returned v, st).

Definition raise {A} (e : exn) : M A := fun st => (Raised e, st).

Definition bind {A B} (m : M A) (k : A -> M B) : M B :=
  fun st =>
    match m st with
    | (Returned v, st') => k v st'
    | (Raised e, st') => (Raised e, st')
    end.

Declare Scope monad_scope.
Delimit Scope monad_scope with monad.
Notation "x <- m ;; k" := (bind m (fun x => k))
  (at level 61, m at next level, right associativity) : monad_scope.
Notation "' p <- m ;; k" := (bind m (fun x => let 'p := x in k))
  (at level 61, p pattern, m at next level, right associativity) : monad_scope.
Notation "m ;; k" := (bind m (fun _ => k))
  (at level 61, right associativity) : monad_scope.
Open Scope monad_scope.

Definition get_self : M Animation := fun st => (Returned (self st), st).

Definition put_self (a : Animation) : M unit :=
  fun st => (Returned tt, mkState a (world st) (trace st)).

Definition modify_self (f : Animation -> Animation) : M unit :=
  fun st => (Returned tt, mkState (f (self st)) (world st) (trace st)).

Definition get_props (a : obj) : M props :=
  fun st => (Returned (world st a), st).

Definition modify_props (a : obj) (f : props -> props) : M unit :=
  fun st => (Returned tt,
             mkState (self st) (upd (world st) a (f (world st a))) (trace st)).

Definition emit (e : effect) : M unit :=
  fun st => (Returned tt, mkState (self st) (world st) (trace st ++ [e])).

Definition lift {A} (o : outcome A) : M A := fun st => (o, st).

(** Nothing to do. *)
Definition pass : M unit := ret tt.

(** [for x in l: body(x)]. *)
Fixpoint for_each {A} (l : list A) (body : A -> M unit) : M unit :=
  match l with
  | [] => ret tt
  | x :: l' => body x ;; for_each l' body
  end.

(** [for i, x in enumerate(l): body(i, x)], counting from [i]. *)
Fixpoint for_enumerate {A} (i : nat) (l : list A) (body : nat -> A -> M unit)
  : M unit :=
  match l with
  | [] => ret tt
  | x :: l' => body i x ;; for_enumerate (S i) l' body
  end.

(** [[f(x) for x in l]] where [f] may raise. *)
Fixpoint map_M {A B} (f : A -> M B) (l : list A) : M (list B) :=
  match l with
  | [] => ret []
  | x :: l' => y <- f x ;; ys <- map_M f l' ;; ret (y :: ys)
  end.

(** [self.events.append(e)]. *)
Definition append_event (e : event) : M unit :=
  modify_self (fun a => set_events a (events a ++ [e])).

(** [l[i]] for a non-negative index. *)
Definition index {A} (l : list A) (i : nat) : M A :=
  match nth_error l i with
  | Some v => ret v
  | None => raise IndexError
  end.

(** ** Booking: [_parse] *)

(** The [acts] argument of a declaration: omitted, one object, or a
    sequence of objects. *)
Inductive acts_arg : Type :=
| ActsNone
| ActsOne (a : obj)
| ActsSeq (l : list obj).

(** [for a in objs2: if a not in self.objects: self.objects.append(a)]. *)
Definition register (objs2 : list obj) (objects : list obj) : list obj :=
  fold_left (fun os a => if existsb (Nat.eqb a) os then os else os ++ [a])
            objs2 objects.

(** [int(x / self.time_resolution + 0.5)]. *)
Definition quantize (x res : Q) : Z := py_int (x / res + (1 # 2)).

(** [if x is None: if last: x = last else: x = 0.0] (a field holding
    [None] or [0.0] is falsy). *)
Definition or_last (x last : option Q) : Q :=
  match x with
  | Some x => x
  | None =>
    match last with
    | Some l => if truthy l then l else 0
    | None => 0
    end
  end.

Definition _parse (objs : acts_arg) (t duration : option Q)
  : M (list obj * Q * Q * list Q) :=
  s <- get_self ;;
  let t := or_last t (_lastT s) in
  let duration := or_last duration (_lastDuration s) in
  objs <- match objs with
          | ActsNone =>
            match _lastActs s with
            | Some (a :: l) => ret (ActsSeq (a :: l))
            | _ => emit (LogError "Need to specify actors!") ;;
                   raise RuntimeError
            end
          | _ => ret objs
          end ;;
  let objs2 :=
    match objs with
    | ActsSeq l => l
    | ActsOne a => [a]
    | ActsNone => []
    end in
  (* quantize time steps and duration *)
  if Qeq_bool (time_resolution s) 0 then raise ZeroDivisionError
  else
    let t := inject_Z (quantize t (time_resolution s)) * time_resolution s in
    let nsteps := quantize duration (time_resolution s) in
    let duration := inject_Z nsteps * time_resolution s in
    rng <- lift (linspace t (t + duration) (nsteps + 1)) ;;
    modify_self (fun a => set_last a t duration objs2) ;;
    modify_self (fun a => set_objects a (register objs2 (objects a))) ;;
    ret (objs2, t, duration, rng).

(** ** The transition methods

    Each method books Events while [self.bookingMode] holds and otherwise
    applies [self._inputvalues] to [self._performers].  Booking pairs every
    action with its own shape of payload; applying a payload of another
    shape is reported as [TypeError]. *)

Definition as_scalar (p : payload) : M Q :=
  match p with PScalar v => ret v | _ => raise TypeError end.
Definition as_bool (p : payload) : M bool :=
  match p with PBool b => ret b | _ => raise TypeError end.
Definition as_colors (p : payload) : M (list rgb) :=
  match p with PColors l => ret l | _ => raise TypeError end.
Definition as_backcolors (p : payload) : M (list (option rgb)) :=
  match p with PBackColors l => ret l | _ => raise TypeError end.
Definition as_widths (p : payload) : M (list Q) :=
  match p with PWidths l => ret l | _ => raise TypeError end.
Definition as_lighting (p : payload) : M (list (Q * Q * Q * Q)) :=
  match p with PLighting l => ret l | _ => raise TypeError end.
Definition as_pos (p : payload) : M vec3 :=
  match p with PPos v => ret v | _ => raise TypeError end.
Definition as_rot (p : payload) : M (axis_val * Q) :=
  match p with PRot ax ang => ret (ax, ang) | _ => raise TypeError end.

Definition fade_in (acts : acts_arg) (t duration : option Q) : M unit :=
  s <- get_self ;;
  if bookingMode s then
    '(acts, t, duration, rng) <- _parse acts t duration ;;
    for_each rng (fun tt =>
      let alpha := lin_interpolate tt (t, t + duration) (0, 1) in
      append_event (mkEvent tt fade_in_m acts (PScalar alpha)))
  else
    for_each (_performers s) (fun a =>
      p <- get_props a ;;
      if has_alpha p then
        v <- as_scalar (_inputvalues s) ;;
        if Qge_bool (alpha p) v then ret tt
        else modify_props a (fun p => set_alpha p v)
      else ret tt).

Definition fade_out (acts : acts_arg) (t duration : option Q) : M unit :=
  s <- get_self ;;
  if bookingMode s then
    '(acts, t, duration, rng) <- _parse acts t duration ;;
    for_each rng (fun tt =>
      let alpha := lin_interpolate tt (t, t + duration) (1, 0) in
      append_event (mkEvent tt fade_out_m acts (PScalar alpha)))
  else
    for_each (_performers s) (fun a =>
      p <- get_props a ;;
      if has_alpha p then
        v <- as_scalar (_inputvalues s) ;;
        if Qle_bool (alpha p) v then ret tt
        else modify_props a (fun p => set_alpha p v)
      else raise AttributeError).

Definition switch_on (acts : acts_arg) (t : option Q) : M unit :=
  fade_in acts t (Some 0).

Definition switch_off (acts : acts_arg) (t : option Q) : M unit :=
  fade_out acts t (Some 0).

Definition change_alpha_between (alpha1 alpha2 : Q) (acts : acts_arg)
    (t duration : option Q) : M unit :=
  s <- get_self ;;
  if bookingMode s then
    '(acts, t, duration, rng) <- _parse acts t duration ;;
    for_each rng (fun tt =>
      let alpha := lin_interpolate tt (t, t + duration) (alpha1, alpha2) in
      append_event (mkEvent tt fade_out_m acts (PScalar alpha)))
  else
    for_each (_performers s) (fun a =>
      p <- get_props a ;;
      if has_alpha p then
        v <- as_scalar (_inputvalues s) ;;
        modify_props a (fun p => set_alpha p v)
      else raise AttributeError).

(** Per-channel interpolation of a colour. *)
Definition interpolate_rgb (tt : Q) (rangeX : Q * Q) (col1 col2 : rgb) : rgb :=
  let '(r1, g1, b1) := col1 in
  let '(r2, g2, b2) := col2 in
  (lin_interpolate tt rangeX (r1, r2),
   lin_interpolate tt rangeX (g1, g2),
   lin_interpolate tt rangeX (b1, b2)).

Definition change_color (c : rgb) (acts : acts_arg) (t duration : option Q)
  : M unit :=
  s <- get_self ;;
  if bookingMode s then
    '(acts, t, duration, rng) <- _parse acts t duration ;;
    let col2 := get_color c in
    for_each rng (fun tt =>
      inputvalues <- map_M (fun a =>
        p <- get_props a ;;
        ret (interpolate_rgb tt (t, t + duration) (color p) col2)) acts ;;
      append_event (mkEvent tt change_color_m acts (PColors inputvalues)))
  else
    for_enumerate 0 (_performers s) (fun i a =>
      l <- as_colors (_inputvalues s) ;;
      c <- index l i ;;
      modify_props a (fun p => set_color p c)).

Definition change_backcolor (c : rgb) (acts : acts_arg) (t duration : option Q)
  : M unit :=
  s <- get_self ;;
  if bookingMode s then
    '(acts, t, duration, rng) <- _parse acts t duration ;;
    let col2 := get_color c in
    for_each rng (fun tt =>
      inputvalues <- map_M (fun a =>
        p <- get_props a ;;
        if GetBackfaceProperty p then
          ret (Some (interpolate_rgb tt (t, t + duration) (backColor p) col2))
        else ret None) acts ;;
      append_event
        (mkEvent tt change_backcolor_m acts (PBackColors inputvalues)))
  else
    for_enumerate 0 (_performers s) (fun i a =>
      l <- as_backcolors (_inputvalues s) ;;
      c <- index l i ;;
      modify_props a (fun p => set_backColor p c)).

Definition change_to_wireframe (acts : acts_arg) (t : option Q) : M unit :=
  s <- get_self ;;
  if bookingMode s then
    '(acts, t, _, _) <- _parse acts t None ;;
    append_event (mkEvent t change_to_wireframe_m acts (PBool true))
  else
    for_each (_performers s) (fun a =>
      b <- as_bool (_inputvalues s) ;;
      modify_props a (fun p => set_wireframe p b)).

Definition change_to_surface (acts : acts_arg) (t : option Q) : M unit :=
  s <- get_self ;;
  if bookingMode s then
    '(acts, t, _, _) <- _parse acts t None ;;
    append_event (mkEvent t change_to_surface_m acts (PBool false))
  else
    for_each (_performers s) (fun a =>
      b <- as_bool (_inputvalues s) ;;
      modify_props a (fun p => set_wireframe p b)).

Definition change_line_width (lw' : Q) (acts : acts_arg) (t duration : option Q)
  : M unit :=
  s <- get_self ;;
  if bookingMode s then
    '(acts, t, duration, rng) <- _parse acts t duration ;;
    for_each rng (fun tt =>
      inputvalues <- map_M (fun a =>
        p <- get_props a ;;
        ret (lin_interpolate tt (t, t + duration) (lw p, lw'))) acts ;;
      append_event
        (mkEvent tt change_line_width_m acts (PWidths inputvalues)))
  else
    for_enumerate 0 (_performers s) (fun i a =>
      l <- as_widths (_inputvalues s) ;;
      v <- index l i ;;
      modify_props a (fun p => set_lw p v)).

Definition change_line_color (c : rgb) (acts : acts_arg) (t duration : option Q)
  : M unit :=
  s <- get_self ;;
  if bookingMode s then
    '(acts, t, duration, rng) <- _parse acts t duration ;;
    let col2 := get_color c in
    for_each rng (fun tt =>
      inputvalues <- map_M (fun a =>
        p <- get_props a ;;
        ret (interpolate_rgb tt (t, t + duration) (linecolor p) col2)) acts ;;
      append_event
        (mkEvent tt change_line_color_m acts (PColors inputvalues)))
  else
    for_enumerate 0 (_performers s) (fun i a =>
      l <- as_colors (_inputvalues s) ;;
      c <- index l i ;;
      modify_props a (fun p => set_linecolor p c)).

(** The parameter set of a lighting style; [None] when the [else] branch
    leaves [pars] unassigned.  (The fifth entry, the colour [c], is never
    read.) *)
Definition lighting_pars (style : string) : option (Q * Q * Q * Q) :=
  if String.eqb style "metallic" then Some (1 # 10, 3 # 10, 1, 10)
  else if String.eqb style "plastic" then Some (3 # 10, 4 # 10, 3 # 10, 5)
  else if String.eqb style "shiny" then Some (2 # 10, 6 # 10, 8 # 10, 50)
  else if String.eqb style "glossy" then Some (1 # 10, 7 # 10, 9 # 10, 90)
  else if String.eqb style "default" then Some (1 # 10, 1, 5 # 100, 5)
  else None.

Definition change_lighting (style : string) (acts : acts_arg)
    (t duration : option Q) : M unit :=
  s <- get_self ;;
  if bookingMode s then
    '(acts, t, duration, rng) <- _parse acts t duration ;;
    let pars := lighting_pars style in
    (match pars with
     | Some _ => ret tt
     | None => emit (LogError (String.append "Unknown lighting style " style))
     end) ;;
    for_each rng (fun tt =>
      inputvalues <- map_M (fun a =>
        p <- get_props a ;;
        match pars with
        | None => raise UnboundLocalError      (* pars[0] *)
        | Some (p0, p1, p2, p3) =>
          let rX := (t, t + duration) in
          ret (lin_interpolate tt rX (Ambient p, p0),
               lin_interpolate tt rX (Diffuse p, p1),
               lin_interpolate tt rX (Specular p, p2),
               lin_interpolate tt rX (SpecularPower p, p3))
        end) acts ;;
      append_event
        (mkEvent tt change_lighting_m acts (PLighting inputvalues)))
  else
    for_enumerate 0 (_performers s) (fun i a =>
      l <- as_lighting (_inputvalues s) ;;
      vals <- index l i ;;
      modify_props a (fun p => set_lighting p vals)).

(** [sub in s] on strings. *)
Definition contains (sub s : string) : bool :=
  match String.index 0 sub s with Some _ => true | None => false end.

(** [len(l)] as a float operand. *)
Definition len_Q {A} (l : list A) : Q := inject_Z (Z.of_nat (List.length l)).

Definition move (act : acts_arg) (pt : vec3) (t duration : option Q)
    (style : string) : M unit :=
  s <- get_self ;;
  if bookingMode s then
    '(acts, t, duration, rng) <- _parse act t duration ;;
    (if negb (List.length acts =? 1)%nat
     then emit (LogError "in move(), can move only one object.")
     else ret tt) ;;
    a0 <- index acts 0 ;;
    p <- get_props a0 ;;
    let cpos := pos p in
    let dv := vdiv (vsub pt cpos) (len_Q rng) in
    for_enumerate 0 rng (fun j tt =>
      let i := inject_Z (Z.of_nat (j + 1)) in
      if contains "quad" style then
        let x := i / len_Q rng in
        let y := x * x in
        append_event
          (mkEvent tt move_m acts (PPos (vadd cpos (vscale (vscale dv i) y))))
      else
        append_event (mkEvent tt move_m acts (PPos (vadd cpos (vscale dv i)))))
  else
    a0 <- index (_performers s) 0 ;;
    v <- as_pos (_inputvalues s) ;;
    modify_props a0 (fun p => set_pos p v).

(** [ax == "x"]: a tuple never equals a string. *)
Definition axis_is (ax : axis_val) (name : string) : bool :=
  match ax with
  | AxisStr s => String.eqb s name
  | AxisTuple _ => false
  end.

Definition rotate (act : acts_arg) (axis : axis_val) (angle : Q)
    (t duration : option Q) : M unit :=
  s <- get_self ;;
  if bookingMode s then
    '(acts, t, duration, rng) <- _parse act t duration ;;
    (if negb (List.length acts =? 1)%nat
     then emit (LogError "in rotate(), can move only one object.")
     else ret tt) ;;
    for_each rng (fun tt =>
      let ang := angle / len_Q rng in
      append_event (mkEvent tt rotate_m acts (PRot axis ang)))
  else
    '(ax, ang) <- as_rot (_inputvalues s) ;;
    if axis_is ax "x" then
      a0 <- index (_performers s) 0 ;;
      modify_props a0 (fun p => add_rotation p "x" ang)
    else if axis_is ax "y" then
      a0 <- index (_performers s) 0 ;;
      modify_props a0 (fun p => add_rotation p "y" ang)
    else if axis_is ax "z" then
      a0 <- index (_performers s) 0 ;;
      modify_props a0 (fun p => add_rotation p "z" ang)
    else ret tt.

Definition scale (acts : acts_arg) (factor : Q) (t duration : option Q)
  : M unit :=
  s <- get_self ;;
  if bookingMode s then
    '(acts, t, duration, rng) <- _parse acts t duration ;;
    for_each rng (fun tt =>
      let fac := lin_interpolate tt (t, t + duration) (1, factor) in
      append_event (mkEvent tt scale_m acts (PScalar fac)))
  else
    for_each (_performers s) (fun a =>
      v <- as_scalar (_inputvalues s) ;;
      modify_props a (fun p => add_scale p v)).

(** [l[i]] for an index of either sign. *)
Definition py_index {A} (l : list A) (i : Z) : M A :=
  if (0 <=? i)%Z then index l (Z.to_nat i)
  else if (0 <=? Z.of_nat (List.length l) + i)%Z
       then index l (Z.to_nat (Z.of_nat (List.length l) + i))
       else raise IndexError.

(** The eight corners of the bounding box [x0, x1, y0, y1, z0, z1]. *)
Definition corners_of (b : Q * Q * Q * Q * Q * Q) : list vec3 :=
  let '(x0, x1, y0, y1, z0, z1) := b in
  [(x0, y0, z0); (x1, y0, z0); (x1, y1, z0); (x0, y1, z0);
   (x0, y0, z1); (x1, y0, z1); (x1, y1, z1); (x0, y1, z1)].

Definition mesh_erode (act : acts_arg) (corner : Z) (t duration : option Q)
  : M unit :=
  s <- get_self ;;
  if bookingMode s then
    '(acts, t, duration, rng) <- _parse act t duration ;;
    (if negb (List.length acts =? 1)%nat
     then emit (LogError "in meshErode(), can erode only one object.")
     else ret tt) ;;
    a0 <- index acts 0 ;;
    p <- get_props a0 ;;
    let g := geom p in
    let diag := diagonal_size g in
    let corners := corners_of (GetBounds g) in
    c <- py_index corners corner ;;
    let dmin := closest_point_dist g c in
    for_each rng (fun tt =>
      let d := lin_interpolate tt (t, t + duration) (dmin, diag * (101 # 100)) in
      if Qgt_bool d 0 then
        let ids := closest_point_ids g c d in
        if (List.length ids <=? npoints g)%nat
        then append_event (mkEvent tt mesh_erode_m acts (PIds ids))
        else pass
      else pass)
  else ret tt.

(** ** Playback: [play] *)

(** [action(0, 0)]: the bound method stored in an Event, called with two
    zeros for its first two parameters and defaults for the others. *)
Definition call_action (a : action) : M unit :=
  match a with
  | fade_in_m => fade_in (ActsOne 0%nat) (Some 0) None
  | fade_out_m => fade_out (ActsOne 0%nat) (Some 0) None
  | change_alpha_between_m => change_alpha_between 0 0 ActsNone None None
  | change_color_m => change_color (0, 0, 0) (ActsOne 0%nat) None None
  | change_backcolor_m => change_backcolor (0, 0, 0) (ActsOne 0%nat) None None
  | change_to_wireframe_m => change_to_wireframe (ActsOne 0%nat) (Some 0)
  | change_to_surface_m => change_to_surface (ActsOne 0%nat) (Some 0)
  | change_line_width_m => change_line_width 0 (ActsOne 0%nat) None None
  | change_line_color_m => change_line_color (0, 0, 0) (ActsOne 0%nat) None None
  | change_lighting_m => change_lighting "" (ActsOne 0%nat) None None
  | move_m => move (ActsOne 0%nat) (0, 0, 0) None None "linear"
  | rotate_m => rotate (ActsOne 0%nat) (AxisTuple (0, 0, 0)) 0 None None
  | scale_m => scale (ActsOne 0%nat) 0 None None
  | mesh_erode_m => mesh_erode (ActsOne 0%nat) 0 None None
  end.

(** [sorted(self.events, key=lambda x: x[0])]: a stable sort by time,
    written as insertion from the right, each Event going before the first
    later Event that is not earlier in time. *)
Fixpoint insert_event (e : event) (l : list event) : list event :=
  match l with
  | [] => [e]
  | y :: l' =>
    if Qle_bool (ev_time e) (ev_time y) then e :: y :: l'
    else y :: insert_event e l'
  end.

Definition sorted (l : list event) : list event :=
  fold_right insert_event [] l.

(** [if self.video_filename:]. *)
Definition video_requested (a : Animation) : bool :=
  negb (String.eqb (video_filename a) "").

Definition when (b : bool) (m : M unit) : M unit := if b then m else ret tt.

(** The body of [for e in self.events], with [ttlast] carried along. *)
Fixpoint play_loop (evs : list event) (ttlast : Q) : M unit :=
  match evs with
  | [] => ret tt
  | e :: rest =>
    modify_self (fun a => set_current a (ev_acts e) (ev_payload e)) ;;
    call_action (ev_action e) ;;
    s <- get_self ;;
    let dt := ev_time e - ttlast in
    when (Qgt_bool dt (eps s))
      (emit (Show false) ;;
       when (video_requested s) (emit VideoAddFrame) ;;
       when (Qgt_bool dt (time_resolution s + eps s))
         (when (video_requested s) (emit (VideoPause dt)))) ;;
    when (show_progressbar s)
      (emit (ProgressPrint (inject_Z (py_int (ev_time e * 100)) / 100)
                           (ev_action e))) ;;
    play_loop rest (ev_time e)
  end.

Definition play : M unit :=
  modify_self (fun a => set_events a (sorted (events a))) ;;
  modify_self (fun a => set_bookingMode a false) ;;
  s <- get_self ;;
  when (show_progressbar s) (emit (ProgressBarNew (List.length (events s)))) ;;
  (match total_duration s with
   | None =>
     last <- py_index (events s) (-1) ;;
     first <- index (events s) 0 ;;
     modify_self
       (fun a => set_total_duration a (Some (ev_time last - ev_time first)))
   | Some _ => ret tt
   end) ;;
  s <- get_self ;;
  when (video_requested s)
    (emit (VideoOpen (video_filename s) (video_fps s) (total_duration s))) ;;
  play_loop (events s) 0 ;;
  emit (Show false) ;;
  when (video_requested s) (emit VideoAddFrame ;; emit VideoClose) ;;
  emit (Show true) ;;
  modify_self (fun a => set_bookingMode a true).

(** ** The quantization on binary64 floats

    The same [int(x / resolution + 0.5)] on IEEE 754 doubles, to check a
    concrete quantization against the exact reading used above. *)
Module Binary64.

(** [int(x)] on a double: truncation toward zero; [None] where Python
    raises (infinities and NaN). *)
Definition float_int (x : PrimFloat.float) : option Z :=
  match FloatOps.Prim2SF x with
  | SpecFloat.S754_zero _ => Some 0%Z
  | SpecFloat.S754_finite s m e =>
    let mag := if (0 <=? e)%Z then Z.shiftl (Zpos m) e
               else Z.shiftr (Zpos m) (- e) in
    Some (if s then (- mag)%Z else mag)
  | _ => None
  end.

(** The double nearest to [n / d]: what the decimal literal of that value
    denotes when [n] and [d] are small integers. *)
Definition ratio (n d : Z) : PrimFloat.float :=
  PrimFloat.div (PrimFloat.of_uint63 (Uint63.of_Z n))
                (PrimFloat.of_uint63 (Uint63.of_Z d)).

Definition quantize64 (x res : PrimFloat.float) : option Z :=
  float_int (PrimFloat.add (PrimFloat.div x res) (ratio 1 2)).

End Binary64.

(** ** Vocabulary of the statements *)

(** The Events a [rotate] declaration books over the samples [rng]. *)
Definition rotate_events (acts : list obj) (axis : axis_val) (angle : Q)
    (rng : list Q) : list event :=
  map (fun tt => mkEvent tt rotate_m acts (PRot axis (angle / len_Q rng))) rng.

(** The state [st] with the Events [new] appended to its list. *)
Definition with_events (st : state) (new : list event) : state :=
  mkState (set_events (self st) (events (self st) ++ new))
          (world st) (trace st).

(** A computation that returns and only appends Events satisfying [P]. *)
Definition books_only (P : event -> Prop) (m : M unit) : Prop :=
  forall st, exists new,
    m st = (Returned tt, with_events st new) /\ Forall P new.


(** Whether playback acts on the stored axis: it is the string ["x"],
    ["y"] or ["z"]. *)
Definition axis_applies (ax : axis_val) : bool :=
  axis_is ax "x" || axis_is ax "y" || axis_is ax "z".

(** The default [axis] argument of [rotate]. *)
Definition default_axis : axis_val := AxisTuple (1, 0, 0).

(** The Event a [move] declaration books for sample number [j] (from 0)
    at time [tt], from the start position [cpos] towards [pt] over
    [n] samples. *)
Definition move_event (acts : list obj) (cpos pt : vec3) (n : Q)
    (style : string) (j : nat) (tt : Q) : event :=
  let dv := vdiv (vsub pt cpos) n in
  let i := inject_Z (Z.of_nat (j + 1)) in
  if contains "quad" style then
    mkEvent tt move_m acts
            (PPos (vadd cpos (vscale (vscale dv i) (i / n * (i / n)))))
  else mkEvent tt move_m acts (PPos (vadd cpos (vscale dv i))).

Definition move_events (acts : list obj) (cpos pt : vec3) (style : string)
    (rng : list Q) : list event :=
  map (fun p => move_event acts cpos pt (len_Q rng) style (fst p) (snd p))
      (combine (seq 0 (List.length rng)) rng).

(** A scene of identical plain objects, and a fresh state around an
    instance: fixtures for concrete runs. *)
Definition plain_geometry : geometry :=
  mkGeometry 2 (0, 1, 0, 1, 0, 1) (fun _ => 0) (fun _ _ => []) 8.

Definition plain_props : props :=
  mkProps true 1 (0, 0, 0) false (0, 0, 0) false 1 (0, 0, 0)
          (1 # 10) 1 (5 # 100) 5 (0, 0, 0) [] [] plain_geometry.

Definition plain_scene : scene := fun _ => plain_props.

Definition fresh (a : Animation) : state := mkState a plain_scene [].

(** How an alpha fade relates the scene [w] before it to the scene [w']
    after it: every object is untouched, or its alpha was strictly on the
    changing side of the payload [v] and is now [v].  [below] holds the
    comparison "current alpha, payload" that lets the change through. *)
Definition one_way (below : Q -> Q -> Prop) (p : payload) (w w' : scene)
  : Prop :=
  forall o,
    w' o = w o \/
    exists v, p = PScalar v /\ below (alpha (w o)) v /\
              w' o = set_alpha (w o) v.

(** The Events a [change_alpha_between] declaration books. *)
Definition alpha_between_events (acts : list obj) (alpha1 alpha2 tq dq : Q)
    (rng : list Q) : list event :=
  map (fun tt =>
         mkEvent tt fade_out_m acts
           (PScalar (lin_interpolate tt (tq, tq + dq) (alpha1, alpha2))))
      rng.

(** A computation that touches the scene only: the instance fields and
    the trace come out as they went in, whatever the outcome. *)
Definition scene_only {A} (m : M A) : Prop :=
  forall st, self (snd (m st)) = self st /\ trace (snd (m st)) = trace st.

(** A computation that returns and only adds effects satisfying [P] to the
    trace. *)
Definition emits_only (P : effect -> Prop) (m : M unit) : Prop :=
  forall st, exists l,
    m st = (Returned tt, mkState (self st) (world st) (trace st ++ l)) /\
    Forall P l.

(** The effects of the playback loop: frames shown and recorded, holds and
    progress reports. *)
Definition loop_effect (e : effect) : Prop :=
  match e with
  | Show false | VideoAddFrame | VideoPause _ | ProgressPrint _ _ => True
  | _ => False
  end.

(** The state in which the action of the Event [e] is called. *)
Definition at_event (st : state) (e : event) : state :=
  mkState (set_current (self st) (ev_acts e) (ev_payload e))
          (world st) (trace st).

(** Ascending order of scheduled times. *)
Definition le_time (x y : event) : Prop := ev_time x <= ev_time y.

(** The Events of [l] scheduled at time [q], in the order they have in
    [l]. *)
Definition at_time (q : Q) (e : event) : bool := Qeq_bool (ev_time e) q.

Definition ties_of (q : Q) (l : list event) : list event :=
  filter (at_time q) l.

(** The state [st] with [l] as its booked Events. *)
Definition with_list (st : state) (l : list event) : state :=
  mkState (set_events (self st) l) (world st) (trace st).



(** The Events a [fade_in] declaration books over the samples [rng]. *)
Definition fade_in_events (acts : list obj) (tq dq : Q) (rng : list Q)
  : list event :=
  map (fun tt =>
         mkEvent tt fade_in_m acts
           (PScalar (lin_interpolate tt (tq, tq + dq) (0, 1))))
      rng.


(** The target list a declaration resolves to, if any. *)
Definition objs2_of (objs : acts_arg) (last : option (list obj))
  : option (list obj) :=
  match objs with
  | ActsNone => match last with Some (a :: l) => Some (a :: l) | _ => None end
  | ActsOne a => Some [a]
  | ActsSeq l => Some l
  end.

(** The quantized start time, step count and duration of a declaration made
    on the instance [a]. *)
Definition start_of (a : Animation) (t : option Q) : Q :=
  inject_Z (quantize (or_last t (_lastT a)) (time_resolution a))
  * time_resolution a.

Definition nsteps_of (a : Animation) (d : option Q) : Z :=
  quantize (or_last d (_lastDuration a)) (time_resolution a).

Definition duration_of (a : Animation) (d : option Q) : Q :=
  inject_Z (nsteps_of a d) * time_resolution a.

Definition samples_of (a : Animation) (t d : option Q) : list Q :=
  map (linspace_sample (start_of a t) (start_of a t + duration_of a d)
                       (Z.to_nat (nsteps_of a d + 1)))
      (seq 0 (Z.to_nat (nsteps_of a d + 1))).

(** The instance after a successful [_parse]. *)
Definition parsed (a : Animation) (t d : option Q) (objs2 : list obj)
  : Animation :=
  set_objects (set_last a (start_of a t) (duration_of a d) objs2)
              (register objs2 (objects a)).

(** A call of one of the declaration methods, with its arguments. *)
Inductive declaration : Type :=
| call_switch_on (acts : acts_arg) (t : option Q)
| call_switch_off (acts : acts_arg) (t : option Q)
| call_fade_in (acts : acts_arg) (t d : option Q)
| call_fade_out (acts : acts_arg) (t d : option Q)
| call_change_alpha_between (alpha1 alpha2 : Q) (acts : acts_arg)
    (t d : option Q)
| call_change_color (c : rgb) (acts : acts_arg) (t d : option Q)
| call_change_backcolor (c : rgb) (acts : acts_arg) (t d : option Q)
| call_change_to_wireframe (acts : acts_arg) (t : option Q)
| call_change_to_surface (acts : acts_arg) (t : option Q)
| call_change_line_width (lw : Q) (acts : acts_arg) (t d : option Q)
| call_change_line_color (c : rgb) (acts : acts_arg) (t d : option Q)
| call_change_lighting (style : string) (acts : acts_arg) (t d : option Q)
| call_move (act : acts_arg) (pt : vec3) (t d : option Q) (style : string)
| call_rotate (act : acts_arg) (axis : axis_val) (angle : Q) (t d : option Q)
| call_scale (acts : acts_arg) (factor : Q) (t d : option Q)
| call_mesh_erode (act : acts_arg) (corner : Z) (t d : option Q).

(** The method a call runs. *)
Definition declare (c : declaration) : M unit :=
  match c with
  | call_switch_on acts t => switch_on acts t
  | call_switch_off acts t => switch_off acts t
  | call_fade_in acts t d => fade_in acts t d
  | call_fade_out acts t d => fade_out acts t d
  | call_change_alpha_between a1 a2 acts t d =>
    change_alpha_between a1 a2 acts t d
  | call_change_color c acts t d => change_color c acts t d
  | call_change_backcolor c acts t d => change_backcolor c acts t d
  | call_change_to_wireframe acts t => change_to_wireframe acts t
  | call_change_to_surface acts t => change_to_surface acts t
  | call_change_line_width lw acts t d => change_line_width lw acts t d
  | call_change_line_color c acts t d => change_line_color c acts t d
  | call_change_lighting style acts t d => change_lighting style acts t d
  | call_move act pt t d style => move act pt t d style
  | call_rotate act axis angle t d => rotate act axis angle t d
  | call_scale acts factor t d => scale acts factor t d
  | call_mesh_erode act corner t d => mesh_erode act corner t d
  end.

(** The targets argument of a call. *)
Definition targets_of (c : declaration) : acts_arg :=
  match c with
  | call_switch_on acts _ | call_switch_off acts _
  | call_fade_in acts _ _ | call_fade_out acts _ _
  | call_change_alpha_between _ _ acts _ _
  | call_change_color _ acts _ _ | call_change_backcolor _ acts _ _
  | call_change_to_wireframe acts _ | call_change_to_surface acts _
  | call_change_line_width _ acts _ _ | call_change_line_color _ acts _ _
  | call_change_lighting _ acts _ _
  | call_move acts _ _ _ _ | call_rotate acts _ _ _ _
  | call_scale acts _ _ _ | call_mesh_erode acts _ _ _ => acts
  end.

(** A computation that leaves every object of the scene as it is and can
    only add Events at the end of the list, whatever its outcome. *)
Definition books_quietly {A} (m : M A) : Prop :=
  forall st,
    world (snd (m st)) = world st /\
    exists new, events (self (snd (m st))) = events (self st) ++ new.

(** The action a call stands for when it is replayed. *)
Definition action_of (c : declaration) : action :=
  match c with
  | call_switch_on _ _ | call_fade_in _ _ _ => fade_in_m
  | call_switch_off _ _ | call_fade_out _ _ _ => fade_out_m
  | call_change_alpha_between _ _ _ _ _ => change_alpha_between_m
  | call_change_color _ _ _ _ => change_color_m
  | call_change_backcolor _ _ _ _ => change_backcolor_m
  | call_change_to_wireframe _ _ => change_to_wireframe_m
  | call_change_to_surface _ _ => change_to_surface_m
  | call_change_line_width _ _ _ _ => change_line_width_m
  | call_change_line_color _ _ _ _ => change_line_color_m
  | call_change_lighting _ _ _ _ => change_lighting_m
  | call_move _ _ _ _ _ => move_m
  | call_rotate _ _ _ _ _ => rotate_m
  | call_scale _ _ _ _ => scale_m
  | call_mesh_erode _ _ _ _ => mesh_erode_m
  end.

(** The effects of one turn of the playback loop for the Event [e], when
    the Event before it was at time [tl]: a frame when the time advanced by
    more than [eps], recorded when a video is requested, with a hold when
    the gap exceeds the resolution; then the progress report. *)
Definition turn_effects (eps res : Q) (video pb : bool) (tl : Q) (e : event)
  : list effect :=
  let dt := ev_time e - tl in
  (if Qgt_bool dt eps then
     Show false
     :: (if video then [VideoAddFrame] else [])
     ++ (if Qgt_bool dt (res + eps) then
           if video then [VideoPause dt] else []
         else [])
   else [])
  ++ (if pb then
        [ProgressPrint (inject_Z (py_int (ev_time e * 100)) / 100)
                       (ev_action e)]
      else []).

Fixpoint loop_effects (eps res : Q) (video pb : bool) (tl : Q)
    (evs : list event) : list effect :=
  match evs with
  | [] => []
  | e :: rest =>
    turn_effects eps res video pb tl e
    ++ loop_effects eps res video pb (ev_time e) rest
  end.

(** The number of Events whose time exceeds that of the Event before them
    (0 before the first) by more than [eps]. *)
Fixpoint advances (eps : Q) (tl : Q) (evs : list event) : nat :=
  match evs with
  | [] => 0
  | e :: rest =>
    (if Qgt_bool (ev_time e - tl) eps then 1 else 0) + advances eps (ev_time e) rest
  end.

Definition is_add_frame (e : effect) : bool :=
  match e with VideoAddFrame => true | _ => false end.

Definition is_frame_shown (e : effect) : bool :=
  match e with Show false => true | _ => false end.

(** Calls to the video writer. *)
Definition video_effect (e : effect) : bool :=
  match e with
  | VideoOpen _ _ _ | VideoAddFrame | VideoPause _ | VideoClose => true
  | _ => false
  end.

(** The instance on which [play] starts replaying: the Events sorted,
    playback mode on, and the total duration derived from the first and the
    last Event when it was not configured. *)
Definition play_prepared (a : Animation) : Animation :=
  let a1 := set_bookingMode (set_events a (sorted (events a))) false in
  match total_duration a with
  | Some _ => a1
  | None =>
    match sorted (events a) with
    | [] => a1
    | first :: rest =>
      set_total_duration a1
        (Some (ev_time (last rest first) - ev_time first))
    end
  end.

(** The effects of [play] before the video is opened. *)
Definition play_prelude (a : Animation) : list effect :=
  if show_progressbar a
  then [ProgressBarNew (List.length (sorted (events a)))]
  else [].

(** The part of [play] from the opening of the video on, for the instance
    [s] read just before it. *)
Definition play_from (s : Animation) : M unit :=
  when (video_requested s)
    (emit (VideoOpen (video_filename s) (video_fps s) (total_duration s))) ;;
  play_loop (events s) 0 ;;
  emit (Show false) ;;
  when (video_requested s) (emit VideoAddFrame ;; emit VideoClose) ;;
  emit (Show true) ;;
  modify_self (fun a => set_bookingMode a true).

(** Equality of two positions, component by component. *)
Definition veq (u v : vec3) : Prop :=
  let '(a, b, c) := u in let '(x, y, z) := v in a == x /\ b == y /\ c == z.

(** The fraction of the way reached at the fraction [x] of the samples:
    [x] itself, or its cube when the style contains ["quad"]. *)
Definition ease (style : string) (x : Q) : Q :=
  if contains "quad" style then x * x * x else x.

(** The point at the fraction [f] of the way from [cpos] to [pt]. *)
Definition along (cpos pt : vec3) (f : Q) : vec3 :=
  vadd cpos (vscale (vsub pt cpos) f).

(** The sum of the angles of the recorded rotations. *)
Definition total_angle (l : list (string * Q)) : Q :=
  fold_right (fun p s => snd p + s) 0 l.

(** * [AnimationPlayer]

    The player is a [Plotter] with a play/pause button, two step buttons
    and a slider. Its own fields are a record; the calls it makes on the
    [Plotter] it extends and on the user's function are recorded in order.
    The methods raise nothing of their own, so they are functions from the
    player before the call to the player after it. The user's function is
    taken to return without calling back into the player; the id of a new
    timer is whatever the interactor answers. *)

Module AnimationPlayer.

Local Open Scope Z_scope.

(** [PLAY_SYMBOL] and [PAUSE_SYMBOL], the two states of the play/pause
    button. *)
Inductive symbol : Type := PLAY_SYMBOL | PAUSE_SYMBOL.

Inductive button : Type :=
| play_pause_button
| button_oneback
| button_oneforward.

(** The calls that leave the player. A created timer is recorded with the
    interval asked for and the id the interactor returned. *)
Inductive call : Type :=
| AddCallback
| AddButton (b : button)
| AddSlider (xmin xmax value : Z)
| TimerCreate (dt id : Z)
| TimerDestroy (id : Z)
| Func (value : Z)
| RemoveCallback
| SliderOff
| RemoveActor (b : button).

Record Player : Type := mkPlayer {
  value : Z;
  min_value : Z;
  max_value : Z;
  dt : Q;
  is_playing : bool;
  _loop : bool;
  timer_id : option Z;
  (** [play_pause_button.status], once the player has set it. *)
  button_status : option symbol;
  (** [slider.value]. *)
  slider_value : Q;
  calls : list call
}.

Definition set_value (p : Player) (v : Z) : Player :=
  mkPlayer v (min_value p) (max_value p) (dt p) (is_playing p) (_loop p)
    (timer_id p) (button_status p) (slider_value p) (calls p).
Definition set_is_playing (p : Player) (b : bool) : Player :=
  mkPlayer (value p) (min_value p) (max_value p) (dt p) b (_loop p)
    (timer_id p) (button_status p) (slider_value p) (calls p).
Definition set_timer_id (p : Player) (t : option Z) : Player :=
  mkPlayer (value p) (min_value p) (max_value p) (dt p) (is_playing p)
    (_loop p) t (button_status p) (slider_value p) (calls p).
Definition set_button_status (p : Player) (s : symbol) : Player :=
  mkPlayer (value p) (min_value p) (max_value p) (dt p) (is_playing p)
    (_loop p) (timer_id p) (Some s) (slider_value p) (calls p).
Definition set_slider_value (p : Player) (w : Q) : Player :=
  mkPlayer (value p) (min_value p) (max_value p) (dt p) (is_playing p)
    (_loop p) (timer_id p) (button_status p) w (calls p).
(** One more call made. *)
Definition log (p : Player) (c : call) : Player :=
  mkPlayer (value p) (min_value p) (max_value p) (dt p) (is_playing p)
    (_loop p) (timer_id p) (button_status p) (slider_value p)
    (calls p ++ [c]).

(** [max(a, b)] on floats: the first argument unless the second is
    greater. *)
Definition py_max (a b : Q) : Q := if Qgt_bool b a then b else a.

(** [round(x)] on a float: to the nearest integer, a half going to the
    even neighbour. *)
Definition py_round (x : Q) : Z :=
  let f := Qfloor x in
  let r := (x - inject_Z f)%Q in
  if Qgt_bool (1 # 2) r then f
  else if Qgt_bool r (1 # 2) then f + 1
  else if Z.even f then f else f + 1.

(** [irange] goes through [np.array(irange).astype(int)], which truncates;
    the slider is created over [min_value .. max_value - 1] at
    [min_value], while [value] starts one below. *)
Definition __init__ (irange : Q * Q) (dt : Q) (loop : bool) : Player :=
  let min_value := py_int (fst irange) in
  let max_value := py_int (snd irange) in
  mkPlayer (min_value - 1) min_value max_value (py_max dt 1) false loop
    None None (inject_Z min_value)
    [AddCallback; AddButton play_pause_button; AddButton button_oneback;
     AddButton button_oneforward;
     AddSlider min_value (max_value - 1) min_value].

Definition pause (p : Player) : Player :=
  let p := set_is_playing p false in
  let p := match timer_id p with
           | Some id => set_timer_id (log p (TimerDestroy id)) None
           | None => p
           end in
  set_button_status p PLAY_SYMBOL.

(** [create_timer] is the interactor: the id it returns for a new timer,
    given the calls made so far. *)
Definition resume (create_timer : list call -> Z) (p : Player) : Player :=
  let p := match timer_id p with
           | Some id => log p (TimerDestroy id)
           | None => p
           end in
  let id := create_timer (calls p) in
  let p := set_timer_id (log p (TimerCreate (py_int (dt p)) id)) (Some id) in
  let p := set_is_playing p true in
  set_button_status p PAUSE_SYMBOL.

Definition toggle (create_timer : list call -> Z) (p : Player) : Player :=
  if negb (is_playing p) then resume create_timer p else pause p.

Definition set_frame (v : Z) (p : Player) : Player :=
  let '(p, v) :=
    if _loop p then
      if v <? min_value p then (p, max_value p - 1)
      else if v >=? max_value p then (p, min_value p)
      else (p, v)
    else
      if v <? min_value p then (pause p, min_value p)
      else if v >=? max_value p - 1 then (pause p, max_value p - 1)
      else (p, v) in
  if negb (value p =? v) then
    log (set_slider_value (set_value p v) (inject_Z v)) (Func v)
  else p.

Definition oneforward (p : Player) : Player :=
  let p := pause p in set_frame (value p + 1) p.

Definition onebackward (p : Player) : Player :=
  let p := pause p in set_frame (value p - 1) p.

(** The widget handed to the callback is the player's own slider. *)
Definition _slider_callback (p : Player) : Player :=
  let p := pause p in set_frame (py_round (slider_value p)) p.

Definition _handle_timer (p : Player) : Player := set_frame (value p + 1) p.

Definition stop (p : Player) : Player :=
  let p := match timer_id p with
           | Some id => set_timer_id (log p (TimerDestroy id)) None
           | None => p
           end in
  let p := log p RemoveCallback in
  let p := log p SliderOff in
  let p := log p (RemoveActor play_pause_button) in
  let p := log p (RemoveActor button_oneback) in
  log p (RemoveActor button_oneforward).

(** ** Vocabulary of the statements about the player *)

(** What can happen to a running player: a button is pressed, the timer
    fires, the user drags the slider to [w], or the program calls a
    method. *)
Inductive op : Type :=
| press_play_pause
| press_oneback
| press_oneforward
| timer_fires
| slider_dragged (w : Q)
| call_set_frame (v : Z)
| call_pause
| call_resume.

Definition step (create_timer : list call -> Z) (o : op) (p : Player)
  : Player :=
  match o with
  | press_play_pause => toggle create_timer p
  | press_oneback => onebackward p
  | press_oneforward => oneforward p
  | timer_fires => _handle_timer p
  | slider_dragged w => _slider_callback (set_slider_value p w)
  | call_set_frame v => set_frame v p
  | call_pause => pause p
  | call_resume => resume create_timer p
  end.

Definition run (create_timer : list call -> Z) (ops : list op) (p : Player)
  : Player :=
  fold_left (fun p o => step create_timer o p) ops p.

(** The timer fires [n] times in a row. *)
Fixpoint ticks (n : nat) (p : Player) : Player :=
  match n with
  | O => p
  | S n => ticks n (_handle_timer p)
  end.

(** The current frame lies in the range of the slider. *)
Definition in_range (p : Player) : Prop :=
  min_value p <= value p <= max_value p - 1.

(** The frame [set_frame] settles on when asked for [v]. *)
Definition frame_for (p : Player) (v : Z) : Z :=
  if _loop p then
    if v <? min_value p then max_value p - 1
    else if v >=? max_value p then min_value p
    else v
  else
    if v <? min_value p then min_value p
    else if v >=? max_value p - 1 then max_value p - 1
    else v.

(** Whether [set_frame] pauses the player when asked for [v]. *)
Definition halts (p : Player) (v : Z) : bool :=
  negb (_loop p) && ((v <? min_value p) || (v >=? max_value p - 1)).

(** The frames handed to the user's function, in order. *)
Definition shown (l : list call) : list Z :=
  flat_map (fun c => match c with Func v => [v] | _ => [] end) l.

(** Reading the calls in order while tracking the timer that is alive:
    [None] once a timer is created while another is alive, or a timer is
    destroyed that is not the one alive. *)
Definition timer_step (cur : option (option Z)) (c : call)
  : option (option Z) :=
  match cur, c with
  | None, _ => None
  | Some None, TimerCreate _ id => Some (Some id)
  | Some (Some _), TimerCreate _ _ => None
  | Some (Some i), TimerDestroy j => if i =? j then Some None else None
  | Some None, TimerDestroy _ => None
  | Some cur, _ => Some cur
  end.

Definition timers (l : list call) : option (option Z) :=
  fold_left timer_step l (Some None).

(** The intervals of the timers created, in order. *)
Definition intervals (l : list call) : list Z :=
  flat_map (fun c => match c with TimerCreate d _ => [d] | _ => [] end) l.

End AnimationPlayer.

(** * Properties *)

(** ** What [_parse] computes *)

Lemma parse_returns (st : state) (objs : acts_arg) (t d : option Q)
    (objs2 : list obj) :
  objs2_of objs (_lastActs (self st)) = Some objs2 ->
  Qeq_bool (time_resolution (self st)) 0 = false ->
  (0 <= nsteps_of (self st) d + 1)%Z ->
  _parse objs t d st =
  (Returned (objs2, start_of (self st) t, duration_of (self st) d,
             samples_of (self st) t d),
   mkState (parsed (self st) t d objs2) (world st) (trace st)).
Proof.
  intros Hobjs Hres Hn.
  assert (Hlt : (nsteps_of (self st) d + 1 <? 0)%Z = false)
    by (apply Z.ltb_ge; exact Hn).
  unfold nsteps_of in Hlt.
  unfold _parse, bind, get_self.
  destruct objs as [| a | l]; simpl in Hobjs.
  - destruct (_lastActs (self st)) as [[| a l] |]; try discriminate.
    injection Hobjs as <-.
    unfold ret; simpl. rewrite Hres.
    unfold bind, lift, linspace. rewrite Hlt. reflexivity.
  - injection Hobjs as <-.
    unfold ret; simpl. rewrite Hres.
    unfold bind, lift, linspace. rewrite Hlt. reflexivity.
  - injection Hobjs as <-.
    unfold ret; simpl. rewrite Hres.
    unfold bind, lift, linspace. rewrite Hlt. reflexivity.
Qed.

(** ** Stepping through a method body *)

Lemma bind_ret_l {A B} (v : A) (k : A -> M B) (st : state) :
  bind (ret v) k st = k v st.
Proof. reflexivity. Qed.

Lemma bind_get_self {B} (k : Animation -> M B) (st : state) :
  bind get_self k st = k (self st) st.
Proof. reflexivity. Qed.

Lemma bind_get_props {B} (a : obj) (k : props -> M B) (st : state) :
  bind (get_props a) k st = k (world st a) st.
Proof. reflexivity. Qed.

Lemma bind_emit {B} (e : effect) (k : unit -> M B) (st : state) :
  bind (emit e) k st = k tt (mkState (self st) (world st) (trace st ++ [e])).
Proof. reflexivity. Qed.

Lemma bind_modify_self {B} (f : Animation -> Animation) (k : unit -> M B)
    (st : state) :
  bind (modify_self f) k st = k tt (mkState (f (self st)) (world st) (trace st)).
Proof. reflexivity. Qed.

Lemma bind_raise {A B} (e : exn) (k : A -> M B) (st : state) :
  bind (raise e) k st = (Raised e, st).
Proof. reflexivity. Qed.

Lemma bind_returned {A B} (m : M A) (k : A -> M B) (st st' : state) (v : A) :
  m st = (Returned v, st') -> bind m k st = k v st'.
Proof. intros H. unfold bind. rewrite H. reflexivity. Qed.

Lemma bind_raised {A B} (m : M A) (k : A -> M B) (st st' : state) (e : exn) :
  m st = (Raised e, st') -> bind m k st = (Raised e, st').
Proof. intros H. unfold bind. rewrite H. reflexivity. Qed.

Lemma bind_assoc {A B C} (m : M A) (k : A -> M B) (h : B -> M C) (st : state) :
  bind (bind m k) h st = bind m (fun x => bind (k x) h) st.
Proof. unfold bind. destruct (m st) as [[v | e] st']; reflexivity. Qed.

(** ** Loops that only append Events *)

Lemma set_events_id (a : Animation) : set_events a (events a) = a.
Proof. destruct a; reflexivity. Qed.

Lemma state_eta (st : state) : mkState (self st) (world st) (trace st) = st.
Proof. destruct st; reflexivity. Qed.

(** The state [st] with [new] appended to its Event list. *)
Lemma for_each_append {A} (f : A -> event) (l : list A) (st : state) :
  for_each l (fun x => append_event (f x)) st =
  (Returned tt,
   mkState (set_events (self st) (events (self st) ++ map f l))
           (world st) (trace st)).
Proof.
  revert st. induction l as [| x l IH]; intros st; simpl.
  - rewrite app_nil_r, set_events_id, state_eta. reflexivity.
  - unfold bind at 1. unfold append_event at 1. unfold modify_self.
    rewrite IH. simpl. rewrite <- app_assoc. reflexivity.
Qed.

Lemma for_enumerate_append {A} (f : nat -> A -> event) (l : list A) (i : nat)
    (st : state) :
  for_enumerate i l (fun j x => append_event (f j x)) st =
  (Returned tt,
   mkState (set_events (self st)
              (events (self st) ++ map (fun p => f (fst p) (snd p))
                                       (combine (seq i (List.length l)) l)))
           (world st) (trace st)).
Proof.
  revert i st. induction l as [| x l IH]; intros i st; simpl.
  - rewrite app_nil_r, set_events_id, state_eta. reflexivity.
  - unfold bind at 1. unfold append_event at 1. unfold modify_self.
    rewrite IH. simpl. rewrite <- app_assoc. reflexivity.
Qed.

(** ** Quantization *)

Lemma py_int_nonneg (x : Q) : 0 <= x -> py_int x = Qfloor x.
Proof.
  intros H. destruct x as [n d]. unfold py_int, Qfloor; simpl.
  apply Z.quot_div_nonneg; [| lia].
  unfold Qle in H; simpl in H. lia.
Qed.

Lemma Qdiv_nonneg (d res : Q) : 0 <= d -> 0 < res -> 0 <= d / res.
Proof.
  intros Hd Hres. unfold Qdiv. apply Qmult_le_0_compat; [exact Hd |].
  apply Qlt_le_weak, Qinv_lt_0_compat, Hres.
Qed.

Lemma quantize_round (d res : Q) :
  0 <= d -> 0 < res -> quantize d res = round_half_up (d / res).
Proof.
  intros Hd Hres. unfold quantize, round_half_up.
  apply py_int_nonneg.
  pose proof (Qdiv_nonneg d res Hd Hres). lra.
Qed.

Lemma quantize_nonneg (d res : Q) :
  0 <= d -> 0 < res -> (0 <= quantize d res)%Z.
Proof.
  intros Hd Hres. rewrite quantize_round by assumption.
  unfold round_half_up.
  pose proof (Qdiv_nonneg d res Hd Hres) as H.
  assert (H0 : (Qfloor 0 <= Qfloor (d / res + (1 # 2)))%Z)
    by (apply Qfloor_resp_le; lra).
  exact H0.
Qed.

Lemma Qeq_bool_pos (res : Q) : 0 < res -> Qeq_bool res 0 = false.
Proof.
  intros H. destruct (Qeq_bool res 0) eqn:E; [| reflexivity].
  apply Qeq_bool_iff in E. lra.
Qed.

Lemma with_events_nil (st : state) : with_events st [] = st.
Proof.
  unfold with_events. rewrite app_nil_r, set_events_id, state_eta. reflexivity.
Qed.

Lemma with_events_app (st : state) (l1 l2 : list event) :
  with_events (with_events st l1) l2 = with_events st (l1 ++ l2).
Proof. unfold with_events; simpl. rewrite <- app_assoc. reflexivity. Qed.

Lemma books_only_pass (P : event -> Prop) : books_only P pass.
Proof.
  intros st. exists []. rewrite with_events_nil. split; [reflexivity | constructor].
Qed.



Lemma books_only_for_enumerate {A} (P : event -> Prop)
    (body : nat -> A -> M unit) (l : list A) (i : nat) :
  (forall j x, books_only P (body j x)) ->
  books_only P (for_enumerate i l body).
Proof.
  intros Hbody. revert i. induction l as [| x l IH]; intros i; simpl.
  - apply (books_only_pass P).
  - intros st. destruct (Hbody i x st) as [n1 [E1 F1]].
    destruct (IH (S i) (with_events st n1)) as [n2 [E2 F2]].
    exists (n1 ++ n2). unfold bind. rewrite E1, E2, with_events_app.
    split; [reflexivity | apply Forall_app; split; assumption].
Qed.

(** ** Booking equations *)

(** After [_parse], [rotate] logs when the targets are not exactly one and
    books one Event per sample. *)
Lemma rotate_books (st st1 : state) (act : acts_arg) (axis : axis_val)
    (angle : Q) (t d : option Q) (acts : list obj) (tq dq : Q) (rng : list Q) :
  bookingMode (self st) = true ->
  _parse act t d st = (Returned (acts, tq, dq, rng), st1) ->
  rotate act axis angle t d st =
  (Returned tt,
   with_events
     (mkState (self st1) (world st1)
        (trace st1 ++
         if (List.length acts =? 1)%nat then []
         else [LogError "in rotate(), can move only one object."]))
     (rotate_events acts axis angle rng)).
Proof.
  intros Hb Hp. unfold rotate, bind at 1, get_self. rewrite Hb.
  unfold bind at 1. rewrite Hp. unfold bind at 1.
  destruct (List.length acts =? 1)%nat; simpl.
  - unfold ret. rewrite for_each_append. unfold with_events; simpl.
    rewrite app_nil_r. reflexivity.
  - unfold emit. rewrite for_each_append. reflexivity.
Qed.

(** ** Playback of [rotate] *)

Lemma rotate_playback_skip (st : state) (ax : axis_val) (ang : Q) :
  bookingMode (self st) = false ->
  _inputvalues (self st) = PRot ax ang ->
  axis_applies ax = false ->
  call_action rotate_m st = (Returned tt, st).
Proof.
  intros Hb Hv Hax. unfold axis_applies in Hax.
  apply orb_false_iff in Hax as [Hxy Hz].
  apply orb_false_iff in Hxy as [Hx Hy].
  unfold call_action, rotate, bind at 1, get_self. rewrite Hb, Hv.
  unfold bind, as_rot, ret. rewrite Hx, Hy, Hz. reflexivity.
Qed.

Lemma rotate_playback_apply (st : state) (name : string) (ang : Q)
    (a0 : obj) (rest : list obj) :
  bookingMode (self st) = false ->
  _inputvalues (self st) = PRot (AxisStr name) ang ->
  In name ["x"; "y"; "z"]%string ->
  _performers (self st) = a0 :: rest ->
  call_action rotate_m st =
  (Returned tt,
   mkState (self st) (upd (world st) a0 (add_rotation (world st a0) name ang))
           (trace st)).
Proof.
  intros Hb Hv Hn Hp.
  unfold call_action, rotate, bind at 1, get_self. rewrite Hb, Hv, Hp.
  simpl in Hn. destruct Hn as [<- | [<- | [<- | []]]]; reflexivity.
Qed.

(** C9: a [rotate] declaration books, for every sample, an Event whose
    payload is the pair of the axis and the angle divided by the number of
    samples; played back, such an Event rotates its first target about the
    stored axis when that axis is the string "x", "y" or "z", and leaves
    the whole state untouched for any other axis value, the default tuple
    (1, 0, 0) among them. *)
Theorem rotate_payload_and_playback (st st1 : state) (act : acts_arg)
    (axis : axis_val) (angle : Q) (t d : option Q) (acts : list obj)
    (tq dq : Q) (rng : list Q) :
  bookingMode (self st) = true ->
  _parse act t d st = (Returned (acts, tq, dq, rng), st1) ->
  let r := rotate act axis angle t d st in
  fst r = Returned tt /\
  events (self (snd r)) =
    events (self st1) ++
    map (fun tt => mkEvent tt rotate_m acts (PRot axis (angle / len_Q rng)))
        rng /\
  axis_applies default_axis = false /\
  forall (e : event) (stp : state),
    In e (rotate_events acts axis angle rng) ->
    bookingMode (self stp) = false ->
    _performers (self stp) = ev_acts e ->
    _inputvalues (self stp) = ev_payload e ->
    (axis_applies axis = false ->
     call_action (ev_action e) stp = (Returned tt, stp)) /\
    (forall name a0 rest,
       axis = AxisStr name -> In name ["x"; "y"; "z"]%string ->
       acts = a0 :: rest ->
       call_action (ev_action e) stp =
       (Returned tt,
        mkState (self stp)
          (upd (world stp) a0
               (add_rotation (world stp a0) name (angle / len_Q rng)))
          (trace stp))).
Proof.
  intros Hb Hp r. subst r. rewrite (rotate_books _ _ _ _ _ _ _ _ _ _ _ Hb Hp).
  split; [reflexivity |]. split; [reflexivity |]. split; [reflexivity |].
  intros e stp He Hbp Hperf Hval.
  unfold rotate_events in He. apply in_map_iff in He as [tt' [<- _]].
  simpl in *. split.
  - intros Hax. eapply rotate_playback_skip; eauto.
  - intros name a0 rest -> Hn ->.
    eapply rotate_playback_apply; eauto.
Qed.

Lemma rotate_payload_and_playback_witness :
  let st := fresh (init None 1 true "animation.mp4" 12) in
  let r := rotate (ActsOne 1%nat) default_axis 90 (Some 0) (Some 2) st in
  fst r = Returned tt /\ List.length (events (self (snd r))) = 3%nat.
Proof.
  intros st r.
  assert (Hb : bookingMode (self st) = true) by reflexivity.
  assert (Hp : _parse (ActsOne 1%nat) (Some 0) (Some 2) st =
               (Returned ([1%nat], start_of (self st) (Some 0),
                          duration_of (self st) (Some 2),
                          samples_of (self st) (Some 0) (Some 2)),
                mkState (parsed (self st) (Some 0) (Some 2) [1%nat])
                        (world st) (trace st)))
    by reflexivity.
  destruct (rotate_payload_and_playback _ _ _ default_axis 90 _ _ _ _ _ _ Hb Hp)
    as [H1 [H2 _]].
  split; [exact H1 |]. fold r in H2. rewrite H2. reflexivity.
Defined.

Lemma for_enumerate_ext {A} (b1 b2 : nat -> A -> M unit) (l : list A) (i : nat) :
  (forall j x, b1 j x = b2 j x) -> for_enumerate i l b1 = for_enumerate i l b2.
Proof.
  intros H. revert i. induction l as [| x l IH]; intros i; simpl.
  - reflexivity.
  - rewrite H, IH. reflexivity.
Qed.

(** After [_parse], [move] logs when the targets are not exactly one, reads
    the position of the first target and books one Event per sample. *)
Lemma move_books (st st1 : state) (act : acts_arg) (pt : vec3)
    (style : string) (t d : option Q) (a0 : obj) (rest : list obj)
    (tq dq : Q) (rng : list Q) :
  bookingMode (self st) = true ->
  _parse act t d st = (Returned (a0 :: rest, tq, dq, rng), st1) ->
  move act pt t d style st =
  (Returned tt,
   with_events
     (mkState (self st1) (world st1)
        (trace st1 ++
         if (List.length (a0 :: rest) =? 1)%nat then []
         else [LogError "in move(), can move only one object."]))
     (move_events (a0 :: rest) (pos (world st1 a0)) pt style rng)).
Proof.
  intros Hb Hp. unfold move, bind at 1, get_self. rewrite Hb.
  unfold bind at 1. rewrite Hp. unfold bind at 1.
  assert (Hbody : forall (w : scene) (tr : list effect),
            for_enumerate 0 rng (fun j tt =>
              let i := inject_Z (Z.of_nat (j + 1)) in
              if contains "quad" style then
                let x := i / len_Q rng in
                let y := x * x in
                append_event
                  (mkEvent tt move_m (a0 :: rest)
                     (PPos (vadd (pos (w a0))
                        (vscale (vscale (vdiv (vsub pt (pos (w a0)))
                                              (len_Q rng)) i) y))))
              else
                append_event
                  (mkEvent tt move_m (a0 :: rest)
                     (PPos (vadd (pos (w a0))
                        (vscale (vdiv (vsub pt (pos (w a0))) (len_Q rng)) i)))))
              (mkState (self st1) w tr) =
            (Returned tt,
             with_events (mkState (self st1) w tr)
               (move_events (a0 :: rest) (pos (w a0)) pt style rng))).
  { intros w tr.
    rewrite (for_enumerate_ext _ (fun j tt =>
              append_event (move_event (a0 :: rest) (pos (w a0)) pt
                                       (len_Q rng) style j tt))).
    - rewrite for_enumerate_append. reflexivity.
    - intros j x. unfold move_event.
      destruct (contains "quad" style); reflexivity. }
  clear Hp. destruct st1 as [a1 w1 tr1].
  destruct (List.length (a0 :: rest) =? 1)%nat; simpl.
  - unfold ret, bind, index, get_props; simpl. unfold ret.
    rewrite app_nil_r. apply Hbody.
  - unfold emit, bind, index, get_props; simpl. unfold ret.
    apply Hbody.
Qed.

Lemma index_in_range {A} (l : list A) (i : nat) :
  (i < List.length l)%nat -> exists v, index l i = ret v.
Proof.
  intros H. unfold index. destruct (nth_error l i) as [v |] eqn:E.
  - exists v. reflexivity.
  - apply nth_error_None in E. lia.
Qed.

Lemma py_index_in_range {A} (l : list A) (i : Z) :
  (- Z.of_nat (List.length l) <= i < Z.of_nat (List.length l))%Z ->
  exists v, py_index l i = ret v.
Proof.
  intros H. unfold py_index. destruct (0 <=? i)%Z eqn:E.
  - apply Z.leb_le in E. apply index_in_range. lia.
  - apply Z.leb_gt in E.
    assert (E' : (0 <=? Z.of_nat (List.length l) + i)%Z = true)
      by (apply Z.leb_le; lia).
    rewrite E'. apply index_in_range. lia.
Qed.



(** ** Declarations with explicit arguments *)

Lemma samples_of_length (a : Animation) (t d : option Q) :
  List.length (samples_of a t d) = Z.to_nat (nsteps_of a d + 1).
Proof. unfold samples_of. rewrite length_map, length_seq. reflexivity. Qed.

(** With a positive resolution and a non-negative duration, [_parse] on
    explicit arguments returns. *)
Lemma parse_explicit (st : state) (objs : acts_arg) (objs2 : list obj)
    (t : option Q) (d : Q) :
  objs2_of objs (_lastActs (self st)) = Some objs2 ->
  0 < time_resolution (self st) -> 0 <= d ->
  _parse objs t (Some d) st =
  (Returned (objs2, start_of (self st) t, duration_of (self st) (Some d),
             samples_of (self st) t (Some d)),
   mkState (parsed (self st) t (Some d) objs2) (world st) (trace st)).
Proof.
  intros Ho Hres Hd. apply parse_returns.
  - exact Ho.
  - apply Qeq_bool_pos, Hres.
  - unfold nsteps_of; simpl.
    pose proof (quantize_nonneg d _ Hd Hres). lia.
Qed.







(** ** [change_lighting] with an unknown style *)

Lemma samples_of_nonempty (a : Animation) (t : option Q) (d : Q) :
  0 < time_resolution a -> 0 <= d -> samples_of a t (Some d) <> [].
Proof.
  intros Hres Hd E. apply (f_equal (@List.length Q)) in E.
  rewrite samples_of_length in E. unfold nsteps_of in E; simpl in E.
  pose proof (quantize_nonneg d _ Hd Hres). lia.
Qed.

(** C6 (what the code does): with a style outside the five known ones and
    at least one target, [change_lighting] logs the error and then raises
    [UnboundLocalError] at the first use of the parameter set; no Event is
    booked. *)
Theorem unknown_lighting_style_raises (st : state) (style : string)
    (objs : acts_arg) (a0 : obj) (rest : list obj) (t d : Q) :
  bookingMode (self st) = true ->
  0 < time_resolution (self st) -> 0 <= d ->
  objs2_of objs (_lastActs (self st)) = Some (a0 :: rest) ->
  lighting_pars style = None ->
  let r := change_lighting style objs (Some t) (Some d) st in
  fst r = Raised UnboundLocalError /\
  events (self (snd r)) = events (self st) /\
  trace (snd r)
  = trace st ++ [LogError (String.append "Unknown lighting style " style)].
Proof.
  intros Hb Hres Hd Ho Hpars r. subst r.
  pose proof (parse_explicit st objs (a0 :: rest) (Some t) d Ho Hres Hd) as Hp.
  pose proof (samples_of_nonempty (self st) (Some t) d Hres Hd) as Hne.
  assert (E : change_lighting style objs (Some t) (Some d) st =
              (Raised UnboundLocalError,
               mkState (parsed (self st) (Some t) (Some d) (a0 :: rest))
                 (world st)
                 (trace st ++
                  [LogError (String.append "Unknown lighting style " style)]))).
  { unfold change_lighting. rewrite bind_get_self, Hb.
    unfold bind at 1. rewrite Hp. cbv beta iota. rewrite Hpars.
    rewrite bind_emit.
    destruct (samples_of (self st) (Some t) (Some d)) as [| x rng];
      [contradiction |].
    reflexivity. }
  rewrite E. repeat split.
Qed.

Lemma unknown_lighting_style_raises_witness :
  let st := fresh (init None 1 true "animation.mp4" 12) in
  fst (change_lighting "matte" (ActsOne 1%nat) (Some 0) (Some 2) st)
  = Raised UnboundLocalError.
Proof.
  intros st.
  assert (Hres : 0 < time_resolution (self st)) by reflexivity.
  assert (Hd : 0 <= 2) by discriminate.
  exact (proj1 (unknown_lighting_style_raises st "matte" (ActsOne 1%nat)
                  1%nat [] 0 2 eq_refl Hres Hd eq_refl eq_refl)).
Defined.

(** ** [play] without Events *)

(** C1 (what the code does): with no Event booked and [total_duration]
    left at [None], as [Animation()] leaves it, [play] raises [IndexError]
    at [self.events[-1]]: before any frame is shown and before the video is
    opened. *)
Theorem play_without_events_raises (st : state) :
  events (self st) = [] ->
  total_duration (self st) = None ->
  fst (play st) = Raised IndexError /\
  trace (snd (play st))
  = trace st ++ (if show_progressbar (self st) then [ProgressBarNew 0] else []).
Proof.
  destruct st as [a w tr]. destruct a; simpl. intros -> ->.
  unfold play.
  rewrite !bind_modify_self, bind_get_self. cbn [self show_progressbar set_bookingMode set_events events].
  destruct show_progressbar0; cbn [when].
  - rewrite bind_emit. split; reflexivity.
  - rewrite bind_ret_l. split; [reflexivity |].
    cbn. rewrite app_nil_r. reflexivity.
Qed.

Lemma play_without_events_raises_witness :
  fst (play (fresh default_animation)) = Raised IndexError.
Proof.
  exact (proj1 (play_without_events_raises (fresh default_animation)
                  eq_refl eq_refl)).
Defined.

(** With [total_duration] configured, the same run returns: one frame is
    shown and, when a video is requested, added to it before it is closed;
    then the interactive window is shown. *)
Lemma play_without_events_configured (st : state) (d : Q) :
  events (self st) = [] ->
  total_duration (self st) = Some d ->
  fst (play st) = Returned tt /\
  trace (snd (play st))
  = trace st
    ++ (if show_progressbar (self st) then [ProgressBarNew 0] else [])
    ++ (if video_requested (self st)
        then [VideoOpen (video_filename (self st)) (video_fps (self st))
                        (Some d)]
        else [])
    ++ [Show false]
    ++ (if video_requested (self st) then [VideoAddFrame; VideoClose] else [])
    ++ [Show true].
Proof.
  destruct st as [a w tr]. destruct a; simpl. intros -> ->.
  unfold video_requested; cbn [video_filename video_fps].
  destruct show_progressbar0, (String.eqb video_filename0 "") eqn:E;
    lazy -[app String.eqb]; rewrite E; lazy -[app];
    (split; [reflexivity |]); rewrite <- ?app_assoc; reflexivity.
Qed.

(** ** Loop invariants *)

Lemma for_each_inv {A} (I : state -> Prop) (body : A -> M unit) (l : list A) :
  (forall x st, I st -> I (snd (body x st))) ->
  forall st, I st -> I (snd (for_each l body st)).
Proof.
  intros Hbody. induction l as [| x l IH]; intros st Hst; simpl.
  - exact Hst.
  - unfold bind. pose proof (Hbody x st Hst) as H1.
    destruct (body x st) as [[[] | e] st1]; simpl in H1.
    + apply IH, H1.
    + exact H1.
Qed.

Lemma for_enumerate_inv {A} (I : state -> Prop) (body : nat -> A -> M unit)
    (l : list A) :
  (forall i x st, I st -> I (snd (body i x st))) ->
  forall i st, I st -> I (snd (for_enumerate i l body st)).
Proof.
  intros Hbody. induction l as [| x l IH]; intros i st Hst; simpl.
  - exact Hst.
  - unfold bind. pose proof (Hbody i x st Hst) as H1.
    destruct (body i x st) as [[[] | e] st1]; simpl in H1.
    + apply IH, H1.
    + exact H1.
Qed.

(** ** Playback of the alpha fades *)

Lemma one_way_refl (below : Q -> Q -> Prop) (p : payload) (w : scene) :
  one_way below p w w.
Proof. intros o. left. reflexivity. Qed.

Lemma alpha_set_alpha (p : props) (v : Q) : alpha (set_alpha p v) = v.
Proof. reflexivity. Qed.

(** One more target brought to [v], from a scene already related to the
    initial one. *)
Lemma one_way_step (below : Q -> Q -> Prop) (v : Q) (w w1 : scene) (a : obj) :
  (forall x, ~ below x x) ->
  one_way below (PScalar v) w w1 ->
  below (alpha (w1 a)) v ->
  one_way below (PScalar v) w (upd w1 a (set_alpha (w1 a) v)).
Proof.
  intros Hirr H1 Hlt o. unfold upd. destruct (Nat.eqb o a) eqn:E.
  - apply Nat.eqb_eq in E. subst o.
    destruct (H1 a) as [Heq | [v' [Hv [_ Heq]]]].
    + right. exists v. rewrite Heq in *. auto.
    + injection Hv as <-. rewrite Heq, alpha_set_alpha in Hlt.
      exfalso. exact (Hirr _ Hlt).
  - apply H1.
Qed.

Lemma Qge_bool_false (x v : Q) : Qge_bool x v = false -> x < v.
Proof.
  unfold Qge_bool. intros H. apply Qnot_le_lt. intros Hle.
  apply Qle_bool_iff in Hle. congruence.
Qed.

Lemma Qle_bool_false (x v : Q) : Qle_bool x v = false -> v < x.
Proof.
  intros H. apply Qnot_le_lt. intros Hle.
  apply Qle_bool_iff in Hle. congruence.
Qed.

Lemma fade_in_playback (st : state) (acts : acts_arg) (t d : option Q) :
  bookingMode (self st) = false ->
  one_way Qlt (_inputvalues (self st)) (world st)
          (world (snd (fade_in acts t d st))).
Proof.
  intros Hb. unfold fade_in. rewrite bind_get_self, Hb.
  apply (for_each_inv
           (fun s => one_way Qlt (_inputvalues (self st)) (world st) (world s))).
  2: apply one_way_refl.
  intros a s Hs. rewrite bind_get_props.
  destruct (has_alpha (world s a)); [| exact Hs].
  destruct (_inputvalues (self st)) as [| v | | | | | | | |]; try exact Hs.
  simpl as_scalar. rewrite bind_ret_l.
  destruct (Qge_bool (alpha (world s a)) v) eqn:E; [exact Hs |].
  simpl. apply one_way_step; [apply Qlt_irrefl | exact Hs |].
  apply Qge_bool_false, E.
Qed.

Lemma fade_out_playback (st : state) (acts : acts_arg) (t d : option Q) :
  bookingMode (self st) = false ->
  one_way (fun x v => v < x) (_inputvalues (self st)) (world st)
          (world (snd (fade_out acts t d st))).
Proof.
  intros Hb. unfold fade_out. rewrite bind_get_self, Hb.
  apply (for_each_inv
           (fun s => one_way (fun x v => v < x) (_inputvalues (self st))
                             (world st) (world s))).
  2: apply one_way_refl.
  intros a s Hs. rewrite bind_get_props.
  destruct (has_alpha (world s a)); [| exact Hs].
  destruct (_inputvalues (self st)) as [| v | | | | | | | |]; try exact Hs.
  simpl as_scalar. rewrite bind_ret_l.
  destruct (Qle_bool (alpha (world s a)) v) eqn:E; [exact Hs |].
  simpl. apply one_way_step; [intros x; apply Qlt_irrefl | exact Hs |].
  apply Qle_bool_false, E.
Qed.

(** After [_parse], [change_alpha_between] books one Event per sample, each
    with [fade_out] as its action. *)
Lemma change_alpha_between_books (st st1 : state) (alpha1 alpha2 : Q)
    (act : acts_arg) (t d : option Q) (acts : list obj) (tq dq : Q)
    (rng : list Q) :
  bookingMode (self st) = true ->
  _parse act t d st = (Returned (acts, tq, dq, rng), st1) ->
  change_alpha_between alpha1 alpha2 act t d st =
  (Returned tt,
   with_events st1 (alpha_between_events acts alpha1 alpha2 tq dq rng)).
Proof.
  intros Hb Hp. unfold change_alpha_between. rewrite bind_get_self, Hb.
  unfold bind. rewrite Hp. rewrite for_each_append. reflexivity.
Qed.

(** ** Playback touches the scene only *)

Lemma scene_only_ret {A} (v : A) : scene_only (ret v).
Proof. intros st. split; reflexivity. Qed.

Lemma scene_only_raise {A} (e : exn) : scene_only (@raise A e).
Proof. intros st. split; reflexivity. Qed.

Lemma scene_only_get_props (a : obj) : scene_only (get_props a).
Proof. intros st. split; reflexivity. Qed.

Lemma scene_only_modify_props (a : obj) (f : props -> props) :
  scene_only (modify_props a f).
Proof. intros st. split; reflexivity. Qed.

Lemma scene_only_bind {A B} (m : M A) (k : A -> M B) :
  scene_only m -> (forall v, scene_only (k v)) -> scene_only (bind m k).
Proof.
  intros Hm Hk st. unfold bind. specialize (Hm st).
  destruct (m st) as [[v | e] st1]; simpl in Hm.
  - destruct (Hk v st1) as [H1 H2]. destruct Hm as [H3 H4].
    split; congruence.
  - exact Hm.
Qed.

Lemma scene_only_index {A} (l : list A) (i : nat) : scene_only (index l i).
Proof.
  unfold index. destruct (nth_error l i);
    [apply scene_only_ret | apply scene_only_raise].
Qed.

Lemma scene_only_for_each {A} (body : A -> M unit) (l : list A) :
  (forall x, scene_only (body x)) -> scene_only (for_each l body).
Proof.
  intros H. induction l as [| x l IH]; simpl.
  - apply scene_only_ret.
  - apply scene_only_bind; [apply H | intros _; exact IH].
Qed.

Lemma scene_only_for_enumerate {A} (body : nat -> A -> M unit) (l : list A)
    (i : nat) :
  (forall j x, scene_only (body j x)) -> scene_only (for_enumerate i l body).
Proof.
  intros H. revert i. induction l as [| x l IH]; intros i; simpl.
  - apply scene_only_ret.
  - apply scene_only_bind; [apply H | intros _; apply IH].
Qed.

(** Decompose a playback body down to the primitive steps. *)
Ltac scene_only_step :=
  first
    [ apply scene_only_ret
    | apply scene_only_raise
    | apply scene_only_get_props
    | apply scene_only_modify_props
    | apply scene_only_index
    | apply scene_only_for_each; intros
    | apply scene_only_for_enumerate; intros
    | apply scene_only_bind; [| intros]
    | match goal with
      | |- scene_only (match ?p with _ => _ end) => destruct p
      | |- scene_only (as_scalar ?p) => destruct p
      | |- scene_only (as_bool ?p) => destruct p
      | |- scene_only (as_colors ?p) => destruct p
      | |- scene_only (as_backcolors ?p) => destruct p
      | |- scene_only (as_widths ?p) => destruct p
      | |- scene_only (as_lighting ?p) => destruct p
      | |- scene_only (as_pos ?p) => destruct p
      | |- scene_only (as_rot ?p) => destruct p
      end ].

(** In playback mode a stored action leaves the instance and the trace as
    they are. *)
Lemma call_action_playback (a : action) (st : state) :
  bookingMode (self st) = false ->
  self (snd (call_action a st)) = self st /\
  trace (snd (call_action a st)) = trace st.
Proof.
  intros Hb.
  destruct a; unfold call_action;
    unfold fade_in, fade_out, change_alpha_between, change_color,
      change_backcolor, change_to_wireframe, change_to_surface,
      change_line_width, change_line_color, change_lighting, move, rotate,
      scale, mesh_erode;
    rewrite bind_get_self, Hb;
    match goal with
    | |- self (snd (?m st)) = _ /\ _ =>
      let H := fresh in
      assert (H : scene_only m) by (repeat scene_only_step); exact (H st)
    end.
Qed.

(** ** The playback loop, one Event at a time *)

Lemma emits_only_emit (P : effect -> Prop) (e : effect) :
  P e -> emits_only P (emit e).
Proof.
  intros H st. exists [e]. split; [reflexivity | repeat constructor; exact H].
Qed.

Lemma emits_only_ret (P : effect -> Prop) : emits_only P (ret tt).
Proof.
  intros st. exists []. rewrite app_nil_r, state_eta.
  split; [reflexivity | constructor].
Qed.

Lemma emits_only_when (P : effect -> Prop) (b : bool) (m : M unit) :
  emits_only P m -> emits_only P (when b m).
Proof. intros H. destruct b; [exact H | apply emits_only_ret]. Qed.

Lemma emits_only_seq (P : effect -> Prop) (m k : M unit) :
  emits_only P m -> emits_only P k -> emits_only P (m ;; k).
Proof.
  intros Hm Hk st. destruct (Hm st) as [l1 [E1 F1]].
  destruct (Hk (mkState (self st) (world st) (trace st ++ l1)))
    as [l2 [E2 F2]].
  exists (l1 ++ l2). unfold bind. rewrite E1, E2. simpl.
  rewrite app_assoc. split; [reflexivity | apply Forall_app; split; assumption].
Qed.

(** One turn of the loop: the action is called on the Event's targets and
    payload; if it raises, so does the loop; otherwise some loop effects are
    added and the loop goes on with the remaining Events. *)
Lemma play_loop_cons (e : event) (rest : list event) (tl : Q) (st : state) :
  match call_action (ev_action e) (at_event st e) with
  | (Raised x, st2) => play_loop (e :: rest) tl st = (Raised x, st2)
  | (Returned _, st2) =>
    exists l, Forall loop_effect l /\
      play_loop (e :: rest) tl st =
      play_loop rest (ev_time e)
                (mkState (self st2) (world st2) (trace st2 ++ l))
  end.
Proof.
  destruct (call_action (ev_action e) (at_event st e))
    as [[[] | x] st2] eqn:Ecall;
    simpl play_loop; rewrite bind_modify_self; fold (at_event st e);
    unfold bind at 1; rewrite Ecall; [| reflexivity].
  rewrite bind_get_self.
  set (s := self st2).
  set (frame := when (Qgt_bool (ev_time e - tl) (eps s)) _).
  set (report := when (show_progressbar s) _).
  assert (Hf : emits_only loop_effect frame).
  { unfold frame. apply emits_only_when.
    apply emits_only_seq; [apply emits_only_emit; exact I |].
    apply emits_only_seq.
    - apply emits_only_when, emits_only_emit. exact I.
    - apply emits_only_when, emits_only_when, emits_only_emit. exact I. }
  assert (Hr : emits_only loop_effect report).
  { unfold report. apply emits_only_when, emits_only_emit. exact I. }
  destruct (Hf st2) as [l1 [E1 F1]].
  destruct (Hr (mkState (self st2) (world st2) (trace st2 ++ l1)))
    as [l2 [E2 F2]].
  exists (l1 ++ l2). split; [apply Forall_app; split; assumption |].
  unfold bind. rewrite E1, E2. simpl. rewrite app_assoc. reflexivity.
Qed.

Lemma at_event_bookingMode (st : state) (e : event) :
  bookingMode (self (at_event st e)) = bookingMode (self st).
Proof. reflexivity. Qed.

(** The loop adds loop effects only, and leaves playback mode on. *)
Lemma play_loop_trace (evs : list event) (tl : Q) (st : state) :
  bookingMode (self st) = false ->
  bookingMode (self (snd (play_loop evs tl st))) = false /\
  exists mid,
    trace (snd (play_loop evs tl st)) = trace st ++ mid /\
    Forall loop_effect mid.
Proof.
  revert tl st. induction evs as [| e rest IH]; intros tl st Hb.
  - simpl. split; [exact Hb |]. exists []. rewrite app_nil_r.
    split; [reflexivity | constructor].
  - pose proof (play_loop_cons e rest tl st) as Hstep.
    pose proof (call_action_playback (ev_action e) (at_event st e) Hb)
      as [Hself Htrace].
    destruct (call_action (ev_action e) (at_event st e)) as [[[] | x] st2];
      simpl in Hself, Htrace.
    + destruct Hstep as [l [Fl ->]].
      destruct (IH (ev_time e)
                   (mkState (self st2) (world st2) (trace st2 ++ l)))
        as [Hb' [mid [Hmid Fmid]]].
      { simpl. rewrite Hself. exact Hb. }
      split; [exact Hb' |].
      exists (l ++ mid). rewrite Hmid. simpl. rewrite Htrace. simpl.
      rewrite app_assoc. split; [reflexivity |].
      apply Forall_app; split; assumption.
    + rewrite Hstep. simpl. rewrite Hself, Htrace. simpl.
      split; [exact Hb |]. exists []. rewrite app_nil_r.
      split; [reflexivity | constructor].
Qed.

(** Replaying Events whose action is [fade_out] never raises an alpha. *)
Lemma play_loop_fade_out (evs : list event) (tl : Q) (st : state) (o : obj) :
  bookingMode (self st) = false ->
  Forall (fun e => ev_action e = fade_out_m) evs ->
  alpha (world (snd (play_loop evs tl st)) o) <= alpha (world st o).
Proof.
  revert tl st. induction evs as [| e rest IH]; intros tl st Hb Hall.
  - simpl. apply Qle_refl.
  - inversion Hall as [| e' rest' He Hrest]; subst.
    pose proof (play_loop_cons e rest tl st) as Hstep.
    pose proof (call_action_playback (ev_action e) (at_event st e) Hb)
      as [Hself _].
    assert (Hone : alpha (world (snd (call_action (ev_action e)
                                        (at_event st e))) o)
                   <= alpha (world st o)).
    { rewrite He. unfold call_action.
      destruct (fade_out_playback (at_event st e) (ActsOne 0%nat) (Some 0) None
                  Hb o) as [-> | [v [_ [Hlt ->]]]].
      - apply Qle_refl.
      - rewrite alpha_set_alpha. apply Qlt_le_weak. exact Hlt. }
    destruct (call_action (ev_action e) (at_event st e)) as [[[] | x] st2];
      simpl in Hself, Hone.
    + destruct Hstep as [l [_ ->]].
      eapply Qle_trans; [apply IH | exact Hone]; [| exact Hrest].
      simpl. rewrite Hself. exact Hb.
    + rewrite Hstep. exact Hone.
Qed.

Lemma alpha_between_events_action (acts : list obj) (alpha1 alpha2 tq dq : Q)
    (rng : list Q) :
  Forall (fun e => ev_action e = fade_out_m)
         (alpha_between_events acts alpha1 alpha2 tq dq rng).
Proof.
  unfold alpha_between_events. apply Forall_forall. intros e He.
  apply in_map_iff in He as [x [<- _]]. reflexivity.
Qed.

(** C10: in playback, [fade_in] changes the alpha of a target only when it
    is strictly below the payload, so no alpha goes down; [fade_out] only
    when it is strictly above, so no alpha goes up; [change_alpha_between]
    books its Events with [fade_out] as their action, and replaying Events
    with that action never raises an alpha. *)
Theorem alpha_fades_one_way (st : state) :
  bookingMode (self st) = false ->
  (forall acts t d,
     let w' := world (snd (fade_in acts t d st)) in
     one_way Qlt (_inputvalues (self st)) (world st) w' /\
     forall o, alpha (world st o) <= alpha (w' o)) /\
  (forall acts t d,
     let w' := world (snd (fade_out acts t d st)) in
     one_way (fun x v => v < x) (_inputvalues (self st)) (world st) w' /\
     forall o, alpha (w' o) <= alpha (world st o)) /\
  (forall stb st1 alpha1 alpha2 act t d acts tq dq rng,
     bookingMode (self stb) = true ->
     _parse act t d stb = (Returned (acts, tq, dq, rng), st1) ->
     change_alpha_between alpha1 alpha2 act t d stb =
     (Returned tt,
      with_events st1 (alpha_between_events acts alpha1 alpha2 tq dq rng)) /\
     Forall (fun e => ev_action e = fade_out_m)
            (alpha_between_events acts alpha1 alpha2 tq dq rng)) /\
  (forall evs tl o,
     Forall (fun e => ev_action e = fade_out_m) evs ->
     alpha (world (snd (play_loop evs tl st)) o) <= alpha (world st o)).
Proof.
  intros Hb. repeat split.
  - apply fade_in_playback, Hb.
  - intros o. destruct (fade_in_playback st acts t d Hb o)
      as [-> | [v [_ [Hlt ->]]]].
    + apply Qle_refl.
    + rewrite alpha_set_alpha. apply Qlt_le_weak, Hlt.
  - apply fade_out_playback, Hb.
  - intros o. destruct (fade_out_playback st acts t d Hb o)
      as [-> | [v [_ [Hlt ->]]]].
    + apply Qle_refl.
    + rewrite alpha_set_alpha. apply Qlt_le_weak, Hlt.
  - apply change_alpha_between_books; assumption.
  - apply alpha_between_events_action.
  - intros evs tl o Hall. apply play_loop_fade_out; assumption.
Qed.

(** A run of the theorem: an increase from 0.2 to 0.8 asked of
    [change_alpha_between] for an object of alpha 1 books three [fade_out]
    Events, and replaying them leaves the alpha at 0.2. *)
Lemma alpha_fades_one_way_witness :
  let booked :=
    snd (change_alpha_between (2 # 10) (8 # 10) (ActsOne 1%nat)
           (Some 0) (Some 2) (fresh (init None 1 true "animation.mp4" 12))) in
  let st := mkState (set_bookingMode (self booked) false) plain_scene [] in
  map ev_action (events (self st)) = [fade_out_m; fade_out_m; fade_out_m] /\
  alpha (world (snd (play_loop (events (self st)) 0 st)) 1%nat)
  <= alpha (world st 1%nat) /\
  Qeq_bool (alpha (world (snd (play_loop (events (self st)) 0 st)) 1%nat))
           (2 # 10) = true.
Proof.
  intros booked st.
  assert (Hb : bookingMode (self st) = false) by reflexivity.
  destruct (alpha_fades_one_way st Hb) as [_ [_ [_ Hplay]]].
  split; [reflexivity |]. split.
  - apply Hplay. vm_compute. repeat constructor.
  - vm_compute. reflexivity.
Defined.

(** ** The video writer across [play] *)

(** The part of [play] from the opening of the video on, run on the
    instance [s] read just before it. *)
Lemma play_tail_trace (st : state) :
  bookingMode (self st) = false ->
  video_requested (self st) = true ->
  let s := self st in
  let m :=
    when (video_requested s)
      (emit (VideoOpen (video_filename s) (video_fps s) (total_duration s))) ;;
    play_loop (events s) 0 ;;
    emit (Show false) ;;
    when (video_requested s) (emit VideoAddFrame ;; emit VideoClose) ;;
    emit (Show true) ;;
    modify_self (fun a => set_bookingMode a true) in
  fst (m st) = Returned tt ->
  exists mid,
    trace (snd (m st)) =
    trace st
    ++ [VideoOpen (video_filename s) (video_fps s) (total_duration s)]
    ++ mid ++ [Show false; VideoAddFrame; VideoClose; Show true] /\
    Forall loop_effect mid.
Proof.
  intros Hb Hv s m. subst m s. rewrite Hv. cbn [when].
  rewrite bind_emit.
  set (st1 := mkState (self st) (world st) (trace st ++ _)).
  destruct (play_loop_trace (events (self st)) 0 st1 Hb)
    as [_ [mid [Hmid Fmid]]].
  destruct (play_loop (events (self st)) 0 st1) as [[[] | x] st2] eqn:Eloop;
    simpl in Hmid.
  - rewrite (bind_returned _ _ _ _ _ Eloop).
    intros _. exists mid. split; [| exact Fmid].
    rewrite bind_emit, bind_assoc, !bind_emit.
    cbn [modify_self snd self world trace]. rewrite Hmid. unfold st1; simpl.
    rewrite <- !app_assoc. reflexivity.
  - rewrite (bind_raised _ _ _ _ _ Eloop). simpl. discriminate.
Qed.

Lemma py_index_last_cons {A} (x : A) (l : list A) :
  exists v, py_index (x :: l) (-1) = ret v.
Proof. apply py_index_in_range. simpl List.length. lia. Qed.

(** C7 (as the code has it): when a video is requested and [play] returns,
    the video opened at the start of playback is closed at its end, after
    the last frame; in between only frames, holds and progress reports
    occur, so it is opened once and closed once. *)
Theorem video_closed_when_play_returns (st : state) :
  video_requested (self st) = true ->
  fst (play st) = Returned tt ->
  exists d mid,
    trace (snd (play st)) =
    trace st
    ++ (if show_progressbar (self st)
        then [ProgressBarNew (List.length (sorted (events (self st))))]
        else [])
    ++ [VideoOpen (video_filename (self st)) (video_fps (self st)) d]
    ++ mid ++ [Show false; VideoAddFrame; VideoClose; Show true] /\
    Forall loop_effect mid.
Proof.
  intros Hv. unfold play.
  rewrite !bind_modify_self, bind_get_self.
  cbn [self world trace show_progressbar events total_duration
       set_bookingMode set_events].
  set (a1 := set_bookingMode (set_events (self st) (sorted (events (self st))))
                             false).
  set (pre := if show_progressbar (self st)
              then [ProgressBarNew (List.length (sorted (events (self st))))]
              else []).
  assert (Hpb : forall k : unit -> M unit,
            bind (when (show_progressbar (self st))
                    (emit (ProgressBarNew
                             (List.length (sorted (events (self st)))))))
                 k (mkState a1 (world st) (trace st))
            = k tt (mkState a1 (world st) (trace st ++ pre))).
  { intros k. unfold pre. destruct (show_progressbar (self st)); cbn [when].
    - rewrite bind_emit. reflexivity.
    - rewrite bind_ret_l, app_nil_r. reflexivity. }
  rewrite Hpb. clear Hpb.
  destruct (total_duration (self st)) as [d |] eqn:Etd.
  - rewrite bind_ret_l, bind_get_self. cbn [self].
    intros Hret.
    destruct (play_tail_trace (mkState a1 (world st) (trace st ++ pre))
                eq_refl Hv Hret) as [mid [Htr Fmid]].
    exists (Some d), mid. split; [| exact Fmid].
    refine (eq_trans Htr _). cbn [self trace]. unfold a1; simpl. rewrite Etd.
    rewrite <- !app_assoc. reflexivity.
  - destruct (sorted (events (self st))) as [| e l] eqn:Es.
    + intros Hret. cbv in Hret. discriminate.
    + destruct (py_index_last_cons e l) as [last Hlast].
      rewrite bind_assoc, Hlast, bind_ret_l.
      change (index (e :: l) 0) with (@ret event e).
      rewrite bind_assoc, bind_ret_l, bind_modify_self, bind_get_self.
      cbn [self world trace].
      set (a2 := set_total_duration a1 _).
      intros Hret.
      destruct (play_tail_trace (mkState a2 (world st) (trace st ++ pre))
                  eq_refl Hv Hret) as [mid [Htr Fmid]].
      exists (total_duration a2), mid. split; [| exact Fmid].
      refine (eq_trans Htr _). cbn [self trace].
      rewrite <- !app_assoc. reflexivity.
Qed.

(** A run of the theorem: a fade over two steps, played with the default
    video file. *)
Lemma video_closed_when_play_returns_witness :
  let st := snd (fade_in (ActsOne 1%nat) (Some 0) (Some 2)
                   (fresh (init None 1 true "animation.mp4" 12))) in
  exists d mid,
    trace (snd (play st)) =
    trace st
    ++ (if show_progressbar (self st)
        then [ProgressBarNew (List.length (sorted (events (self st))))]
        else [])
    ++ [VideoOpen (video_filename (self st)) (video_fps (self st)) d]
    ++ mid ++ [Show false; VideoAddFrame; VideoClose; Show true] /\
    Forall loop_effect mid.
Proof.
  intros st.
  assert (Hv : video_requested (self st) = true) by reflexivity.
  assert (Hret : fst (play st) = Returned tt) by reflexivity.
  exact (video_closed_when_play_returns st Hv Hret).
Defined.

(** C7 (as stated, refuted): an exception raised inside the loop leaves the
    video open.  [rotate] about "x" booked on an empty target list makes
    playback raise [IndexError] at [self._performers[0]]; the trace then
    ends with the opening of the video and holds no [VideoClose]. *)
Lemma video_left_open_on_exception :
  let st := snd (rotate (ActsSeq []) (AxisStr "x") 90 (Some 0) (Some 0)
                   (fresh (init None 1 true "animation.mp4" 12))) in
  video_requested (self st) = true /\
  fst (play st) = Raised IndexError /\
  trace (snd (play st)) =
    [LogError "in rotate(), can move only one object.";
     ProgressBarNew 1;
     VideoOpen "animation.mp4" 12 (Some (0 * 1 - 0 * 1))] /\
  ~ In VideoClose (trace (snd (play st))).
Proof.
  intros st. split; [reflexivity |]. split; [reflexivity |].
  assert (E : trace (snd (play st)) =
              [LogError "in rotate(), can move only one object.";
               ProgressBarNew 1;
               VideoOpen "animation.mp4" 12 (Some (0 * 1 - 0 * 1))])
    by reflexivity.
  split; [exact E |]. rewrite E. simpl.
  intros [H | [H | [H | []]]]; discriminate.
Qed.

(** ** [sorted] is a stable sort by time *)

Lemma insert_event_perm (e : event) (l : list event) :
  Permutation (insert_event e l) (e :: l).
Proof.
  induction l as [| y l IH]; simpl.
  - apply Permutation_refl.
  - destruct (Qle_bool (ev_time e) (ev_time y)).
    + apply Permutation_refl.
    + eapply perm_trans; [apply perm_skip, IH | apply perm_swap].
Qed.

Lemma sorted_perm (l : list event) : Permutation (sorted l) l.
Proof.
  induction l as [| e l IH]; simpl.
  - apply perm_nil.
  - eapply perm_trans; [apply insert_event_perm | apply perm_skip, IH].
Qed.

Lemma insert_event_sorted (e : event) (l : list event) :
  StronglySorted le_time l -> StronglySorted le_time (insert_event e l).
Proof.
  induction l as [| y l IH]; intros Hs; simpl.
  - repeat constructor.
  - inversion Hs as [| y' l' Hl Hy]; subst.
    destruct (Qle_bool (ev_time e) (ev_time y)) eqn:E.
    + apply Qle_bool_iff in E. constructor; [exact Hs |].
      constructor; [exact E |].
      eapply Forall_impl; [| exact Hy].
      intros z Hz. unfold le_time in *. eapply Qle_trans; eassumption.
    + apply Qle_bool_false in E. constructor; [apply IH, Hl |].
      eapply Permutation_Forall;
        [apply Permutation_sym, insert_event_perm |].
      constructor; [unfold le_time; apply Qlt_le_weak, E | exact Hy].
Qed.

Lemma sorted_sorted (l : list event) : StronglySorted le_time (sorted l).
Proof.
  induction l as [| e l IH]; simpl.
  - constructor.
  - apply insert_event_sorted, IH.
Qed.

Lemma insert_event_ties (q : Q) (e : event) (l : list event) :
  ties_of q (insert_event e l) = ties_of q (e :: l).
Proof.
  unfold ties_of. induction l as [| y l IH]; simpl.
  - reflexivity.
  - destruct (Qle_bool (ev_time e) (ev_time y)) eqn:E; [reflexivity |].
    simpl. rewrite IH. simpl.
    destruct (at_time q e) eqn:Ee, (at_time q y) eqn:Ey; try reflexivity.
    exfalso. unfold at_time in *.
    apply Qeq_bool_iff in Ee, Ey. apply Qle_bool_false in E.
    rewrite Ee, Ey in E. exact (Qlt_irrefl _ E).
Qed.

Lemma sorted_ties (q : Q) (l : list event) :
  ties_of q (sorted l) = ties_of q l.
Proof.
  induction l as [| e l IH]; simpl.
  - reflexivity.
  - rewrite insert_event_ties. unfold ties_of in *. simpl. rewrite IH.
    reflexivity.
Qed.

Lemma at_time_self (e : event) : at_time (ev_time e) e = true.
Proof. unfold at_time. apply Qeq_bool_iff. reflexivity. Qed.

Lemma ties_of_In (q : Q) (e : event) (l : list event) :
  In e (ties_of q l) -> In e l.
Proof. unfold ties_of. intros H. apply filter_In in H. tauto. Qed.

(** Two lists in ascending order of time with the same Events in the same
    order at every time are the same list. *)
Lemma sorted_unique (s1 s2 : list event) :
  StronglySorted le_time s1 -> StronglySorted le_time s2 ->
  (forall q, ties_of q s1 = ties_of q s2) -> s1 = s2.
Proof.
  revert s2. induction s1 as [| x s1 IH]; intros s2 H1 H2 H.
  - destruct s2 as [| y s2]; [reflexivity |].
    specialize (H (ev_time y)). unfold ties_of in H; simpl in H.
    rewrite at_time_self in H. discriminate.
  - destruct s2 as [| y s2].
    + specialize (H (ev_time x)). unfold ties_of in H; simpl in H.
      rewrite at_time_self in H. discriminate.
    + inversion H1 as [| x' s1' Hs1 Hx]; subst.
      inversion H2 as [| y' s2' Hs2 Hy]; subst.
      assert (Hxy : x = y).
      { pose proof (H (ev_time x)) as Hqx.
        pose proof (H (ev_time y)) as Hqy.
        unfold ties_of in Hqx, Hqy; simpl in Hqx, Hqy.
        rewrite at_time_self in Hqx, Hqy.
        destruct (at_time (ev_time x) y) eqn:Ey.
        - injection Hqx as Hxy _. exact Hxy.
        - exfalso.
          assert (Ex : at_time (ev_time y) x = false).
          { unfold at_time in *.
            destruct (Qeq_bool (ev_time x) (ev_time y)) eqn:E;
              [| reflexivity].
            apply Qeq_bool_iff in E. symmetry in E.
            apply Qeq_bool_iff in E. congruence. }
          rewrite Ex in Hqy.
          assert (Hin1 : In x s2).
          { apply (ties_of_In (ev_time x)). unfold ties_of.
            rewrite <- Hqx. left. reflexivity. }
          assert (Hin2 : In y s1).
          { apply (ties_of_In (ev_time y)). unfold ties_of.
            rewrite Hqy. left. reflexivity. }
          rewrite Forall_forall in Hx, Hy.
          pose proof (Hx y Hin2) as Hle1. pose proof (Hy x Hin1) as Hle2.
          unfold le_time in Hle1, Hle2.
          assert (Heq : ev_time y == ev_time x) by (apply Qle_antisym; assumption).
          unfold at_time in Ey. apply Qeq_bool_iff in Heq. congruence. }
      subst y. f_equal. apply IH; [exact Hs1 | exact Hs2 |].
      intros q. specialize (H q). unfold ties_of in *; simpl in H.
      destruct (at_time q x); [injection H as H |]; exact H.
Qed.

(** Two bookings of Events that agree, at every time, on the Events
    scheduled then and on their order sort to the same list. *)
Lemma sorted_same_ties (l1 l2 : list event) :
  (forall q, ties_of q l1 = ties_of q l2) -> sorted l1 = sorted l2.
Proof.
  intros H. apply sorted_unique; try apply sorted_sorted.
  intros q. rewrite !sorted_ties. apply H.
Qed.

(** ** [play] replays the sorted list *)

(** The loop leaves the Event list as it is. *)
Lemma play_loop_events (evs : list event) (tl : Q) (st : state) :
  bookingMode (self st) = false ->
  events (self (snd (play_loop evs tl st))) = events (self st).
Proof.
  revert tl st. induction evs as [| e rest IH]; intros tl st Hb.
  - reflexivity.
  - pose proof (play_loop_cons e rest tl st) as Hstep.
    pose proof (call_action_playback (ev_action e) (at_event st e) Hb)
      as [Hself _].
    destruct (call_action (ev_action e) (at_event st e)) as [[[] | x] st2];
      simpl in Hself.
    + destruct Hstep as [l [_ ->]]. rewrite IH; simpl; rewrite Hself;
        [reflexivity | exact Hb].
    + rewrite Hstep. simpl. rewrite Hself. reflexivity.
Qed.

Lemma play_tail_events (st : state) :
  bookingMode (self st) = false ->
  let s := self st in
  let m :=
    when (video_requested s)
      (emit (VideoOpen (video_filename s) (video_fps s) (total_duration s))) ;;
    play_loop (events s) 0 ;;
    emit (Show false) ;;
    when (video_requested s) (emit VideoAddFrame ;; emit VideoClose) ;;
    emit (Show true) ;;
    modify_self (fun a => set_bookingMode a true) in
  events (self (snd (m st))) = events (self st).
Proof.
  intros Hb s m. subst m.
  assert (Hloop : forall tr,
            events (self (snd (play_loop (events s) 0
                                 (mkState (self st) (world st) tr))))
            = events (self st)).
  { intros tr. apply (play_loop_events _ _ (mkState (self st) (world st) tr)).
    exact Hb. }
  destruct (video_requested s); cbn [when].
  - rewrite bind_emit. unfold bind at 1.
    specialize (Hloop (trace st ++
      [VideoOpen (video_filename s) (video_fps s) (total_duration s)])).
    destruct (play_loop (events s) 0 _) as [[[] | x] st2]; exact Hloop.
  - rewrite bind_ret_l. unfold bind at 1.
    specialize (Hloop (trace st)). rewrite state_eta in Hloop.
    destruct (play_loop (events s) 0 st) as [[[] | x] st2]; exact Hloop.
Qed.

(** Whatever its outcome, [play] leaves the instance holding the sorted
    Event list. *)
Lemma play_events (st : state) :
  events (self (snd (play st))) = sorted (events (self st)).
Proof.
  unfold play.
  rewrite !bind_modify_self, bind_get_self.
  cbn [self world trace show_progressbar events total_duration
       set_bookingMode set_events].
  set (a1 := set_bookingMode (set_events (self st) (sorted (events (self st))))
                             false).
  assert (Hpb : forall k : unit -> M unit, exists tr,
            bind (when (show_progressbar (self st))
                    (emit (ProgressBarNew
                             (List.length (sorted (events (self st)))))))
                 k (mkState a1 (world st) (trace st))
            = k tt (mkState a1 (world st) tr)).
  { intros k. destruct (show_progressbar (self st)); cbn [when].
    - eexists. rewrite bind_emit. reflexivity.
    - eexists. rewrite bind_ret_l. reflexivity. }
  destruct (Hpb (fun _ =>
      (match total_duration (self st) with
       | Some _ => ret tt
       | None =>
         last <- py_index (sorted (events (self st))) (-1) ;;
         first <- index (sorted (events (self st))) 0 ;;
         modify_self (fun a =>
           set_total_duration a (Some (ev_time last - ev_time first)))
       end) ;;
      s <- get_self ;;
      when (video_requested s)
        (emit (VideoOpen (video_filename s) (video_fps s) (total_duration s))) ;;
      play_loop (events s) 0 ;;
      emit (Show false) ;;
      when (video_requested s) (emit VideoAddFrame ;; emit VideoClose) ;;
      emit (Show true) ;;
      modify_self (fun a => set_bookingMode a true))) as [tr ->].
  clear Hpb.
  destruct (total_duration (self st)) as [d |].
  - rewrite bind_ret_l, bind_get_self.
    apply (play_tail_events (mkState a1 (world st) tr)). reflexivity.
  - destruct (sorted (events (self st))) as [| e l] eqn:Es.
    + reflexivity.
    + destruct (py_index_last_cons e l) as [last Hlast].
      rewrite bind_assoc, Hlast, bind_ret_l.
      change (index (e :: l) 0) with (@ret event e).
      rewrite bind_assoc, bind_ret_l, bind_modify_self, bind_get_self.
      cbn [self world trace].
      set (a2 := set_total_duration a1 _).
      refine (eq_trans
                (play_tail_events (mkState a2 (world st) tr) eq_refl) _).
      reflexivity.
Qed.

Lemma with_list_play (st : state) (l1 l2 : list event) :
  sorted l1 = sorted l2 -> play (with_list st l1) = play (with_list st l2).
Proof.
  intros H. unfold play. rewrite !bind_modify_self.
  cbn [with_list self world trace events set_events set_bookingMode].
  change (set_events (set_events (self st) l1) (sorted l1))
    with (set_events (self st) (sorted l1)).
  change (set_events (set_events (self st) l2) (sorted l2))
    with (set_events (self st) (sorted l2)).
  rewrite H. reflexivity.
Qed.

(** C8 (as the code has it): [play] replaces the Event list by its stable
    sort by time (ascending, the same Events, those of equal time in
    their booked order) and replays that; so two bookings of the same
    Events that keep the Events of equal time in the same order are played
    identically, terminal values included. *)
Theorem play_sorts_before_replay (st : state) (l1 l2 : list event) :
  (forall q, ties_of q l1 = ties_of q l2) ->
  StronglySorted le_time (sorted l1) /\
  Permutation (sorted l1) l1 /\
  (forall q, ties_of q (sorted l1) = ties_of q l1) /\
  events (self (snd (play (with_list st l1)))) = sorted l1 /\
  play (with_list st l1) = play (with_list st l2).
Proof.
  intros H. split; [apply sorted_sorted |]. split; [apply sorted_perm |].
  split; [intros q; apply sorted_ties |]. split.
  - rewrite play_events. reflexivity.
  - apply with_list_play, sorted_same_ties, H.
Qed.

(** A run of the theorem: a fade-in at time 1 booked before, or after, a
    change of representation at time 0. *)
Lemma play_sorts_before_replay_witness :
  let e0 := mkEvent 0 change_to_wireframe_m [1%nat] (PBool true) in
  let e1 := mkEvent 1 fade_in_m [1%nat] (PScalar 1) in
  let st := fresh (init None 1 true "animation.mp4" 12) in
  play (with_list st [e1; e0]) = play (with_list st [e0; e1]).
Proof.
  intros e0 e1 st.
  assert (H : forall q, ties_of q [e1; e0] = ties_of q [e0; e1]).
  { intros q. unfold ties_of, at_time; simpl.
    destruct (Qeq_bool 1 q) eqn:E1, (Qeq_bool 0 q) eqn:E0; try reflexivity.
    apply Qeq_bool_iff in E1, E0. rewrite <- E0 in E1. discriminate. }
  exact (proj2 (proj2 (proj2 (proj2
           (play_sorts_before_replay st [e1; e0] [e0; e1] H))))).
Defined.

(** C8 (as stated, refuted): two orders of booking the same two Events, both
    at time 0 and the first order ascending in time, end with different
    values: the representation booked last wins. *)
Lemma tie_order_changes_terminal_state :
  let a := init None 1 true "animation.mp4" 12 in
  let s1 := snd ((change_to_wireframe (ActsOne 1%nat) (Some 0) ;;
                  change_to_surface (ActsOne 1%nat) (Some 0)) (fresh a)) in
  let s2 := snd ((change_to_surface (ActsOne 1%nat) (Some 0) ;;
                  change_to_wireframe (ActsOne 1%nat) (Some 0)) (fresh a)) in
  Permutation (events (self s1)) (events (self s2)) /\
  StronglySorted le_time (events (self s1)) /\
  fst (play s1) = Returned tt /\
  fst (play s2) = Returned tt /\
  wireframe (world (snd (play s1)) 1%nat) = false /\
  wireframe (world (snd (play s2)) 1%nat) = true.
Proof.
  intros a s1 s2. split; [| split].
  - vm_compute. apply perm_swap.
  - vm_compute. repeat constructor; discriminate.
  - repeat split; reflexivity.
Qed.

(** ** The samples of a declaration *)









(** ** The ramp of [fade_in] *)






(** After [_parse], [fade_in] books one Event per sample. *)
Lemma fade_in_books (st st1 : state) (act : acts_arg) (t d : option Q)
    (acts : list obj) (tq dq : Q) (rng : list Q) :
  bookingMode (self st) = true ->
  _parse act t d st = (Returned (acts, tq, dq, rng), st1) ->
  fade_in act t d st =
  (Returned tt, with_events st1 (fade_in_events acts tq dq rng)).
Proof.
  intros Hb Hp. unfold fade_in. rewrite bind_get_self, Hb.
  rewrite (bind_returned _ _ _ _ _ Hp). rewrite for_each_append. reflexivity.
Qed.





(** ** Declarations that omit their arguments *)








(** ** The quantization of 0.07 on doubles *)

(** On binary64 floats, as in exact arithmetic, a duration of 0.07 at the
    resolution 0.02 is quantized to 4 steps: the quotient is
    3.5000000000000004, and adding 0.5 gives 4.0. *)
Lemma quantize_binary64_example :
  Binary64.quantize64 (Binary64.ratio 7 100) (Binary64.ratio 2 100) = Some 4%Z /\
  quantize (7 # 100) (2 # 100) = 4%Z.
Proof. split; vm_compute; reflexivity. Qed.

(** * Further properties of the scheduler *)

(** ** Booking leaves the scene alone and only appends *)

Lemma books_quietly_same {A} (m : M A) :
  (forall st, snd (m st) = st) -> books_quietly m.
Proof.
  intros H st. rewrite H. split; [reflexivity |].
  exists []. rewrite app_nil_r. reflexivity.
Qed.

Lemma books_quietly_ret {A} (v : A) : books_quietly (ret v).
Proof. apply books_quietly_same. reflexivity. Qed.

Lemma books_quietly_raise {A} (e : exn) : books_quietly (@raise A e).
Proof. apply books_quietly_same. reflexivity. Qed.

Lemma books_quietly_get_props (a : obj) : books_quietly (get_props a).
Proof. apply books_quietly_same. reflexivity. Qed.

Lemma books_quietly_index {A} (l : list A) (i : nat) :
  books_quietly (index l i).
Proof.
  unfold index. destruct (nth_error l i);
    [apply books_quietly_ret | apply books_quietly_raise].
Qed.

Lemma books_quietly_py_index {A} (l : list A) (i : Z) :
  books_quietly (py_index l i).
Proof.
  unfold py_index. destruct (0 <=? i)%Z; [apply books_quietly_index |].
  destruct (0 <=? _)%Z; [apply books_quietly_index | apply books_quietly_raise].
Qed.

Lemma books_quietly_emit (e : effect) : books_quietly (emit e).
Proof.
  intros st. split; [reflexivity |].
  exists []. rewrite app_nil_r. reflexivity.
Qed.

Lemma books_quietly_append_event (e : event) : books_quietly (append_event e).
Proof. intros st. split; [reflexivity |]. exists [e]. reflexivity. Qed.

Lemma books_quietly_bind {A B} (m : M A) (k : A -> M B) :
  books_quietly m -> (forall v, books_quietly (k v)) ->
  books_quietly (bind m k).
Proof.
  intros Hm Hk st. unfold bind. specialize (Hm st).
  destruct (m st) as [[v | e] st1]; simpl in Hm.
  - destruct (Hk v st1) as [H1 [n2 H2]]. destruct Hm as [H3 [n1 H4]].
    split; [congruence |].
    exists (n1 ++ n2). rewrite H2, H4, app_assoc. reflexivity.
  - exact Hm.
Qed.

Lemma books_quietly_for_each {A} (body : A -> M unit) (l : list A) :
  (forall x, books_quietly (body x)) -> books_quietly (for_each l body).
Proof.
  intros H. induction l as [| x l IH]; simpl.
  - apply books_quietly_ret.
  - apply books_quietly_bind; [apply H | intros _; exact IH].
Qed.

Lemma books_quietly_for_enumerate {A} (body : nat -> A -> M unit)
    (l : list A) (i : nat) :
  (forall j x, books_quietly (body j x)) ->
  books_quietly (for_enumerate i l body).
Proof.
  intros H. revert i. induction l as [| x l IH]; intros i; simpl.
  - apply books_quietly_ret.
  - apply books_quietly_bind; [apply H | intros _; apply IH].
Qed.

Lemma books_quietly_map_M {A B} (f : A -> M B) (l : list A) :
  (forall x, books_quietly (f x)) -> books_quietly (map_M f l).
Proof.
  intros H. induction l as [| x l IH]; simpl.
  - apply books_quietly_ret.
  - apply books_quietly_bind; [apply H | intros y].
    apply books_quietly_bind; [exact IH | intros ys; apply books_quietly_ret].
Qed.

(** [_parse] changes neither the scene nor the Event list. *)
Lemma parse_keeps_events (objs : acts_arg) (t d : option Q) (st : state) :
  world (snd (_parse objs t d st)) = world st /\
  events (self (snd (_parse objs t d st))) = events (self st).
Proof.
  unfold _parse, bind, get_self, ret, raise, emit, lift, linspace, modify_self.
  destruct objs as [| a | l];
    [destruct (_lastActs (self st)) as [[| a l] |] | |];
    cbn [fst snd];
    try (split; reflexivity);
    (destruct (Qeq_bool (time_resolution (self st)) 0);
     [split; reflexivity |]);
    (destruct (_ <? 0)%Z; split; reflexivity).
Qed.

Lemma books_quietly_parse (objs : acts_arg) (t d : option Q) :
  books_quietly (_parse objs t d).
Proof.
  intros st. destruct (parse_keeps_events objs t d st) as [Hw He].
  split; [exact Hw |]. exists []. rewrite app_nil_r. exact He.
Qed.

Ltac books_quietly_step :=
  first
    [ apply books_quietly_ret
    | apply books_quietly_raise
    | apply books_quietly_get_props
    | apply books_quietly_index
    | apply books_quietly_py_index
    | apply books_quietly_emit
    | apply books_quietly_append_event
    | apply books_quietly_parse
    | apply books_quietly_for_each; intros
    | apply books_quietly_for_enumerate; intros
    | apply books_quietly_map_M; intros
    | apply books_quietly_bind; [| intros]
    | match goal with
      | |- books_quietly (match ?p with _ => _ end) => destruct p
      end
    | progress cbv zeta ].

(** X1: in booking mode no declaration changes any object of the scene, and
    none removes or reorders the Events already booked: whatever the
    outcome of the call, the Event list only grows at its end. *)
Theorem booking_is_quiet (c : declaration) (st : state) :
  bookingMode (self st) = true ->
  world (snd (declare c st)) = world st /\
  exists new, events (self (snd (declare c st))) = events (self st) ++ new.
Proof.
  intros Hb.
  destruct c; unfold declare;
    unfold switch_on, switch_off;
    unfold fade_in, fade_out, change_alpha_between, change_color,
      change_backcolor, change_to_wireframe, change_to_surface,
      change_line_width, change_line_color, change_lighting, move, rotate,
      scale, mesh_erode;
    rewrite bind_get_self, Hb;
    match goal with
    | |- world (snd (?m st)) = _ /\ _ =>
      let H := fresh in
      assert (H : books_quietly m) by (repeat books_quietly_step);
      exact (H st)
    end.
Qed.

Lemma booking_is_quiet_witness :
  let st := fresh (init None 1 true "animation.mp4" 12) in
  world (snd (declare (call_move (ActsOne 1%nat) (1, 0, 0) (Some 0) (Some 2)
                                 "linear") st)) = world st.
Proof.
  intros st. exact (proj1 (booking_is_quiet _ st eq_refl)).
Defined.

(** ** Declarations in playback mode *)

(** X2: while the instance is in playback mode a declaration ignores its
    arguments: it does what replaying its action does, on the targets and
    payload left in the instance; no field of the instance changes and
    nothing is logged, so nothing is booked. *)
Theorem playback_ignores_arguments (c : declaration) (st : state) :
  bookingMode (self st) = false ->
  declare c st = call_action (action_of c) st /\
  self (snd (declare c st)) = self st /\
  trace (snd (declare c st)) = trace st.
Proof.
  intros Hb.
  assert (E : declare c st = call_action (action_of c) st).
  { destruct c; unfold declare, action_of, call_action;
      unfold switch_on, switch_off;
      unfold fade_in, fade_out, change_alpha_between, change_color,
        change_backcolor, change_to_wireframe, change_to_surface,
        change_line_width, change_line_color, change_lighting, move, rotate,
        scale, mesh_erode;
      rewrite !bind_get_self, Hb; reflexivity. }
  split; [exact E |]. rewrite E.
  apply call_action_playback, Hb.
Qed.

Lemma playback_ignores_arguments_witness :
  let st := mkState (set_bookingMode default_animation false) plain_scene [] in
  events (self (snd (declare (call_fade_in (ActsOne 1%nat) (Some 0) (Some 2))
                             st))) = [].
Proof.
  intros st.
  destruct (playback_ignores_arguments
              (call_fade_in (ActsOne 1%nat) (Some 0) (Some 2)) st eq_refl)
    as [_ [H _]].
  rewrite H. reflexivity.
Defined.

(** ** Declarations without targets *)

Lemma parse_missing_targets (st : state) (t d : option Q) :
  objs2_of ActsNone (_lastActs (self st)) = None ->
  _parse ActsNone t d st =
  (Raised RuntimeError,
   mkState (self st) (world st)
           (trace st ++ [LogError "Need to specify actors!"])).
Proof.
  intros H. unfold _parse. rewrite bind_get_self.
  simpl in H. destruct (_lastActs (self st)) as [[| a l] |];
    try discriminate; reflexivity.
Qed.

(** X3: a declaration that names no targets, on an instance whose last target
    list is absent or empty, logs "Need to specify actors!" and raises
    [RuntimeError]; it books nothing and changes neither the instance nor
    the scene. *)
Theorem declaration_without_targets_raises (c : declaration) (st : state) :
  bookingMode (self st) = true ->
  targets_of c = ActsNone ->
  objs2_of ActsNone (_lastActs (self st)) = None ->
  declare c st =
  (Raised RuntimeError,
   mkState (self st) (world st)
           (trace st ++ [LogError "Need to specify actors!"])).
Proof.
  intros Hb Ht Hnone.
  destruct c; simpl in Ht; subst; unfold declare;
    unfold switch_on, switch_off;
    unfold fade_in, fade_out, change_alpha_between, change_color,
      change_backcolor, change_to_wireframe, change_to_surface,
      change_line_width, change_line_color, change_lighting, move, rotate,
      scale, mesh_erode;
    rewrite bind_get_self, Hb;
    apply bind_raised, parse_missing_targets, Hnone.
Qed.

Lemma declaration_without_targets_raises_witness :
  fst (declare (call_rotate ActsNone (AxisStr "z") 90 (Some 0) (Some 1))
               (fresh default_animation))
  = Raised RuntimeError.
Proof.
  rewrite (declaration_without_targets_raises
             (call_rotate ActsNone (AxisStr "z") 90 (Some 0) (Some 1))
             (fresh default_animation) eq_refl eq_refl eq_refl).
  reflexivity.
Defined.

(** X4: an empty target list is accepted: [fade_in([], t, d)] returns, having
    booked Events without targets; but it leaves an empty last target list,
    so the next declaration that omits its targets raises [RuntimeError]. *)
Theorem empty_target_list_ends_continuation (st : state) (t : option Q)
    (d : Q) (c : declaration) :
  bookingMode (self st) = true ->
  0 < time_resolution (self st) -> 0 <= d ->
  targets_of c = ActsNone ->
  let r := fade_in (ActsSeq []) t (Some d) st in
  fst r = Returned tt /\
  events (self (snd r)) <> events (self st) /\
  Forall (fun e => ev_acts e = []) (skipn (List.length (events (self st)))
                                          (events (self (snd r)))) /\
  fst (declare c (snd r)) = Raised RuntimeError.
Proof.
  intros Hb Hres Hd Ht r.
  pose proof (parse_explicit st (ActsSeq []) [] t d eq_refl Hres Hd) as Hp.
  pose proof (fade_in_books _ _ _ _ _ _ _ _ _ Hb Hp) as Hf.
  subst r. rewrite Hf. cbn [fst snd].
  split; [reflexivity |].
  assert (Hne : fade_in_events [] (start_of (self st) t)
                  (duration_of (self st) (Some d))
                  (samples_of (self st) t (Some d)) <> []).
  { unfold fade_in_events. intros E. apply map_eq_nil in E.
    exact (samples_of_nonempty _ _ _ Hres Hd E). }
  split.
  { cbn. intros E. apply Hne.
    apply (app_inv_head (events (self st))). rewrite app_nil_r. exact E. }
  split.
  { cbn [with_events self events set_events].
    rewrite skipn_app, skipn_all, Nat.sub_diag. simpl.
    unfold fade_in_events. apply Forall_forall. intros e He.
    apply in_map_iff in He as [x [<- _]]. reflexivity. }
  rewrite declaration_without_targets_raises; [reflexivity | exact Hb | exact Ht |].
  reflexivity.
Qed.

Lemma empty_target_list_ends_continuation_witness :
  let st := fresh (init None 1 true "animation.mp4" 12) in
  fst (declare (call_change_color (1, 0, 0) ActsNone None None)
               (snd (fade_in (ActsSeq []) (Some 0) (Some 2) st)))
  = Raised RuntimeError.
Proof.
  intros st.
  assert (Hres : 0 < time_resolution (self st)) by reflexivity.
  assert (Hd : 0 <= 2) by discriminate.
  exact (proj2 (proj2 (proj2
    (empty_target_list_ends_continuation st (Some 0) 2
       (call_change_color (1, 0, 0) ActsNone None None)
       eq_refl Hres Hd eq_refl)))).
Defined.

(** ** The register of scene objects *)

Lemma existsb_eqb_In (a : obj) (os : list obj) :
  existsb (Nat.eqb a) os = true <-> In a os.
Proof.
  rewrite existsb_exists. split.
  - intros [x [Hx E]]. apply Nat.eqb_eq in E. subst. exact Hx.
  - intros H. exists a. split; [exact H | apply Nat.eqb_refl].
Qed.

Lemma register_spec (objs2 objects : list obj) :
  exists extra,
    register objs2 objects = objects ++ extra /\
    (forall a, In a extra -> In a objs2 /\ ~ In a objects) /\
    (forall a, In a objs2 -> In a (objects ++ extra)) /\
    (NoDup objects -> NoDup (objects ++ extra)).
Proof.
  unfold register. revert objects.
  induction objs2 as [| x l IH]; intros objects; simpl.
  - exists []. rewrite app_nil_r. repeat split; auto; intros a [].
  - destruct (existsb (Nat.eqb x) objects) eqn:E.
    + apply existsb_eqb_In in E.
      destruct (IH objects) as [extra [H1 [H2 [H3 H4]]]].
      exists extra. split; [exact H1 |]. split; [| split].
      * intros a Ha. destruct (H2 a Ha). split; [right |]; assumption.
      * intros a [<- | Ha]; [apply in_or_app; left; exact E | apply H3, Ha].
      * exact H4.
    + assert (Hx : ~ In x objects).
      { intros H. apply existsb_eqb_In in H. congruence. }
      destruct (IH (objects ++ [x])) as [extra [H1 [H2 [H3 H4]]]].
      exists (x :: extra).
      split; [refine (eq_trans H1 _); rewrite <- app_assoc; reflexivity |].
      split; [| split].
      * intros a [<- | Ha]; [split; [left; reflexivity | exact Hx] |].
        destruct (H2 a Ha) as [Hl Hn]. split; [right; exact Hl |].
        intros H. apply Hn. apply in_or_app. left. exact H.
      * intros a [<- | Ha].
        -- apply in_or_app. right. left. reflexivity.
        -- specialize (H3 a Ha). rewrite <- app_assoc in H3. exact H3.
      * intros Hnd. rewrite <- app_assoc in H4. apply H4.
        apply NoDup_app; [exact Hnd | repeat constructor; intros [] |].
        intros a Ha [<- | []]. exact (Hx Ha).
Qed.

(** What a successful [_parse] returned, read back. *)
Lemma parse_inversion (st st1 : state) (objs : acts_arg) (t d : option Q)
    (objs2 : list obj) (tq dq : Q) (rng : list Q) :
  _parse objs t d st = (Returned (objs2, tq, dq, rng), st1) ->
  objs2_of objs (_lastActs (self st)) = Some objs2 /\
  tq = start_of (self st) t /\ dq = duration_of (self st) d /\
  rng = samples_of (self st) t d /\
  st1 = mkState (parsed (self st) t d objs2) (world st) (trace st).
Proof.
  unfold _parse, bind, get_self, ret, raise, emit, lift, linspace, modify_self.
  destruct objs as [| a | l];
    [destruct (_lastActs (self st)) as [[| a l] |] | |];
    cbn [fst snd objs2_of];
    try discriminate;
    (destruct (Qeq_bool (time_resolution (self st)) 0); [discriminate |]);
    (destruct (_ <? 0)%Z; [discriminate |]);
    intros H; injection H as <- <- <- <- <-; repeat split.
Qed.

(** X5: after a successful [_parse], every resolved target is registered in
    [self.objects]; the objects registered before keep their places, the new
    ones follow them and are targets that were not registered; no duplicate
    is introduced; and targets that were all registered already leave the
    register as it was. *)
Theorem targets_are_registered (st st1 : state) (objs : acts_arg)
    (t d : option Q) (objs2 : list obj) (tq dq : Q) (rng : list Q) :
  _parse objs t d st = (Returned (objs2, tq, dq, rng), st1) ->
  (exists extra,
     objects (self st1) = objects (self st) ++ extra /\
     forall a, In a extra -> In a objs2 /\ ~ In a (objects (self st))) /\
  (forall a, In a objs2 -> In a (objects (self st1))) /\
  (NoDup (objects (self st)) -> NoDup (objects (self st1))) /\
  ((forall a, In a objs2 -> In a (objects (self st))) ->
   objects (self st1) = objects (self st)).
Proof.
  intros Hp. apply parse_inversion in Hp as [_ [_ [_ [_ ->]]]].
  cbn [self parsed set_objects objects].
  destruct (register_spec objs2 (objects (self st)))
    as [extra [H1 [H2 [H3 H4]]]].
  rewrite H1. split; [exists extra; split; [reflexivity | exact H2] |].
  split; [exact H3 |]. split; [exact H4 |].
  intros Hall. destruct extra as [| x extra].
  - apply app_nil_r.
  - exfalso. destruct (H2 x (or_introl eq_refl)) as [Hin Hnot].
    exact (Hnot (Hall x Hin)).
Qed.

Lemma targets_are_registered_witness :
  let st := fresh default_animation in
  NoDup (objects (self (snd (_parse (ActsSeq [3; 5; 3]%nat)
                                    (Some 0) (Some 0) st)))).
Proof.
  intros st.
  assert (Hp : _parse (ActsSeq [3; 5; 3]%nat) (Some 0) (Some 0) st
               = (Returned ([3; 5; 3]%nat, start_of (self st) (Some 0),
                            duration_of (self st) (Some 0),
                            samples_of (self st) (Some 0) (Some 0)),
                  snd (_parse (ActsSeq [3; 5; 3]%nat) (Some 0) (Some 0) st)))
    by reflexivity.
  exact (proj1 (proj2 (proj2 (targets_are_registered _ _ _ _ _ _ _ _ _ Hp)))
               (NoDup_nil obj)).
Defined.

(** ** Quantization of times *)







(** ** The structure of [play] *)

Lemma last_nonempty_default {A} (y : A) (l : list A) (d1 d2 : A) :
  last (y :: l) d1 = last (y :: l) d2.
Proof.
  revert y. induction l as [| z l IH]; intros y; [reflexivity |].
  change (last (z :: l) d1 = last (z :: l) d2). apply IH.
Qed.

Lemma nth_error_last {A} (x : A) (l : list A) :
  nth_error (x :: l) (List.length l) = Some (last l x).
Proof.
  revert x. induction l as [| y l IH]; intros x; [reflexivity |].
  simpl List.length. change (nth_error (x :: y :: l) (S (List.length l)))
    with (nth_error (y :: l) (List.length l)).
  rewrite IH. f_equal. destruct l as [| z l]; [reflexivity |].
  change (last (y :: z :: l) x) with (last (z :: l) x).
  apply last_nonempty_default.
Qed.

Lemma py_index_last {A} (x : A) (l : list A) :
  py_index (x :: l) (-1) = ret (last l x).
Proof.
  unfold py_index. cbn [Z.leb Z.compare].
  replace (Z.of_nat (List.length (x :: l)) + -1)%Z
    with (Z.of_nat (List.length l)) by (simpl List.length; lia).
  assert (E : (0 <=? Z.of_nat (List.length l))%Z = true)
    by (apply Z.leb_le; lia).
  rewrite E, Nat2Z.id. unfold index. rewrite nth_error_last. reflexivity.
Qed.

(** [play] either stops at the empty list, or goes on from the prepared
    instance. *)
Lemma play_unfold (st : state) :
  play st =
  match total_duration (self st), sorted (events (self st)) with
  | None, [] =>
    (Raised IndexError,
     mkState (set_bookingMode (set_events (self st) []) false) (world st)
             (trace st ++ play_prelude (self st)))
  | _, _ =>
    play_from (play_prepared (self st))
      (mkState (play_prepared (self st)) (world st)
               (trace st ++ play_prelude (self st)))
  end.
Proof.
  unfold play, play_prepared, play_prelude.
  rewrite !bind_modify_self, bind_get_self.
  cbn [self world trace show_progressbar events total_duration
       set_bookingMode set_events].
  set (a1 := set_bookingMode (set_events (self st) (sorted (events (self st))))
                             false).
  assert (Hpb : forall k : unit -> M unit,
            bind (when (show_progressbar (self st))
                    (emit (ProgressBarNew
                             (List.length (sorted (events (self st)))))))
                 k (mkState a1 (world st) (trace st))
            = k tt (mkState a1 (world st)
                      (trace st ++
                       if show_progressbar (self st)
                       then [ProgressBarNew
                               (List.length (sorted (events (self st))))]
                       else []))).
  { intros k. destruct (show_progressbar (self st)); cbn [when].
    - rewrite bind_emit. reflexivity.
    - rewrite bind_ret_l, app_nil_r. reflexivity. }
  rewrite Hpb. clear Hpb.
  destruct (total_duration (self st)) as [d |].
  - rewrite bind_ret_l, bind_get_self.
    destruct (sorted (events (self st))); reflexivity.
  - subst a1. destruct (sorted (events (self st))) as [| e l] eqn:Es.
    + reflexivity.
    + rewrite bind_assoc, py_index_last, bind_ret_l.
      change (index (e :: l) 0) with (@ret event e).
      rewrite bind_assoc, bind_ret_l, bind_modify_self, bind_get_self.
      reflexivity.
Qed.

(** From the prepared instance on, the outcome is that of the loop. *)
Lemma play_from_unfold (s : Animation) (st : state) :
  play_from s st =
  match play_loop (events s) 0
          (mkState (self st) (world st)
             (trace st ++
              if video_requested s
              then [VideoOpen (video_filename s) (video_fps s)
                              (total_duration s)]
              else []))
  with
  | (Raised x, st2) => (Raised x, st2)
  | (Returned _, st2) =>
    (Returned tt,
     mkState (set_bookingMode (self st2) true) (world st2)
       (trace st2 ++ [Show false]
        ++ (if video_requested s then [VideoAddFrame; VideoClose] else [])
        ++ [Show true]))
  end.
Proof.
  unfold play_from.
  destruct (video_requested s); cbn [when].
  - rewrite bind_emit.
    destruct (play_loop (events s) 0 _) as [[[] | x] st2] eqn:E.
    + rewrite (bind_returned _ _ _ _ _ E).
      rewrite bind_emit, bind_assoc, !bind_emit.
      cbn [modify_self self world trace]. rewrite <- !app_assoc. reflexivity.
    + rewrite (bind_raised _ _ _ _ _ E). reflexivity.
  - rewrite bind_ret_l, app_nil_r, state_eta.
    destruct (play_loop (events s) 0 st) as [[[] | x] st2] eqn:E.
    + rewrite (bind_returned _ _ _ _ _ E).
      rewrite bind_emit, bind_ret_l, bind_emit.
      cbn [modify_self self world trace]. rewrite <- !app_assoc. reflexivity.
    + rewrite (bind_raised _ _ _ _ _ E). reflexivity.
Qed.

(** One turn of the loop, when the action returns: exactly the effects of
    the turn are added. *)
Lemma play_loop_turn (e : event) (rest : list event) (tl : Q)
    (st st2 : state) (u : unit) :
  call_action (ev_action e) (at_event st e) = (Returned u, st2) ->
  play_loop (e :: rest) tl st =
  play_loop rest (ev_time e)
    (mkState (self st2) (world st2)
       (trace st2 ++
        turn_effects (eps (self st2)) (time_resolution (self st2))
          (video_requested (self st2)) (show_progressbar (self st2)) tl e)).
Proof.
  intros Hcall. simpl play_loop. rewrite bind_modify_self.
  fold (at_event st e). rewrite (bind_returned _ _ _ _ _ Hcall).
  rewrite bind_get_self. unfold turn_effects.
  destruct (Qgt_bool (ev_time e - tl) (eps (self st2)));
    destruct (video_requested (self st2));
    destruct (Qgt_bool (ev_time e - tl)
                (time_resolution (self st2) + eps (self st2)));
    destruct (show_progressbar (self st2));
    cbn [when];
    rewrite ?bind_assoc, ?bind_emit, ?bind_ret_l;
    cbn [self world trace];
    rewrite ?bind_assoc, ?bind_emit, ?bind_ret_l;
    cbn [self world trace];
    rewrite ?bind_assoc, ?bind_emit, ?bind_ret_l;
    cbn [self world trace app];
    rewrite <- ?app_assoc; cbn [app]; rewrite ?app_nil_r, ?state_eta;
    reflexivity.
Qed.

Lemma set_current_id (a : Animation) :
  set_current a (_performers a) (_inputvalues a) = a.
Proof. destruct a; reflexivity. Qed.

(** The loop changes the instance only in the current targets and payload. *)
Lemma play_loop_self (evs : list event) (tl : Q) (st : state) :
  bookingMode (self st) = false ->
  exists p v, self (snd (play_loop evs tl st)) = set_current (self st) p v.
Proof.
  revert tl st. induction evs as [| e rest IH]; intros tl st Hb.
  - exists (_performers (self st)), (_inputvalues (self st)).
    simpl. symmetry. apply set_current_id.
  - pose proof (play_loop_cons e rest tl st) as Hstep.
    pose proof (call_action_playback (ev_action e) (at_event st e) Hb)
      as [Hself _].
    destruct (call_action (ev_action e) (at_event st e)) as [[[] | x] st2];
      simpl in Hself.
    + destruct Hstep as [l [_ ->]].
      destruct (IH (ev_time e)
                   (mkState (self st2) (world st2) (trace st2 ++ l)))
        as [p [v Hpv]].
      { simpl. rewrite Hself. exact Hb. }
      exists p, v. rewrite Hpv. simpl. rewrite Hself. reflexivity.
    + rewrite Hstep. simpl. rewrite Hself.
      exists (ev_acts e), (ev_payload e). reflexivity.
Qed.

(** When the loop returns, its effects are those of its turns. *)
Lemma play_loop_returned (evs : list event) (tl : Q) (st st' : state) :
  bookingMode (self st) = false ->
  play_loop evs tl st = (Returned tt, st') ->
  trace st' =
  trace st ++
  loop_effects (eps (self st)) (time_resolution (self st))
    (video_requested (self st)) (show_progressbar (self st)) tl evs.
Proof.
  revert tl st. induction evs as [| e rest IH]; intros tl st Hb Hret.
  - simpl in Hret. injection Hret as <-. simpl. rewrite app_nil_r. reflexivity.
  - pose proof (play_loop_cons e rest tl st) as Hstep.
    pose proof (call_action_playback (ev_action e) (at_event st e) Hb)
      as [Hself Htrace].
    destruct (call_action (ev_action e) (at_event st e))
      as [[[] | x] st2] eqn:Ecall; simpl in Hself, Htrace.
    + clear Hstep. rewrite (play_loop_turn _ _ _ _ _ _ Ecall) in Hret.
      apply IH in Hret; [| simpl; rewrite Hself; exact Hb].
      rewrite Hret. cbn [self trace]. rewrite Hself, Htrace.
      cbn [at_event self trace loop_effects].
      rewrite <- app_assoc. reflexivity.
    + rewrite Hstep in Hret. discriminate.
Qed.

(** ** The mode flag across [play] *)

(** X8: [play] switches the instance back to booking mode only when it
    returns: after any exception the instance stays in playback mode, and a
    declaration made then books nothing. *)
Theorem play_restores_booking_only_on_return (st : state) :
  bookingMode (self (snd (play st)))
  = match fst (play st) with Returned _ => true | Raised _ => false end /\
  forall x c,
    fst (play st) = Raised x ->
    events (self (snd (declare c (snd (play st)))))
    = events (self (snd (play st))).
Proof.
  assert (H : bookingMode (self (snd (play st)))
              = match fst (play st) with
                | Returned _ => true
                | Raised _ => false
                end).
  { rewrite play_unfold.
    assert (Hfrom : forall tr,
              let r := play_from (play_prepared (self st))
                         (mkState (play_prepared (self st)) (world st) tr) in
              bookingMode (self (snd r))
              = match fst r with Returned _ => true | Raised _ => false end).
    { intros tr r. subst r. rewrite play_from_unfold. cbn [self world trace].
      match goal with
      | |- context [play_loop ?evs 0 ?s0] =>
        destruct (play_loop_trace evs 0 s0) as [Hb _];
          [unfold play_prepared; cbn;
           destruct (total_duration (self st));
           [reflexivity | destruct (sorted (events (self st))); reflexivity]
          | destruct (play_loop evs 0 s0) as [[[] | x] st2]; simpl in Hb ]
      end.
      - reflexivity.
      - exact Hb. }
    destruct (total_duration (self st)) as [d |] eqn:Etd.
    - destruct (sorted (events (self st))); apply Hfrom.
    - destruct (sorted (events (self st))) as [| e l] eqn:Es;
        [reflexivity | apply Hfrom]. }
  split; [exact H |].
  intros x c Hx. rewrite Hx in H.
  destruct (playback_ignores_arguments c (snd (play st)) H) as [_ [-> _]].
  reflexivity.
Qed.

(** ** The Event list across [play] *)

Lemma sorted_idempotent (l : list event) : sorted (sorted l) = sorted l.
Proof.
  apply sorted_unique; try apply sorted_sorted.
  intros q. apply sorted_ties.
Qed.

(** X9: [play] never clears or drops an Event: whatever its outcome, the
    instance afterwards holds the Events it held, sorted by time; a second
    [play] therefore starts from the very same list. *)
Theorem play_keeps_every_event (st : state) :
  let after := events (self (snd (play st))) in
  after = sorted (events (self st)) /\
  Permutation after (events (self st)) /\
  List.length after = List.length (events (self st)) /\
  events (self (snd (play (snd (play st))))) = after.
Proof.
  intros after. subst after. rewrite !play_events.
  split; [reflexivity |]. split; [apply sorted_perm |].
  split; [apply Permutation_length, sorted_perm |].
  apply sorted_idempotent.
Qed.

(** ** Playing without a video *)

Lemma turn_effects_no_video (eps res : Q) (pb : bool) (tl : Q) (e : event) :
  Forall (fun x => video_effect x = false)
         (turn_effects eps res false pb tl e).
Proof.
  unfold turn_effects.
  destruct (Qgt_bool (ev_time e - tl) eps),
           (Qgt_bool (ev_time e - tl) (res + eps)), pb;
    simpl; repeat constructor.
Qed.

Lemma play_loop_no_video (evs : list event) (tl : Q) (st : state) :
  bookingMode (self st) = false ->
  video_requested (self st) = false ->
  exists mid,
    trace (snd (play_loop evs tl st)) = trace st ++ mid /\
    Forall (fun x => video_effect x = false) mid.
Proof.
  revert tl st. induction evs as [| e rest IH]; intros tl st Hb Hv.
  - exists []. simpl. rewrite app_nil_r. split; [reflexivity | constructor].
  - pose proof (play_loop_cons e rest tl st) as Hstep.
    pose proof (call_action_playback (ev_action e) (at_event st e) Hb)
      as [Hself Htrace].
    destruct (call_action (ev_action e) (at_event st e))
      as [[[] | x] st2] eqn:Ecall; simpl in Hself, Htrace.
    + clear Hstep. rewrite (play_loop_turn _ _ _ _ _ _ Ecall).
      rewrite Hself. cbn [at_event self eps time_resolution show_progressbar].
      change (video_requested (set_current (self st) (ev_acts e) (ev_payload e)))
        with (video_requested (self st)).
      rewrite Hv.
      match goal with
      | |- context [play_loop rest (ev_time e) ?s0] =>
        destruct (IH (ev_time e) s0) as [mid [Hmid Fmid]];
          [exact Hb | exact Hv |]
      end.
      rewrite Hmid. cbn [trace]. rewrite Htrace. cbn [at_event trace].
      eexists. rewrite <- app_assoc. split; [reflexivity |].
      apply Forall_app. split; [apply turn_effects_no_video | exact Fmid].
    + rewrite Hstep. simpl. rewrite Htrace. simpl.
      exists []. rewrite app_nil_r. split; [reflexivity | constructor].
Qed.

(** X10: with an empty [video_filename], [play] never calls the video writer,
    whatever its outcome: nothing is opened, added, held or closed. *)
Theorem play_without_video_never_records (st : state) :
  video_requested (self st) = false ->
  exists new,
    trace (snd (play st)) = trace st ++ new /\
    Forall (fun x => video_effect x = false) new.
Proof.
  intros Hv. rewrite play_unfold.
  assert (Hpre : Forall (fun x => video_effect x = false)
                        (play_prelude (self st))).
  { unfold play_prelude. destruct (show_progressbar (self st));
      repeat constructor. }
  assert (Hprep : bookingMode (play_prepared (self st)) = false /\
                  video_requested (play_prepared (self st)) = false).
  { unfold play_prepared.
    destruct (total_duration (self st));
      [| destruct (sorted (events (self st)))]; split;
      solve [reflexivity | exact Hv]. }
  destruct Hprep as [Hb' Hv'].
  assert (Hfrom :
    exists new,
      trace (snd (play_from (play_prepared (self st))
                    (mkState (play_prepared (self st)) (world st)
                       (trace st ++ play_prelude (self st)))))
      = trace st ++ new /\
      Forall (fun x => video_effect x = false) new).
  { rewrite play_from_unfold, Hv'. cbn [self world trace].
    rewrite app_nil_r.
    destruct (play_loop_no_video (events (play_prepared (self st))) 0
                (mkState (play_prepared (self st)) (world st)
                   (trace st ++ play_prelude (self st))) Hb' Hv')
      as [mid [Hmid Fmid]].
    destruct (play_loop (events (play_prepared (self st))) 0 _)
      as [[[] | x] st2]; cbn [snd trace] in *; rewrite Hmid.
    - eexists. rewrite <- !app_assoc. split; [reflexivity |].
      apply Forall_app. split; [exact Hpre |].
      apply Forall_app. split; [exact Fmid | repeat constructor].
    - eexists. rewrite <- app_assoc. split; [reflexivity |].
      apply Forall_app. split; assumption. }
  destruct (total_duration (self st)) as [d |].
  - destruct (sorted (events (self st))); exact Hfrom.
  - destruct (sorted (events (self st))) as [| e l]; [| exact Hfrom].
    exists (play_prelude (self st)). split; [reflexivity | exact Hpre].
Qed.

Lemma play_without_video_never_records_witness :
  let st := snd (fade_in (ActsOne 1%nat) (Some 0) (Some 2)
                   (fresh (init None 1 true "" 12))) in
  exists new,
    trace (snd (play st)) = trace st ++ new /\
    Forall (fun x => video_effect x = false) new.
Proof.
  intros st. exact (play_without_video_never_records st eq_refl).
Defined.

(** ** The frames of a run *)

Lemma count_app {A} (f : A -> bool) (l1 l2 : list A) :
  List.length (filter f (l1 ++ l2))
  = (List.length (filter f l1) + List.length (filter f l2))%nat.
Proof. rewrite filter_app, length_app. reflexivity. Qed.

Lemma loop_effects_shown (eps res : Q) (video pb : bool) (tl : Q)
    (evs : list event) :
  List.length (filter is_frame_shown (loop_effects eps res video pb tl evs))
  = advances eps tl evs.
Proof.
  revert tl. induction evs as [| e rest IH]; intros tl; [reflexivity |].
  cbn [loop_effects advances]. rewrite count_app, IH. f_equal.
  unfold turn_effects.
  destruct (Qgt_bool (ev_time e - tl) eps), video,
           (Qgt_bool (ev_time e - tl) (res + eps)), pb; reflexivity.
Qed.

Lemma loop_effects_added (eps res : Q) (video pb : bool) (tl : Q)
    (evs : list event) :
  List.length (filter is_add_frame (loop_effects eps res video pb tl evs))
  = if video then advances eps tl evs else 0%nat.
Proof.
  revert tl. induction evs as [| e rest IH]; intros tl;
    [destruct video; reflexivity |].
  cbn [loop_effects advances]. rewrite count_app, IH.
  unfold turn_effects.
  destruct (Qgt_bool (ev_time e - tl) eps), video,
           (Qgt_bool (ev_time e - tl) (res + eps)), pb; reflexivity.
Qed.

(** X11: when [play] returns, the frames it showed are one per Event whose time
    exceeds that of the Event before it in the sorted list (0 before the
    first) by more than [eps], plus the final one; with a video requested
    the same number of frames is added to it, and otherwise none.  Events
    that share a time thus share a frame, and an Event at time 0 at the head
    of the list gets none of its own. *)
Theorem play_frame_count (st : state) :
  fst (play st) = Returned tt ->
  let n := advances (eps (self st)) 0 (sorted (events (self st))) in
  exists new,
    trace (snd (play st)) = trace st ++ new /\
    List.length (filter is_frame_shown new) = S n /\
    List.length (filter is_add_frame new)
    = if video_requested (self st) then S n else 0%nat.
Proof.
  rewrite play_unfold. intros Hret n.
  assert (Hprep : bookingMode (play_prepared (self st)) = false /\
                  video_requested (play_prepared (self st))
                  = video_requested (self st) /\
                  eps (play_prepared (self st)) = eps (self st) /\
                  events (play_prepared (self st))
                  = sorted (events (self st))).
  { unfold play_prepared.
    destruct (total_duration (self st));
      [| destruct (sorted (events (self st))) eqn:Es];
      repeat split; try reflexivity; exact Es. }
  destruct Hprep as [Hb' [Hv' [He' Hev']]].
  assert (Hfrom :
    fst (play_from (play_prepared (self st))
           (mkState (play_prepared (self st)) (world st)
              (trace st ++ play_prelude (self st)))) = Returned tt ->
    exists new,
      trace (snd (play_from (play_prepared (self st))
                    (mkState (play_prepared (self st)) (world st)
                       (trace st ++ play_prelude (self st)))))
      = trace st ++ new /\
      List.length (filter is_frame_shown new) = S n /\
      List.length (filter is_add_frame new)
      = if video_requested (self st) then S n else 0%nat).
  { rewrite play_from_unfold. cbn [self world trace].
    destruct (play_loop (events (play_prepared (self st))) 0 _)
      as [[[] | x] st2] eqn:Eloop; [| discriminate].
    intros _.
    apply play_loop_returned in Eloop; [| exact Hb'].
    cbn [self trace snd] in *. rewrite Eloop, He', Hev', Hv'.
    eexists. rewrite <- !app_assoc. split; [reflexivity |].
    rewrite !count_app, loop_effects_shown, loop_effects_added.
    fold n. unfold play_prelude.
    destruct (show_progressbar (self st)), (video_requested (self st));
      cbn; split; lia. }
  destruct (total_duration (self st)) as [d |].
  - destruct (sorted (events (self st))); apply Hfrom, Hret.
  - destruct (sorted (events (self st))) as [| e l];
      [discriminate | apply Hfrom, Hret].
Qed.

(** A run of the theorem: a fade-in and a fade-out of one step each, meeting
    at time 1, make four Events at the times 0, 1, 1, 2 and three frames. *)
Lemma play_frame_count_witness :
  let st := snd ((fade_in (ActsOne 1%nat) (Some 0) (Some 1) ;;
                  fade_out (ActsOne 1%nat) (Some 1) (Some 1))
                   (fresh (init None 1 true "animation.mp4" 12))) in
  exists new,
    trace (snd (play st)) = trace st ++ new /\
    List.length (events (self st)) = 4%nat /\
    List.length (filter is_add_frame new) = 3%nat.
Proof.
  intros st.
  assert (Hret : fst (play st) = Returned tt) by reflexivity.
  destruct (play_frame_count st Hret) as [new [Htr [_ Hadd]]].
  exists new. split; [exact Htr |]. split; [reflexivity |].
  rewrite Hadd. reflexivity.
Defined.

(** ** The total duration *)

Lemma sorted_last_max (x : event) (l : list event) :
  StronglySorted le_time (x :: l) ->
  forall e, In e (x :: l) -> le_time e (last l x).
Proof.
  revert x. induction l as [| y l IH]; intros x Hs e He.
  - destruct He as [<- | []]. apply Qle_refl.
  - inversion Hs as [| x' l' Hl Hx]; subst.
    assert (Hlast : last (y :: l) x = last l y).
    { destruct l as [| z l]; [reflexivity |].
      change (last (y :: z :: l) x) with (last (z :: l) x).
      apply last_nonempty_default. }
    rewrite Hlast. destruct He as [<- | He].
    + inversion Hx as [| y' l'' Hxy _]; subst.
      unfold le_time in *. eapply Qle_trans; [exact Hxy |].
      apply (IH y Hl y). left. reflexivity.
    + apply (IH y Hl e He).
Qed.

Lemma last_cons_shift {A} (x y : A) (l : list A) :
  last (y :: l) x = last l y.
Proof.
  destruct l as [| z l]; [reflexivity |].
  change (last (y :: z :: l) x) with (last (z :: l) x).
  apply last_nonempty_default.
Qed.

Lemma last_in_cons {A} (x : A) (l : list A) : In (last l x) (x :: l).
Proof.
  revert x. induction l as [| y l IH]; intros x.
  - left. reflexivity.
  - right. rewrite last_cons_shift. apply IH.
Qed.

Lemma play_from_total_duration (s : Animation) (st : state) :
  bookingMode (self st) = false ->
  total_duration (self (snd (play_from s st))) = total_duration (self st).
Proof.
  intros Hb. rewrite play_from_unfold.
  match goal with
  | |- context [play_loop ?evs 0 ?s0] =>
    destruct (play_loop_self evs 0 s0 Hb) as [p [v Hpv]];
      destruct (play_loop evs 0 s0) as [[[] | x] st2]; simpl in Hpv
  end; cbn [snd self]; rewrite Hpv; reflexivity.
Qed.

(** X12: [play] keeps a configured total duration.  When none is configured and
    Events are booked, it sets the total duration to the time of the last
    Event of the sorted list minus that of the first: the span from the
    earliest to the latest Event, never negative; and it keeps that value,
    so a later [play] does not derive it again. *)
Theorem play_total_duration (st : state) :
  (forall d, total_duration (self st) = Some d ->
             total_duration (self (snd (play st))) = Some d) /\
  (total_duration (self st) = None -> events (self st) <> [] ->
   exists first final,
     In first (events (self st)) /\ In final (events (self st)) /\
     (forall e, In e (events (self st)) ->
                ev_time first <= ev_time e /\ ev_time e <= ev_time final) /\
     0 <= ev_time final - ev_time first /\
     total_duration (self (snd (play st)))
     = Some (ev_time final - ev_time first) /\
     total_duration (self (snd (play (snd (play st)))))
     = Some (ev_time final - ev_time first)).
Proof.
  assert (Hkeep : forall s d, total_duration (self s) = Some d ->
                    total_duration (self (snd (play s))) = Some d).
  { intros s d Hd. rewrite play_unfold, Hd.
    assert (E : total_duration (self (snd
                  (play_from (play_prepared (self s))
                     (mkState (play_prepared (self s)) (world s)
                        (trace s ++ play_prelude (self s))))))
                = Some d).
    { rewrite play_from_total_duration.
      - unfold play_prepared. rewrite Hd. exact Hd.
      - unfold play_prepared. rewrite Hd. reflexivity. }
    destruct (sorted (events (self s))); exact E. }
  split; [apply Hkeep |].
  intros Hnone Hne.
  pose proof (sorted_perm (events (self st))) as Hperm.
  pose proof (sorted_sorted (events (self st))) as Hsorted.
  assert (Hplay : forall first rest,
            sorted (events (self st)) = first :: rest ->
            total_duration (self (snd (play st)))
            = Some (ev_time (last rest first) - ev_time first)).
  { intros first rest Es. rewrite play_unfold, Hnone, Es.
    rewrite play_from_total_duration.
    - unfold play_prepared. rewrite Hnone, Es. reflexivity.
    - unfold play_prepared. rewrite Hnone, Es. reflexivity. }
  destruct (sorted (events (self st))) as [| first rest] eqn:Es.
  { apply Permutation_nil in Hperm. contradiction. }
  pose proof (last_in_cons first rest) as Hlastin.
  assert (Hmin : forall e, In e (first :: rest) -> le_time first e).
  { intros e [<- | He]; [apply Qle_refl |].
    inversion Hsorted as [| x l _ Hx]; subst.
    rewrite Forall_forall in Hx. apply Hx, He. }
  exists first, (last rest first).
  split; [apply (Permutation_in _ Hperm); left; reflexivity |].
  split; [apply (Permutation_in _ Hperm), Hlastin |].
  split.
  { intros e He. apply (Permutation_in _ (Permutation_sym Hperm)) in He.
    split; [apply Hmin, He | apply (sorted_last_max _ _ Hsorted), He]. }
  split.
  { pose proof (Hmin _ Hlastin) as H. unfold le_time in H. lra. }
  split; [apply Hplay; reflexivity |].
  apply Hkeep. apply Hplay. reflexivity.
Qed.

Lemma play_total_duration_witness :
  let st := snd (fade_in (ActsOne 1%nat) (Some 3) (Some 2)
                   (fresh (init None 1 true "animation.mp4" 12))) in
  exists first final,
    In first (events (self st)) /\ In final (events (self st)) /\
    total_duration (self (snd (play st)))
    = Some (ev_time final - ev_time first).
Proof.
  intros st.
  assert (Hne : events (self st) <> []) by discriminate.
  destruct (proj2 (play_total_duration st) eq_refl Hne)
    as [first [final [H1 [H2 [_ [_ [H3 _]]]]]]].
  exists first, final. repeat split; assumption.
Defined.

(** ** Replaying [mesh_erode] *)

(** X13: [mesh_erode] has no playback branch: replaying Events whose action is
    [mesh_erode] returns and leaves every object of the scene as it was. *)
Theorem mesh_erode_replay_changes_nothing (evs : list event) (tl : Q)
    (st : state) :
  bookingMode (self st) = false ->
  Forall (fun e => ev_action e = mesh_erode_m) evs ->
  fst (play_loop evs tl st) = Returned tt /\
  world (snd (play_loop evs tl st)) = world st.
Proof.
  revert tl st. induction evs as [| e rest IH]; intros tl st Hb Hall.
  - split; reflexivity.
  - inversion Hall as [| e' rest' He Hrest]; subst.
    assert (Ecall : call_action (ev_action e) (at_event st e)
                    = (Returned tt, at_event st e)).
    { rewrite He. unfold call_action, mesh_erode.
      rewrite bind_get_self. cbn [at_event self set_current bookingMode].
      rewrite Hb. reflexivity. }
    rewrite (play_loop_turn _ _ _ _ _ _ Ecall).
    match goal with
    | |- context [play_loop rest (ev_time e) ?s0] =>
      destruct (IH (ev_time e) s0 Hb Hrest) as [H1 H2]
    end.
    split; [exact H1 | rewrite H2; reflexivity].
Qed.

Lemma mesh_erode_replay_changes_nothing_witness :
  let st := mkState (set_bookingMode default_animation false) plain_scene [] in
  world (snd (play_loop [mkEvent 1 mesh_erode_m [1%nat] (PIds [0; 1]%nat)]
                        0 st))
  = world st.
Proof.
  intros st.
  refine (proj2 (mesh_erode_replay_changes_nothing _ 0 st eq_refl _)).
  repeat constructor.
Defined.

(** ** Single-target declarations on an empty target list *)

(** X14: [move] and [mesh_erode] given an empty target list log their error and
    then raise [IndexError] at [acts[0]]: nothing is booked, although
    [_parse] has already recorded the empty list as the last targets. *)
Theorem move_on_no_target_raises (st : state) (t : option Q) (d : Q) :
  bookingMode (self st) = true ->
  0 < time_resolution (self st) -> 0 <= d ->
  (forall pt style,
     let r := move (ActsSeq []) pt t (Some d) style st in
     fst r = Raised IndexError /\
     events (self (snd r)) = events (self st) /\
     trace (snd r)
     = trace st ++ [LogError "in move(), can move only one object."] /\
     _lastActs (self (snd r)) = Some []) /\
  (forall corner,
     let r := mesh_erode (ActsSeq []) corner t (Some d) st in
     fst r = Raised IndexError /\
     events (self (snd r)) = events (self st) /\
     trace (snd r)
     = trace st ++ [LogError "in meshErode(), can erode only one object."] /\
     _lastActs (self (snd r)) = Some []).
Proof.
  intros Hb Hres Hd.
  pose proof (parse_explicit st (ActsSeq []) [] t d eq_refl Hres Hd) as Hp.
  split.
  - intros pt style r. subst r. unfold move.
    rewrite bind_get_self, Hb, (bind_returned _ _ _ _ _ Hp).
    cbv beta iota. cbn [List.length Nat.eqb negb].
    rewrite bind_emit. repeat split.
  - intros corner r. subst r. unfold mesh_erode.
    rewrite bind_get_self, Hb, (bind_returned _ _ _ _ _ Hp).
    cbv beta iota. cbn [List.length Nat.eqb negb].
    rewrite bind_emit. repeat split.
Qed.

Lemma move_on_no_target_raises_witness :
  fst (move (ActsSeq []) (1, 0, 0) (Some 0) (Some 1) "linear"
            (fresh default_animation))
  = Raised IndexError.
Proof.
  assert (Hres : 0 < time_resolution (self (fresh default_animation)))
    by reflexivity.
  assert (Hd : 0 <= 1) by discriminate.
  exact (proj1 (proj1 (move_on_no_target_raises (fresh default_animation)
                         (Some 0) 1 eq_refl Hres Hd)
                      (1, 0, 0) "linear"%string)).
Defined.

(** ** The path booked by [move] *)

Lemma nth_error_combine_seq {A} (l : list A) (i j : nat) (x : A) :
  nth_error l j = Some x ->
  nth_error (combine (seq i (List.length l)) l) j = Some ((i + j)%nat, x).
Proof.
  revert i j. induction l as [| y l IH]; intros i j H.
  - destruct j; discriminate.
  - destruct j as [| j]; cbn [List.length seq combine nth_error] in *.
    + inversion H. rewrite Nat.add_0_r. reflexivity.
    + rewrite (IH (S i) j H). f_equal. f_equal. lia.
Qed.

Lemma len_Q_pos {A} (l : list A) : l <> [] -> 0 < len_Q l.
Proof.
  intros H. destruct l as [| x l]; [congruence |].
  unfold len_Q, Qlt. cbn [List.length inject_Z Qnum Qden]. lia.
Qed.

(** X15: [move] books one Event per sample, and the Event of sample number [j]
    (from 0) of [n] carries the point at the fraction [(j+1)/n] of the
    way from the target's position at declaration to [pt], or at the cube
    of that fraction when the style contains ["quad"]. So the first Event
    already leaves the start position and the last one carries [pt]. *)
Theorem move_path (st st1 : state) (act : acts_arg) (pt : vec3)
    (style : string) (t d : option Q) (a0 : obj) (rest : list obj)
    (tq dq : Q) (rng : list Q) :
  bookingMode (self st) = true ->
  _parse act t d st = (Returned (a0 :: rest, tq, dq, rng), st1) ->
  let cpos := pos (world st a0) in
  let r := move act pt t d style st in
  exists new,
    fst r = Returned tt /\
    events (self (snd r)) = events (self st) ++ new /\
    List.length new = List.length rng /\
    (forall j tt, nth_error rng j = Some tt ->
       exists v,
         nth_error new j = Some (mkEvent tt move_m (a0 :: rest) (PPos v)) /\
         veq v (along cpos pt
                  (ease style (inject_Z (Z.of_nat (j + 1)) / len_Q rng))) /\
         (S j = List.length rng -> veq v pt)).
Proof.
  intros Hb Hp cpos r. subst r.
  rewrite (move_books _ _ _ pt style _ _ _ _ _ _ _ Hb Hp).
  destruct (parse_keeps_events act t d st) as [Hw He].
  rewrite Hp in Hw, He. cbn [snd] in Hw, He.
  exists (move_events (a0 :: rest) (pos (world st1 a0)) pt style rng).
  split; [reflexivity |]. split.
  { cbn [snd with_events self events set_events]. rewrite <- He.
    destruct (self st1); reflexivity. }
  split.
  { unfold move_events.
    rewrite length_map, length_combine, length_seq, Nat.min_id. reflexivity. }
  intros j tt Hj.
  assert (Hne : rng <> []) by (intros ->; destruct j; discriminate).
  pose proof (len_Q_pos rng Hne) as Hn.
  assert (Hn0 : ~ len_Q rng == 0) by lra.
  unfold move_events.
  rewrite nth_error_map, (nth_error_combine_seq rng 0 j tt Hj).
  cbn [option_map fst snd Nat.add]. unfold move_event.
  rewrite Hw. fold cpos.
  set (i := inject_Z (Z.of_nat (j + 1))). set (n := len_Q rng) in *.
  assert (Hlast : S j = List.length rng -> i == n).
  { intros E. unfold i, n, len_Q. rewrite <- E, Nat.add_1_r. reflexivity. }
  destruct cpos as [[a b] c]. destruct pt as [[x y] z].
  unfold along, ease.
  destruct (contains "quad" style); eexists; (split; [reflexivity |]);
    cbn [veq vadd vscale vsub vdiv]; split.
  - repeat split; field; exact Hn0.
  - intros E. pose proof (Hlast E) as Hi.
    repeat split; rewrite Hi; field; exact Hn0.
  - repeat split; field; exact Hn0.
  - intros E. pose proof (Hlast E) as Hi.
    repeat split; rewrite Hi; field; exact Hn0.
Qed.

Lemma move_path_witness :
  let st := fresh default_animation in
  exists new,
    events (self (snd (move (ActsOne 1%nat) (4, 0, 0) (Some 0) (Some (1 # 10))
                            "linear" st)))
    = events (self st) ++ new /\
    List.length new = 6%nat.
Proof.
  intros st.
  assert (Hres : 0 < time_resolution (self st)) by reflexivity.
  assert (Hd : 0 <= 1 # 10) by discriminate.
  pose proof (parse_explicit st (ActsOne 1%nat) [1%nat] (Some 0) (1 # 10)
                eq_refl Hres Hd) as Hp.
  destruct (move_path st _ (ActsOne 1%nat) (4, 0, 0) "linear" (Some 0)
              (Some (1 # 10)) 1%nat [] _ _ _ eq_refl Hp)
    as (new & _ & He & Hl & _).
  exists new. split; [exact He | exact (eq_trans Hl eq_refl)].
Defined.

(** ** Replaying the Events of [rotate] *)

Lemma total_angle_app (l1 l2 : list (string * Q)) :
  total_angle (l1 ++ l2) == total_angle l1 + total_angle l2.
Proof.
  induction l1 as [| p l1 IH].
  - change (total_angle l2 == 0 + total_angle l2). ring.
  - change (snd p + total_angle (l1 ++ l2)
            == snd p + total_angle l1 + total_angle l2).
    rewrite IH. ring.
Qed.

Lemma total_angle_repeat (name : string) (q : Q) (n : nat) :
  total_angle (repeat (name, q) n) == inject_Z (Z.of_nat n) * q.
Proof.
  induction n as [| n IH].
  - change (0 == inject_Z 0 * q). ring.
  - change (q + total_angle (repeat (name, q) n)
            == inject_Z (Z.of_nat (S n)) * q).
    rewrite IH, Nat2Z.inj_succ. unfold Z.succ. rewrite inject_Z_plus. ring.
Qed.

Lemma play_loop_rotations (name : string) (ang : Q) (a0 : obj)
    (rest : list obj) (times : list Q) :
  In name ["x"; "y"; "z"]%string ->
  forall (tl : Q) (st : state),
  bookingMode (self st) = false ->
  let r := play_loop
             (map (fun tt => mkEvent tt rotate_m (a0 :: rest)
                                     (PRot (AxisStr name) ang)) times)
             tl st in
  fst r = Returned tt /\
  rotations (world (snd r) a0)
  = rotations (world st a0) ++ repeat (name, ang) (List.length times) /\
  (forall o, o <> a0 -> world (snd r) o = world st o).
Proof.
  intros Hname. induction times as [| tm times IH]; intros tl st Hb.
  - cbn [map List.length repeat]. rewrite app_nil_r.
    repeat split; reflexivity.
  - cbn [map List.length repeat].
    set (e := mkEvent tm rotate_m (a0 :: rest) (PRot (AxisStr name) ang)).
    assert (Ecall : call_action (ev_action e) (at_event st e)
                    = (Returned tt,
                       mkState (self (at_event st e))
                         (upd (world st) a0 (add_rotation (world st a0) name ang))
                         (trace st))).
    { apply (rotate_playback_apply (at_event st e) name ang a0 rest);
        [exact Hb | reflexivity | exact Hname | reflexivity]. }
    rewrite (play_loop_turn _ _ _ _ _ _ Ecall).
    match goal with
    | |- context [play_loop _ (ev_time e) ?s0] =>
      destruct (IH (ev_time e) s0 Hb) as (H1 & H2 & H3)
    end.
    split; [exact H1 |]. split.
    + rewrite H2. cbn [world]. unfold upd at 1. rewrite Nat.eqb_refl.
      cbn [rotations add_rotation]. rewrite <- app_assoc. reflexivity.
    + intros o Ho. rewrite (H3 o Ho). cbn [world]. unfold upd.
      destruct (Nat.eqb_spec o a0); [contradiction | reflexivity].
Qed.

(** X16: a [rotate] about ["x"], ["y"] or ["z"] books one Event per sample, each
    carrying the angle divided by the number of samples. Replayed, these
    Events add that many rotations to the first target only, and the added
    angles sum to the declared angle. *)
Theorem rotate_replay_adds_up (st st1 : state) (act : acts_arg)
    (name : string) (angle : Q) (t d : option Q) (a0 : obj)
    (rest : list obj) (tq dq : Q) (rng : list Q) :
  bookingMode (self st) = true ->
  _parse act t d st = (Returned (a0 :: rest, tq, dq, rng), st1) ->
  rng <> [] ->
  In name ["x"; "y"; "z"]%string ->
  exists new,
    events (self (snd (rotate act (AxisStr name) angle t d st)))
    = events (self st) ++ new /\
    List.length new = List.length rng /\
    forall (tl : Q) (sp : state),
      bookingMode (self sp) = false ->
      let r := play_loop new tl sp in
      fst r = Returned tt /\
      rotations (world (snd r) a0)
      = rotations (world sp a0)
        ++ repeat (name, angle / len_Q rng) (List.length rng) /\
      total_angle (rotations (world (snd r) a0))
      == total_angle (rotations (world sp a0)) + angle /\
      (forall o, o <> a0 -> world (snd r) o = world sp o).
Proof.
  intros Hb Hp Hne Hname.
  rewrite (rotate_books _ _ _ (AxisStr name) angle _ _ _ _ _ _ Hb Hp).
  destruct (parse_keeps_events act t d st) as [_ He].
  rewrite Hp in He. cbn [snd] in He.
  exists (rotate_events (a0 :: rest) (AxisStr name) angle rng).
  split.
  { cbn [snd with_events self events set_events]. rewrite <- He.
    destruct (self st1); reflexivity. }
  split; [unfold rotate_events; apply length_map |].
  intros tl sp Hsp r. subst r. unfold rotate_events.
  destruct (play_loop_rotations name (angle / len_Q rng) a0 rest rng Hname
              tl sp Hsp) as (H1 & H2 & H3).
  split; [exact H1 |]. split; [exact H2 |]. split; [| exact H3].
  rewrite H2, total_angle_app, total_angle_repeat.
  fold (len_Q rng). pose proof (len_Q_pos rng Hne) as Hn.
  assert (E : len_Q rng * (angle / len_Q rng) == angle) by (field; lra).
  rewrite E. reflexivity.
Qed.

Lemma rotate_replay_adds_up_witness :
  let st := fresh default_animation in
  exists new,
    events (self (snd (rotate (ActsOne 1%nat) (AxisStr "z") 90 (Some 0)
                              (Some (1 # 10)) st)))
    = events (self st) ++ new /\
    List.length new = 6%nat.
Proof.
  intros st.
  assert (Hres : 0 < time_resolution (self st)) by reflexivity.
  assert (Hd : 0 <= 1 # 10) by discriminate.
  pose proof (parse_explicit st (ActsOne 1%nat) [1%nat] (Some 0) (1 # 10)
                eq_refl Hres Hd) as Hp.
  assert (Hne : samples_of (self st) (Some 0) (Some (1 # 10)) <> [])
    by (apply samples_of_nonempty; assumption).
  assert (Hname : In "z"%string ["x"; "y"; "z"]%string)
    by (right; right; left; reflexivity).
  destruct (rotate_replay_adds_up st _ (ActsOne 1%nat) "z" 90 (Some 0)
              (Some (1 # 10)) 1%nat [] _ _ _ eq_refl Hp Hne Hname)
    as (new & He & Hl & _).
  exists new. split; [exact He | exact (eq_trans Hl eq_refl)].
Defined.

(** ** Wireframe and surface *)

Lemma for_each_modify (f : props -> props) (body : obj -> M unit)
    (P : list obj) :
  (forall p, f (f p) = f p) ->
  (forall a s, body a s = modify_props a f s) ->
  forall st, exists st',
    for_each P body st = (Returned tt, st') /\
    self st' = self st /\ trace st' = trace st /\
    forall o, world st' o
              = if existsb (Nat.eqb o) P then f (world st o) else world st o.
Proof.
  intros Hf Hbody. induction P as [| a P IH]; intros st.
  - exists st. repeat split; reflexivity.
  - cbn [for_each].
    assert (E : body a st
                = (Returned tt,
                   mkState (self st) (upd (world st) a (f (world st a)))
                           (trace st)))
      by (rewrite Hbody; reflexivity).
    rewrite (bind_returned _ _ _ _ _ E).
    match goal with
    | |- context [for_each P body ?s0] =>
      destruct (IH s0) as (st' & H1 & H2 & H3 & H4)
    end.
    exists st'. split; [exact H1 |]. split; [exact H2 |].
    split; [exact H3 |].
    intros o. rewrite H4. cbn [world existsb]. unfold upd.
    destruct (Nat.eqb_spec o a) as [-> | Hne]; cbn [orb].
    + destruct (existsb (Nat.eqb a) P); [apply Hf | reflexivity].
    + reflexivity.
Qed.

(** X17: [change_to_wireframe] and [change_to_surface] book one Event each, at
    the quantized start and whatever the remembered duration, carrying
    [True] and [False]. Replayed, such an Event sets the wireframe flag of
    every target to the value it carries and leaves every other object as
    it was. *)
Theorem wireframe_switch (st st1 : state) (acts : acts_arg) (t : option Q)
    (objs2 : list obj) (tq dq : Q) (rng : list Q) :
  bookingMode (self st) = true ->
  _parse acts t None st = (Returned (objs2, tq, dq, rng), st1) ->
  events (self (snd (change_to_wireframe acts t st)))
  = events (self st) ++ [mkEvent tq change_to_wireframe_m objs2 (PBool true)] /\
  events (self (snd (change_to_surface acts t st)))
  = events (self st) ++ [mkEvent tq change_to_surface_m objs2 (PBool false)] /\
  forall (m : action) (b : bool) (tm tl : Q) (sp : state),
    m = change_to_wireframe_m \/ m = change_to_surface_m ->
    bookingMode (self sp) = false ->
    let r := play_loop [mkEvent tm m objs2 (PBool b)] tl sp in
    fst r = Returned tt /\
    forall o, world (snd r) o
              = if existsb (Nat.eqb o) objs2
                then set_wireframe (world sp o) b else world sp o.
Proof.
  intros Hb Hp.
  destruct (parse_keeps_events acts t None st) as [_ He].
  rewrite Hp in He. cbn [snd] in He.
  split; [| split].
  - unfold change_to_wireframe.
    rewrite bind_get_self, Hb, (bind_returned _ _ _ _ _ Hp).
    cbn. rewrite He. reflexivity.
  - unfold change_to_surface.
    rewrite bind_get_self, Hb, (bind_returned _ _ _ _ _ Hp).
    cbn. rewrite He. reflexivity.
  - intros m b tm tl sp Hm Hsp r. subst r.
    set (e := mkEvent tm m objs2 (PBool b)).
    destruct (for_each_modify (fun p => set_wireframe p b)
                (fun a => b0 <- as_bool (_inputvalues (self (at_event sp e))) ;;
                          modify_props a (fun p => set_wireframe p b0))
                objs2 (fun p => eq_refl) (fun a s => eq_refl) (at_event sp e))
      as (st' & H1 & H2 & H3 & H4).
    assert (Ecall : call_action (ev_action e) (at_event sp e)
                    = (Returned tt, st')).
    { destruct Hm as [-> | ->]; cbn [e ev_action call_action];
        [unfold change_to_wireframe | unfold change_to_surface];
        rewrite bind_get_self;
        cbn [at_event self set_current bookingMode _performers];
        rewrite Hsp; exact H1. }
    rewrite (play_loop_turn _ _ _ _ _ _ Ecall).
    cbn [play_loop]. split; [reflexivity |].
    intros o. cbn [snd world]. apply H4.
Qed.

Lemma wireframe_switch_witness :
  let st := fresh default_animation in
  events (self (snd (change_to_wireframe (ActsSeq [1; 2]%nat) (Some 0) st)))
  = events (self st)
    ++ [mkEvent (start_of (self st) (Some 0)) change_to_wireframe_m
                [1; 2]%nat (PBool true)].
Proof.
  intros st.
  assert (Hp : _parse (ActsSeq [1; 2]%nat) (Some 0) None st
               = (Returned ([1; 2]%nat, start_of (self st) (Some 0),
                            duration_of (self st) None,
                            samples_of (self st) (Some 0) None),
                  mkState (parsed (self st) (Some 0) None [1; 2]%nat)
                          (world st) (trace st)))
    by (apply parse_returns; [reflexivity | reflexivity | discriminate]).
  exact (proj1 (wireframe_switch st _ (ActsSeq [1; 2]%nat) (Some 0) _ _ _ _
                  eq_refl Hp)).
Defined.

(** * Properties of [AnimationPlayer] *)

Import AnimationPlayer.
Open Scope Z_scope.

Lemma set_frame_unfold (v : Z) (p : Player) :
  set_frame v p =
  let q := if halts p v then pause p else p in
  if value q =? frame_for p v then q
  else log (set_slider_value (set_value q (frame_for p v))
                             (inject_Z (frame_for p v)))
           (Func (frame_for p v)).
Proof.
  unfold set_frame, frame_for, halts.
  destruct (_loop p), (v <? min_value p), (v >=? max_value p),
           (v >=? max_value p - 1);
    cbv beta iota zeta delta [negb andb orb];
    match goal with
    | |- context [value ?q =? ?f] => destruct (value q =? f)
    end; reflexivity.
Qed.

Lemma pause_fields (p : Player) :
  value (pause p) = value p /\
  min_value (pause p) = min_value p /\
  max_value (pause p) = max_value p /\
  _loop (pause p) = _loop p /\
  dt (pause p) = dt p /\
  slider_value (pause p) = slider_value p /\
  is_playing (pause p) = false /\
  timer_id (pause p) = None /\
  calls (pause p)
  = calls p ++ match timer_id p with
               | Some id => [TimerDestroy id]
               | None => []
               end.
Proof.
  unfold pause. destruct p as [v mn mx d pl lp [id |] bs sv cs]; cbn;
    rewrite ?app_nil_r; repeat split; reflexivity.
Qed.

Lemma frame_for_pause (p : Player) (v : Z) :
  frame_for (pause p) v = frame_for p v.
Proof.
  destruct (pause_fields p) as (_ & H1 & H2 & H3 & _).
  unfold frame_for. rewrite H1, H2, H3. reflexivity.
Qed.

Lemma shown_app (l1 l2 : list call) : shown (l1 ++ l2) = shown l1 ++ shown l2.
Proof. apply flat_map_app. Qed.

Lemma intervals_app (l1 l2 : list call) :
  intervals (l1 ++ l2) = intervals l1 ++ intervals l2.
Proof. apply flat_map_app. Qed.

Lemma timers_snoc (l : list call) (c : call) :
  timers (l ++ [c]) = timer_step (timers l) c.
Proof. unfold timers. rewrite fold_left_app. reflexivity. Qed.

Lemma shown_pause (p : Player) : shown (calls (pause p)) = shown (calls p).
Proof.
  destruct (pause_fields p) as (_ & _ & _ & _ & _ & _ & _ & _ & ->).
  rewrite shown_app. destruct (timer_id p); cbn; apply app_nil_r.
Qed.

Lemma set_frame_fields (v : Z) (p : Player) :
  value (set_frame v p) = frame_for p v /\
  min_value (set_frame v p) = min_value p /\
  max_value (set_frame v p) = max_value p /\
  _loop (set_frame v p) = _loop p /\
  dt (set_frame v p) = dt p /\
  is_playing (set_frame v p) = (if halts p v then false else is_playing p) /\
  timer_id (set_frame v p) = (if halts p v then None else timer_id p) /\
  shown (calls (set_frame v p))
  = shown (calls p)
    ++ (if value p =? frame_for p v then [] else [frame_for p v]) /\
  slider_value (set_frame v p)
  = (if value p =? frame_for p v then slider_value p
     else inject_Z (frame_for p v)).
Proof.
  rewrite set_frame_unfold.
  destruct (pause_fields p) as (P1 & P2 & P3 & P4 & P5 & P6 & P7 & P8 & P9).
  pose proof (shown_pause p) as P10.
  set (f := frame_for p v).
  destruct (halts p v); cbv zeta.
  - rewrite P1. destruct (Z.eqb_spec (value p) f) as [E | E].
    + rewrite P1, P2, P3, P4, P5, P6, P7, P8, P10, app_nil_r.
      repeat split; congruence.
    + cbn [value min_value max_value _loop dt is_playing timer_id calls
             slider_value log set_slider_value set_value].
      rewrite shown_app, P10. repeat split; assumption.
  - destruct (Z.eqb_spec (value p) f) as [E | E].
    + rewrite app_nil_r. repeat split; congruence.
    + cbn [value min_value max_value _loop dt is_playing timer_id calls
             slider_value log set_slider_value set_value].
      rewrite shown_app. repeat split.
Qed.

Lemma frame_for_in_range (p : Player) (v : Z) :
  min_value p < max_value p ->
  min_value p <= frame_for p v <= max_value p - 1.
Proof.
  intros H. unfold frame_for.
  destruct (_loop p), (Z.ltb_spec v (min_value p)),
           (Z.geb_spec v (max_value p)),
           (Z.geb_spec v (max_value p - 1)); lia.
Qed.

Lemma step_bounds (create_timer : list call -> Z) (o : op) (p : Player) :
  min_value (step create_timer o p) = min_value p /\
  max_value (step create_timer o p) = max_value p /\
  _loop (step create_timer o p) = _loop p /\
  dt (step create_timer o p) = dt p.
Proof.
  destruct (pause_fields p) as (P1 & P2 & P3 & P4 & P5 & _).
  destruct o; cbn [step].
  - unfold toggle. destruct (negb (is_playing p)).
    + unfold resume. destruct (timer_id p); repeat split; reflexivity.
    + repeat split; assumption.
  - unfold onebackward. cbv zeta.
    destruct (set_frame_fields (value (pause p) - 1) (pause p))
      as (_ & H2 & H3 & H4 & H5 & _).
    repeat split; congruence.
  - unfold oneforward. cbv zeta.
    destruct (set_frame_fields (value (pause p) + 1) (pause p))
      as (_ & H2 & H3 & H4 & H5 & _).
    repeat split; congruence.
  - unfold _handle_timer.
    destruct (set_frame_fields (value p + 1) p) as (_ & H2 & H3 & H4 & H5 & _).
    repeat split; assumption.
  - unfold _slider_callback. cbv zeta.
    set (p' := set_slider_value p w).
    destruct (pause_fields p') as (_ & Q2 & Q3 & Q4 & Q5 & _).
    destruct (set_frame_fields (py_round (slider_value (pause p'))) (pause p'))
      as (_ & H2 & H3 & H4 & H5 & _).
    rewrite H2, H3, H4, H5, Q2, Q3, Q4, Q5. repeat split.
  - destruct (set_frame_fields v p) as (_ & H2 & H3 & H4 & H5 & _).
    repeat split; assumption.
  - repeat split; assumption.
  - unfold resume. destruct (timer_id p); repeat split; reflexivity.
Qed.

Lemma toggle_value (create_timer : list call -> Z) (p : Player) :
  value (toggle create_timer p) = value p /\
  value (resume create_timer p) = value p.
Proof.
  destruct (pause_fields p) as (P1 & _).
  unfold toggle, resume.
  destruct (negb (is_playing p)), (timer_id p); repeat split;
    try reflexivity; assumption.
Qed.

(** X18: whatever frame is asked for, [set_frame] settles inside the range of
    the slider when that range is not empty, and so do the step buttons,
    the timer and the slider; play, pause and resume leave the frame
    alone. A player whose frame is in range therefore stays in range. *)
Theorem frame_stays_in_range (create_timer : list call -> Z) (p : Player) :
  min_value p < max_value p ->
  (forall v, in_range (set_frame v p)) /\
  (forall o, match o with
             | press_play_pause | call_pause | call_resume =>
               value (step create_timer o p) = value p
             | _ => in_range (step create_timer o p)
             end) /\
  (forall ops, in_range p -> in_range (run create_timer ops p)).
Proof.
  intros Hlt.
  assert (Hset : forall q v, min_value q < max_value q ->
                             in_range (set_frame v q)).
  { intros q v Hq. unfold in_range.
    destruct (set_frame_fields v q) as (H1 & H2 & H3 & _).
    rewrite H1, H2, H3. apply frame_for_in_range, Hq. }
  assert (Hstep : forall q o, min_value q < max_value q ->
            match o with
            | press_play_pause | call_pause | call_resume =>
              value (step create_timer o q) = value q
            | _ => in_range (step create_timer o q)
            end).
  { intros q o Hq.
    destruct (pause_fields q) as (P1 & P2 & P3 & _).
    destruct o; cbn [step].
    - apply toggle_value.
    - apply Hset. rewrite P2, P3. exact Hq.
    - apply Hset. rewrite P2, P3. exact Hq.
    - apply Hset, Hq.
    - unfold _slider_callback. cbv zeta. apply Hset.
      destruct (pause_fields (set_slider_value q w)) as (_ & Q2 & Q3 & _).
      rewrite Q2, Q3. exact Hq.
    - apply Hset, Hq.
    - exact P1.
    - apply toggle_value. }
  split; [intros v; apply Hset, Hlt |]. split; [intros o; apply Hstep, Hlt |].
  intros ops. revert p Hlt. induction ops as [| o ops IH]; intros p Hlt Hin.
  - exact Hin.
  - cbn [run fold_left]. apply IH.
    + destruct (step_bounds create_timer o p) as (B1 & B2 & _).
      rewrite B1, B2. exact Hlt.
    + pose proof (Hstep p o Hlt) as H.
      destruct (step_bounds create_timer o p) as (B1 & B2 & _).
      destruct o; try exact H; unfold in_range in *; rewrite B1, B2, H;
        exact Hin.
Qed.

Lemma frame_stays_in_range_witness :
  in_range (set_frame 7 (__init__ (0%Q, 5%Q) 1%Q false)).
Proof.
  assert (H : min_value (__init__ (0%Q, 5%Q) 1%Q false)
              < max_value (__init__ (0%Q, 5%Q) 1%Q false)) by reflexivity.
  exact (proj1 (frame_stays_in_range (fun _ => 0)
                  (__init__ (0%Q, 5%Q) 1%Q false) H) 7).
Defined.

(** ** The timer *)

Lemma handle_timer_loop (p : Player) :
  _loop p = true -> in_range p ->
  frame_for p (value p + 1)
  = min_value p
    + (value p - min_value p + 1) mod (max_value p - min_value p) /\
  halts p (value p + 1) = false.
Proof.
  unfold in_range, frame_for, halts. intros -> H. split; [| reflexivity].
  destruct (Z.ltb_spec (value p + 1) (min_value p)); [lia |].
  destruct (Z.geb_spec (value p + 1) (max_value p)).
  - replace (value p - min_value p + 1) with (max_value p - min_value p)
      by lia.
    rewrite Z_mod_same_full. lia.
  - rewrite Z.mod_small; lia.
Qed.

Lemma seq_succ_map {A} (g : nat -> A) (n : nat) :
  map g (seq 1 (S n)) = g 1%nat :: map (fun k => g (S k)) (seq 1 n).
Proof.
  cbn [seq map]. f_equal. rewrite <- seq_shift, map_map. reflexivity.
Qed.

(** X19: in loop mode the timer walks the frames round and round: from a
    frame in range, [n] timer events lead to the frame [n] places further
    on, counted modulo the number of frames, the user's function is called
    with each frame passed, in order, and the player keeps playing. *)
Theorem looping_ticks (n : nat) (p : Player) :
  _loop p = true -> in_range p ->
  let L := max_value p - min_value p in
  let frame k := min_value p + (value p - min_value p + Z.of_nat k) mod L in
  value (ticks n p) = frame n /\
  is_playing (ticks n p) = is_playing p /\
  timer_id (ticks n p) = timer_id p /\
  (2 <= L -> shown (calls (ticks n p)) = shown (calls p) ++ map frame (seq 1 n)).
Proof.
  revert p. induction n as [| n IH]; intros p Hloop Hin L frame.
  - subst frame L. cbn [ticks seq map]. rewrite app_nil_r.
    unfold in_range in Hin. repeat split; try reflexivity.
    rewrite Z.add_0_r, Z.mod_small; lia.
  - cbn [ticks]. unfold _handle_timer.
    destruct (handle_timer_loop p Hloop Hin) as [Hf Hh].
    destruct (set_frame_fields (value p + 1) p)
      as (S1 & S2 & S3 & S4 & _ & S6 & S7 & S8 & _).
    rewrite Hh in S6, S7. fold L in Hf.
    set (p1 := set_frame (value p + 1) p) in *.
    assert (HL : 0 < L) by (unfold in_range in Hin; subst L; lia).
    assert (Hin1 : in_range p1).
    { unfold in_range. rewrite S1, S2, S3, Hf.
      pose proof (Z.mod_pos_bound (value p - min_value p + 1) L HL).
      subst L. lia. }
    destruct (IH p1 (eq_trans S4 Hloop) Hin1) as (I1 & I2 & I3 & I4).
    rewrite S2, S3 in I1, I4. fold L in I1, I4.
    assert (Hk : forall k : nat,
               (value p1 - min_value p + Z.of_nat k) mod L
               = (value p - min_value p + Z.of_nat (S k)) mod L).
    { intros k. rewrite S1, Hf.
      replace (min_value p + (value p - min_value p + 1) mod L
               - min_value p)
        with ((value p - min_value p + 1) mod L) by lia.
      rewrite Zplus_mod_idemp_l. f_equal. lia. }
    split; [subst frame; cbv beta; rewrite I1, Hk; reflexivity |].
    split; [congruence |]. split; [congruence |].
    intros H2. rewrite (I4 H2), S8.
    assert (Hne : (value p =? frame_for p (value p + 1)) = false).
    { apply Z.eqb_neq. rewrite Hf. unfold in_range in Hin.
      destruct (Z.eq_dec (value p) (max_value p - 1)) as [E | E].
      - replace (value p - min_value p + 1) with L by (subst L; lia).
        rewrite Z_mod_same_full. subst L. lia.
      - rewrite Z.mod_small; subst L; lia. }
    rewrite Hne, <- app_assoc. f_equal.
    rewrite (seq_succ_map frame n). cbn [app]. f_equal.
    + subst frame. cbv beta. rewrite Hf. reflexivity.
    + apply map_ext. intros k. subst frame. cbv beta. rewrite Hk. reflexivity.
Qed.

Lemma looping_ticks_witness :
  value (ticks 7 (set_frame 3 (__init__ (0%Q, 5%Q) 1%Q true))) = 0.
Proof.
  assert (Hl : _loop (set_frame 3 (__init__ (0%Q, 5%Q) 1%Q true)) = true)
    by reflexivity.
  assert (Hin : in_range (set_frame 3 (__init__ (0%Q, 5%Q) 1%Q true)))
    by (unfold in_range; cbn; lia).
  exact (proj1 (looping_ticks 7 _ Hl Hin)).
Defined.

Lemma handle_timer_once (p : Player) :
  _loop p = false -> min_value p < max_value p ->
  min_value p - 1 <= value p <= max_value p - 1 ->
  frame_for p (value p + 1) = Z.min (value p + 1) (max_value p - 1) /\
  halts p (value p + 1) = (value p + 1 >=? max_value p - 1).
Proof.
  unfold frame_for, halts. intros -> Hlt H.
  destruct (Z.ltb_spec (value p + 1) (min_value p)); [lia |].
  destruct (Z.geb_spec (value p + 1) (max_value p - 1)); split;
    try reflexivity; lia.
Qed.

(** X20: without looping the timer runs the frames up to the last one and
    stops there: [n] timer events from the frame [v] lead to the frame
    [min(v + n, max_value - 1)], the user's function is called once with
    each frame [v + 1], [v + 2], ... reached, and as soon as the last frame
    is reached the player is paused and its timer gone. A player started
    again on the last frame is paused by the next timer event without a
    call of the function. *)
Theorem ticks_stop_at_last_frame (n : nat) (p : Player) :
  _loop p = false -> min_value p < max_value p ->
  min_value p - 1 <= value p <= max_value p - 1 ->
  let last := max_value p - 1 in
  value (ticks n p) = Z.min (value p + Z.of_nat n) last /\
  shown (calls (ticks n p))
  = shown (calls p)
    ++ map (fun k => value p + Z.of_nat k)
           (seq 1 (Z.to_nat (Z.min (Z.of_nat n) (last - value p)))) /\
  ((1 <= n)%nat -> last <= value p + Z.of_nat n ->
   is_playing (ticks n p) = false /\ timer_id (ticks n p) = None) /\
  (value p + Z.of_nat n < last ->
   is_playing (ticks n p) = is_playing p /\
   timer_id (ticks n p) = timer_id p).
Proof.
  revert p. induction n as [| n IH]; intros p Hloop Hlt Hv last.
  - cbn [ticks]. replace (Z.min (Z.of_nat 0) (last - value p)) with 0
      by (subst last; lia).
    cbn [Z.to_nat seq map]. rewrite app_nil_r.
    repeat split; try reflexivity; try lia.
  - cbn [ticks]. unfold _handle_timer.
    destruct (handle_timer_once p Hloop Hlt Hv) as [Hf Hh].
    destruct (set_frame_fields (value p + 1) p)
      as (S1 & S2 & S3 & S4 & _ & S6 & S7 & S8 & _).
    rewrite Hh in S6, S7. rewrite Hf in S1, S8. fold last in S1, S8, S6, S7.
    set (p1 := set_frame (value p + 1) p) in *.
    assert (Hlt1 : min_value p1 < max_value p1) by (rewrite S2, S3; exact Hlt).
    assert (Hv1 : min_value p1 - 1 <= value p1 <= max_value p1 - 1)
      by (rewrite S1, S2, S3; subst last; lia).
    destruct (IH p1 (eq_trans S4 Hloop) Hlt1 Hv1) as (I1 & I2 & I3 & I4).
    rewrite S3 in I1, I2, I3, I4. fold last in I1, I2, I3, I4.
    split; [rewrite I1, S1; lia |]. split; [| split].
    + rewrite I2, S8.
      destruct (Z.eqb_spec (value p) (Z.min (value p + 1) last)) as [E | E].
      * assert (Ev : value p = last) by lia.
        rewrite S1, app_nil_r. f_equal.
        replace (Z.min (Z.of_nat n) (last - Z.min (value p + 1) last))
          with 0 by lia.
        replace (Z.min (Z.of_nat (S n)) (last - value p)) with 0 by lia.
        reflexivity.
      * assert (Ev : value p < last) by (subst last; lia).
        assert (E1 : value p1 = value p + 1) by (rewrite S1; lia).
        rewrite <- app_assoc. f_equal.
        replace (Z.to_nat (Z.min (Z.of_nat (S n)) (last - value p)))
          with (S (Z.to_nat (Z.min (Z.of_nat n) (last - value p1)))) by lia.
        rewrite (seq_succ_map (fun k => value p + Z.of_nat k)).
        cbn [app]. f_equal; [lia |].
        apply map_ext. intros k. lia.
    + intros _ Hend. destruct n as [| n].
      * cbn [ticks].
        destruct (Z.geb_spec (value p + 1) last) as [G | G]; [| lia].
        split; assumption.
      * apply I3; [lia |]. rewrite S1. lia.
    + intros Hbefore.
      destruct (Z.geb_spec (value p + 1) last) as [G | G]; [lia |].
      destruct I4 as [J1 J2]; [rewrite S1; lia |].
      split; congruence.
Qed.

Lemma ticks_stop_at_last_frame_witness :
  value (ticks 9 (__init__ (0%Q, 5%Q) 1%Q false)) = 4.
Proof.
  assert (H1 : min_value (__init__ (0%Q, 5%Q) 1%Q false)
               < max_value (__init__ (0%Q, 5%Q) 1%Q false)) by reflexivity.
  assert (H2 : min_value (__init__ (0%Q, 5%Q) 1%Q false) - 1
               <= value (__init__ (0%Q, 5%Q) 1%Q false)
               <= max_value (__init__ (0%Q, 5%Q) 1%Q false) - 1)
    by (cbn; lia).
  exact (proj1 (ticks_stop_at_last_frame 9 (__init__ (0%Q, 5%Q) 1%Q false)
                  eq_refl H1 H2)).
Defined.

(** ** The step buttons *)

Lemma step_button_fields (p : Player) :
  value (oneforward p) = frame_for p (value p + 1) /\
  value (onebackward p) = frame_for p (value p - 1) /\
  is_playing (oneforward p) = false /\ timer_id (oneforward p) = None /\
  is_playing (onebackward p) = false /\ timer_id (onebackward p) = None /\
  min_value (oneforward p) = min_value p /\
  max_value (oneforward p) = max_value p /\
  _loop (oneforward p) = _loop p /\
  min_value (onebackward p) = min_value p /\
  max_value (onebackward p) = max_value p /\
  _loop (onebackward p) = _loop p.
Proof.
  destruct (pause_fields p) as (P1 & P2 & P3 & P4 & _ & _ & P7 & P8 & _).
  unfold oneforward, onebackward. cbv zeta. rewrite P1.
  destruct (set_frame_fields (value p + 1) (pause p))
    as (F1 & F2 & F3 & F4 & _ & F6 & F7 & _).
  destruct (set_frame_fields (value p - 1) (pause p))
    as (B1 & B2 & B3 & B4 & _ & B6 & B7 & _).
  rewrite frame_for_pause in F1, B1.
  rewrite P7 in F6, B6. rewrite P8 in F7, B7.
  assert (Hb : forall b : bool, (if b then false else false) = false)
    by (intros []; reflexivity).
  assert (Ho : forall b : bool, (if b then None else None) = @None Z)
    by (intros []; reflexivity).
  rewrite Hb in F6, B6. rewrite Ho in F7, B7.
  repeat split; congruence.
Qed.

(** X21: in loop mode one step forward and one step back undo each other
    from every frame in range, wrapping at both ends. Without looping they
    do so except at the end stepped against: forward then back from the
    last frame ends one frame before it, back then forward from the first
    frame ends one frame after it. Either way the player ends paused. *)
Theorem step_buttons_round_trip (p : Player) :
  in_range p ->
  (_loop p = true ->
   value (onebackward (oneforward p)) = value p /\
   value (oneforward (onebackward p)) = value p) /\
  (_loop p = false ->
   value (onebackward (oneforward p))
   = (if value p =? max_value p - 1
      then Z.max (min_value p) (max_value p - 2) else value p) /\
   value (oneforward (onebackward p))
   = (if value p =? min_value p
      then Z.min (min_value p + 1) (max_value p - 1) else value p)) /\
  is_playing (onebackward (oneforward p)) = false /\
  is_playing (oneforward (onebackward p)) = false.
Proof.
  unfold in_range. intros Hin.
  destruct (step_button_fields p)
    as (F1 & B1 & _ & _ & _ & _ & F2 & F3 & F4 & B2 & B3 & B4).
  destruct (step_button_fields (oneforward p))
    as (_ & FB & _ & _ & FBp & _).
  destruct (step_button_fields (onebackward p))
    as (BF & _ & BFp & _).
  unfold frame_for in F1, B1, FB, BF.
  rewrite F2, F3, F4, F1 in FB. rewrite B2, B3, B4, B1 in BF.
  split; [| split; [| split; assumption]].
  - intros Hl. rewrite Hl in *. rewrite FB, BF. split.
    + destruct (Z.ltb_spec (value p + 1) (min_value p)),
               (Z.geb_spec (value p + 1) (max_value p));
        repeat match goal with
               | |- context [?a <? ?b] => destruct (Z.ltb_spec a b)
               | |- context [?a >=? ?b] => destruct (Z.geb_spec a b)
               end; lia.
    + destruct (Z.ltb_spec (value p - 1) (min_value p)),
               (Z.geb_spec (value p - 1) (max_value p));
        repeat match goal with
               | |- context [?a <? ?b] => destruct (Z.ltb_spec a b)
               | |- context [?a >=? ?b] => destruct (Z.geb_spec a b)
               end; lia.
  - intros Hl. rewrite Hl in *. rewrite FB, BF. split.
    + destruct (Z.ltb_spec (value p + 1) (min_value p)),
               (Z.geb_spec (value p + 1) (max_value p - 1));
        repeat match goal with
               | |- context [?a <? ?b] => destruct (Z.ltb_spec a b)
               | |- context [?a >=? ?b] => destruct (Z.geb_spec a b)
               | |- context [?a =? ?b] => destruct (Z.eqb_spec a b)
               end; lia.
    + destruct (Z.ltb_spec (value p - 1) (min_value p)),
               (Z.geb_spec (value p - 1) (max_value p - 1));
        repeat match goal with
               | |- context [?a <? ?b] => destruct (Z.ltb_spec a b)
               | |- context [?a >=? ?b] => destruct (Z.geb_spec a b)
               | |- context [?a =? ?b] => destruct (Z.eqb_spec a b)
               end; lia.
Qed.

Lemma step_buttons_round_trip_witness :
  is_playing
    (onebackward (oneforward (set_frame 4 (__init__ (0%Q, 5%Q) 1%Q true))))
  = false.
Proof.
  assert (Hin : in_range (set_frame 4 (__init__ (0%Q, 5%Q) 1%Q true)))
    by (unfold in_range; cbn; lia).
  exact (proj1 (proj2 (proj2 (step_buttons_round_trip _ Hin)))).
Defined.

(** ** Asking twice for the same frame *)

Lemma pause_fixed (q : Player) :
  is_playing q = false -> timer_id q = None ->
  button_status q = Some PLAY_SYMBOL -> pause q = q.
Proof.
  destruct q as [v mn mx d pl lp ti bs sv cs]. cbn. intros -> -> ->.
  reflexivity.
Qed.

Lemma pause_button (p : Player) : button_status (pause p) = Some PLAY_SYMBOL.
Proof. unfold pause. destruct (timer_id (set_is_playing p false)); reflexivity. Qed.

(** X22: [set_frame] called a second time with the same argument changes
    nothing: the user's function is not called again, the slider is not
    set again and no timer is touched. *)
Theorem set_frame_twice (v : Z) (p : Player) :
  set_frame v (set_frame v p) = set_frame v p.
Proof.
  destruct (set_frame_fields v p) as (S1 & S2 & S3 & S4 & _).
  assert (Hf : frame_for (set_frame v p) v = frame_for p v)
    by (unfold frame_for; rewrite S2, S3, S4; reflexivity).
  assert (Hh : halts (set_frame v p) v = halts p v)
    by (unfold halts; rewrite S2, S3, S4; reflexivity).
  rewrite (set_frame_unfold v (set_frame v p)), Hf, Hh. cbv zeta.
  destruct (halts p v) eqn:Eh.
  - assert (Hp : pause (set_frame v p) = set_frame v p).
    { destruct (pause_fields p) as (_ & _ & _ & _ & _ & _ & P7 & P8 & _).
      pose proof (pause_button p) as P9.
      rewrite set_frame_unfold, Eh. cbv zeta.
      destruct (value (pause p) =? frame_for p v);
        apply pause_fixed; assumption. }
    rewrite Hp, S1, Z.eqb_refl. reflexivity.
  - rewrite S1, Z.eqb_refl. reflexivity.
Qed.

(** ** The timer's life *)

Lemma timer_step_other (cur : option (option Z)) (c : call) :
  match c with TimerCreate _ _ | TimerDestroy _ => False | _ => True end ->
  timer_step cur c = cur.
Proof. destruct cur as [[i |] |], c; cbn; intros H; reflexivity || destruct H. Qed.

Lemma timers_pause (p : Player) :
  timers (calls p) = Some (timer_id p) ->
  timers (calls (pause p)) = Some None.
Proof.
  intros H.
  destruct (pause_fields p) as (_ & _ & _ & _ & _ & _ & _ & _ & ->).
  destruct (timer_id p) as [id |].
  - rewrite timers_snoc, H. cbn. rewrite Z.eqb_refl. reflexivity.
  - rewrite app_nil_r. exact H.
Qed.

Lemma timers_resume (create_timer : list call -> Z) (p : Player) :
  timers (calls p) = Some (timer_id p) ->
  timers (calls (resume create_timer p))
  = Some (timer_id (resume create_timer p)) /\
  is_playing (resume create_timer p) = true /\
  timer_id (resume create_timer p) <> None.
Proof.
  intros H. unfold resume. destruct (timer_id p) as [id |];
    cbn [calls log set_timer_id set_is_playing set_button_status timer_id
         is_playing].
  - rewrite !timers_snoc, H. cbn. rewrite Z.eqb_refl.
    repeat split; discriminate.
  - rewrite timers_snoc, H. repeat split; discriminate.
Qed.

Lemma timers_set_frame (v : Z) (p : Player) :
  timers (calls (set_frame v p))
  = timers (calls (if halts p v then pause p else p)).
Proof.
  rewrite set_frame_unfold. cbv zeta.
  destruct (value _ =? frame_for p v); [reflexivity |].
  cbn [calls log set_slider_value set_value].
  rewrite timers_snoc. apply timer_step_other. exact I.
Qed.

(** The timer that is alive is the one the player holds, and the player
    plays exactly when it holds one. *)
Definition timer_kept (p : Player) : Prop :=
  timers (calls p) = Some (timer_id p) /\
  is_playing p = match timer_id p with Some _ => true | None => false end.

Lemma timer_kept_pause (p : Player) : timer_kept p -> timer_kept (pause p).
Proof.
  intros [H _]. destruct (pause_fields p) as (_ & _ & _ & _ & _ & _ & P7 & P8 & _).
  split; [rewrite P8; apply timers_pause, H | rewrite P7, P8; reflexivity].
Qed.

Lemma timer_kept_resume (create_timer : list call -> Z) (p : Player) :
  timer_kept p -> timer_kept (resume create_timer p).
Proof.
  intros [H _]. destruct (timers_resume create_timer p H) as (H1 & H2 & H3).
  split; [exact H1 |]. rewrite H2.
  destruct (timer_id (resume create_timer p)); [reflexivity | congruence].
Qed.

Lemma timer_kept_set_frame (v : Z) (p : Player) :
  timer_kept p -> timer_kept (set_frame v p).
Proof.
  intros Hk. pose proof (timer_kept_pause p Hk) as [Hp1 Hp2].
  destruct Hk as [H1 H2].
  destruct (set_frame_fields v p) as (_ & _ & _ & _ & _ & S6 & S7 & _).
  destruct (pause_fields p) as (_ & _ & _ & _ & _ & _ & P7 & P8 & _).
  split.
  - rewrite timers_set_frame, S7. destruct (halts p v).
    + rewrite <- P8. exact Hp1.
    + exact H1.
  - rewrite S6, S7. destruct (halts p v); [reflexivity | exact H2].
Qed.

Lemma timer_kept_step (create_timer : list call -> Z) (o : op) (p : Player) :
  timer_kept p -> timer_kept (step create_timer o p).
Proof.
  intros Hk. destruct o; cbn [step].
  - unfold toggle. destruct (negb (is_playing p)).
    + apply timer_kept_resume, Hk.
    + apply timer_kept_pause, Hk.
  - apply timer_kept_set_frame, timer_kept_pause, Hk.
  - apply timer_kept_set_frame, timer_kept_pause, Hk.
  - apply timer_kept_set_frame, Hk.
  - unfold _slider_callback. cbv zeta.
    apply timer_kept_set_frame, timer_kept_pause. exact Hk.
  - apply timer_kept_set_frame, Hk.
  - apply timer_kept_pause, Hk.
  - apply timer_kept_resume, Hk.
Qed.

Lemma timer_kept_run (create_timer : list call -> Z) (ops : list op)
    (p : Player) :
  timer_kept p -> timer_kept (run create_timer ops p).
Proof.
  revert p. induction ops as [| o ops IH]; intros p Hk; [exact Hk |].
  cbn [run fold_left]. apply IH, timer_kept_step, Hk.
Qed.

(** X23: however a new player is driven (buttons, timer events, the slider,
    [set_frame], [pause], [resume], in any order), at most one timer is
    alive at a time and only the timer alive is ever destroyed; the timer
    alive is the one in [timer_id], and the player is playing exactly when
    it holds one. After [stop] no timer is alive. *)
Theorem timer_discipline (create_timer : list call -> Z) (irange : Q * Q)
    (dt0 : Q) (loop : bool) (ops : list op) :
  let p := run create_timer ops (__init__ irange dt0 loop) in
  timers (calls p) = Some (timer_id p) /\
  (is_playing p = true <-> timer_id p <> None) /\
  timers (calls (stop p)) = Some None /\
  timer_id (stop p) = None.
Proof.
  intros p.
  assert (Hk : timer_kept p).
  { apply timer_kept_run. split; reflexivity. }
  destruct Hk as [H1 H2]. split; [exact H1 |]. split.
  - rewrite H2. destruct (timer_id p); split; congruence.
  - unfold stop. destruct (timer_id p) as [id |] eqn:E;
      cbn [calls log set_timer_id timer_id];
      rewrite !timers_snoc, H1; cbn; rewrite ?Z.eqb_refl; split;
      reflexivity || exact E.
Qed.

Lemma py_int_ge_1 (x : Q) : (1 <= x)%Q -> 1 <= py_int x.
Proof.
  unfold Qle, py_int. cbn [Qnum Qden]. intros H.
  apply Z.quot_le_lower_bound; lia.
Qed.

Lemma py_max_ge_1 (x : Q) : (1 <= py_max x 1)%Q.
Proof.
  unfold py_max, Qgt_bool. destruct (Qle_bool 1 x) eqn:E; cbn [negb].
  - apply Qle_bool_iff, E.
  - apply Qle_refl.
Qed.

Lemma intervals_pause (p : Player) :
  intervals (calls (pause p)) = intervals (calls p).
Proof.
  destruct (pause_fields p) as (_ & _ & _ & _ & _ & _ & _ & _ & ->).
  rewrite intervals_app. destruct (timer_id p); cbn; apply app_nil_r.
Qed.

Lemma intervals_set_frame (v : Z) (p : Player) :
  intervals (calls (set_frame v p)) = intervals (calls p).
Proof.
  rewrite set_frame_unfold. cbv zeta.
  assert (H : intervals (calls (if halts p v then pause p else p))
              = intervals (calls p))
    by (destruct (halts p v); [apply intervals_pause | reflexivity]).
  destruct (value _ =? frame_for p v); [exact H |].
  cbn [calls log set_slider_value set_value].
  rewrite intervals_app, H. cbn. apply app_nil_r.
Qed.

Lemma intervals_resume (create_timer : list call -> Z) (p : Player) :
  intervals (calls (resume create_timer p))
  = intervals (calls p) ++ [py_int (dt p)].
Proof.
  unfold resume. destruct (timer_id p); cbn [calls log set_timer_id
    set_is_playing set_button_status dt];
    rewrite ?intervals_app; cbn; rewrite ?app_nil_r; reflexivity.
Qed.

Lemma intervals_step (create_timer : list call -> Z) (o : op) (p : Player) :
  Forall (fun d => d = py_int (dt p)) (intervals (calls p)) ->
  Forall (fun d => d = py_int (dt p))
         (intervals (calls (step create_timer o p))).
Proof.
  intros H.
  assert (Hr : Forall (fun d => d = py_int (dt p))
                 (intervals (calls (resume create_timer p)))).
  { rewrite intervals_resume. apply Forall_app. split; [exact H |].
    constructor; [reflexivity | constructor]. }
  destruct o; cbn [step].
  - unfold toggle. destruct (negb (is_playing p));
      [exact Hr | rewrite intervals_pause; exact H].
  - unfold onebackward. cbv zeta.
    rewrite intervals_set_frame, intervals_pause. exact H.
  - unfold oneforward. cbv zeta.
    rewrite intervals_set_frame, intervals_pause. exact H.
  - unfold _handle_timer. rewrite intervals_set_frame. exact H.
  - unfold _slider_callback. cbv zeta.
    rewrite intervals_set_frame, intervals_pause. exact H.
  - rewrite intervals_set_frame. exact H.
  - rewrite intervals_pause. exact H.
  - exact Hr.
Qed.

(** X24: every timer a player creates, however it is driven, is asked for
    with the interval [int(max(dt, 1))] of the [dt] given at construction,
    which is at least one millisecond whatever [dt] was. *)
Theorem timer_interval_at_least_one (create_timer : list call -> Z)
    (irange : Q * Q) (dt0 : Q) (loop : bool) (ops : list op) :
  Forall (fun d => d = py_int (py_max dt0 1) /\ 1 <= d)
    (intervals (calls (run create_timer ops (__init__ irange dt0 loop)))).
Proof.
  assert (H : forall p,
             Forall (fun d => d = py_int (dt p)) (intervals (calls p)) ->
             dt (run create_timer ops p) = dt p /\
             Forall (fun d => d = py_int (dt p))
                    (intervals (calls (run create_timer ops p)))).
  { induction ops as [| o ops IH]; intros p Hp; [split; [reflexivity | exact Hp] |].
    cbn [run fold_left].
    destruct (step_bounds create_timer o p) as (_ & _ & _ & Hd).
    pose proof (intervals_step create_timer o p Hp) as Hs.
    rewrite <- Hd in Hs. destruct (IH _ Hs) as [I1 I2].
    split; [unfold run in I1; congruence |].
    rewrite Hd in I2. exact I2. }
  destruct (H (__init__ irange dt0 loop)) as [_ HF]; [constructor |].
  cbn [dt __init__] in HF.
  eapply Forall_impl; [| exact HF].
  intros d ->. split; [reflexivity |]. apply py_int_ge_1, py_max_ge_1.
Qed.

(** ** The slider *)

Lemma py_round_cases (w : Q) :
  (py_round w = Qfloor w /\ (w - inject_Z (Qfloor w) <= 1 # 2)%Q) \/
  (py_round w = Qfloor w + 1 /\ (1 # 2 <= w - inject_Z (Qfloor w))%Q).
Proof.
  unfold py_round, Qgt_bool. cbv zeta.
  destruct (Qle_bool (1 # 2) (w - inject_Z (Qfloor w))) eqn:E1; cbn [negb].
  - apply Qle_bool_iff in E1.
    destruct (Qle_bool (w - inject_Z (Qfloor w)) (1 # 2)) eqn:E2; cbn [negb].
    + apply Qle_bool_iff in E2.
      destruct (Z.even (Qfloor w)); [left | right]; split;
        reflexivity || assumption.
    + right. split; [reflexivity | exact E1].
  - left. split; [reflexivity |].
    apply Qlt_le_weak, Qnot_le_lt. intros H.
    apply Qle_bool_iff in H. congruence.
Qed.

Lemma py_round_near (w : Q) :
  (w - (1 # 2) <= inject_Z (py_round w) <= w + (1 # 2))%Q.
Proof.
  pose proof (Qfloor_le w) as H1. pose proof (Qlt_floor w) as H2.
  rewrite inject_Z_plus in H2.
  destruct (py_round_cases w) as [[-> H] | [-> H]];
    rewrite ?inject_Z_plus; change (inject_Z 1) with 1%Q in *; split; lra.
Qed.

Lemma py_round_between (a b : Z) (w : Q) :
  (inject_Z a <= w <= inject_Z b)%Q -> a <= py_round w <= b.
Proof.
  intros [Ha Hb].
  pose proof (Qfloor_resp_le _ _ Ha) as H1.
  pose proof (Qfloor_resp_le _ _ Hb) as H2.
  rewrite Qfloor_Z in H1, H2.
  destruct (py_round_cases w) as [[-> H] | [-> H]]; [lia |].
  split; [lia |].
  destruct (Z.eq_dec (Qfloor w) b) as [E | E]; [| lia].
  rewrite E in H. lra.
Qed.

(** X25: dragging the slider to [w] inside its range pauses the player and
    selects the frame nearest to [w], a half going to the even neighbour.
    The user's function is called with that frame only when it differs
    from the current one; when it does not, the slider is left at [w],
    not moved onto the frame. *)
Theorem slider_selects_nearest_frame (create_timer : list call -> Z)
    (p : Player) (w : Q) :
  (inject_Z (min_value p) <= w <= inject_Z (max_value p - 1))%Q ->
  let q := step create_timer (slider_dragged w) p in
  value q = py_round w /\
  (w - (1 # 2) <= inject_Z (value q) <= w + (1 # 2))%Q /\
  is_playing q = false /\ timer_id q = None /\
  shown (calls q)
  = shown (calls p) ++ (if value p =? py_round w then [] else [py_round w]) /\
  slider_value q
  = (if value p =? py_round w then w else inject_Z (py_round w)).
Proof.
  intros Hw q. subst q. cbn [step]. unfold _slider_callback. cbv zeta.
  set (p' := set_slider_value p w).
  destruct (pause_fields p') as (P1 & P2 & P3 & P4 & _ & P6 & P7 & P8 & _).
  pose proof (shown_pause p') as P10.
  change (slider_value p') with w in P6. rewrite P6.
  change (value p') with (value p) in P1.
  change (min_value p') with (min_value p) in P2.
  change (max_value p') with (max_value p) in P3.
  change (calls p') with (calls p) in P10.
  destruct (set_frame_fields (py_round w) (pause p'))
    as (S1 & _ & _ & _ & _ & S6 & S7 & S8 & S9).
  pose proof (py_round_between _ _ w Hw) as Hr.
  assert (Hf : frame_for (pause p') (py_round w) = py_round w).
  { unfold frame_for. rewrite P2, P3.
    destruct (_loop (pause p')), (Z.ltb_spec (py_round w) (min_value p)),
             (Z.geb_spec (py_round w) (max_value p)),
             (Z.geb_spec (py_round w) (max_value p - 1)); lia. }
  rewrite Hf in S1, S8, S9. rewrite P1 in S8, S9.
  rewrite P7 in S6. rewrite P8 in S7. rewrite P10 in S8. rewrite P6 in S9.
  split; [exact S1 |]. rewrite S1.
  split; [apply py_round_near |].
  split; [rewrite S6; destruct (halts _ _); reflexivity |].
  split; [rewrite S7; destruct (halts _ _); reflexivity |].
  split; assumption.
Qed.

Lemma slider_selects_nearest_frame_witness :
  value (step (fun _ => 0) (slider_dragged (5 # 2))
              (__init__ (0%Q, 5%Q) 1%Q true)) = 2.
Proof.
  assert (H : (inject_Z (min_value (__init__ (0%Q, 5%Q) 1%Q true)) <= 5 # 2
               <= inject_Z (max_value (__init__ (0%Q, 5%Q) 1%Q true) - 1))%Q)
    by (split; discriminate).
  exact (proj1 (slider_selects_nearest_frame (fun _ => 0)
                  (__init__ (0%Q, 5%Q) 1%Q true) (5 # 2) H)).
Defined.

(** ** A new player *)

(** X26: a new player over a range that is not empty stands one frame before
    the first, outside the range of its slider. The first timer event, or
    a step forward, shows the first frame; a step back shows the last
    frame in loop mode and the first one otherwise. *)
Theorem new_player_starts_before_first_frame (irange : Q * Q) (dt0 : Q)
    (loop : bool) :
  py_int (fst irange) < py_int (snd irange) ->
  let p := __init__ irange dt0 loop in
  let first := py_int (fst irange) in
  let last := py_int (snd irange) - 1 in
  value p = first - 1 /\ ~ in_range p /\
  value (_handle_timer p) = first /\
  shown (calls (_handle_timer p)) = [first] /\
  value (oneforward p) = first /\
  value (onebackward p) = (if loop then last else first).
Proof.
  intros Hlt p first last.
  assert (Hv : value p = first - 1) by reflexivity.
  assert (Hmin : min_value p = first) by reflexivity.
  assert (Hmax : max_value p = last + 1) by (subst last; cbn; lia).
  assert (Hloop : _loop p = loop) by reflexivity.
  assert (Hf : frame_for p (value p + 1) = first).
  { unfold frame_for. rewrite Hv, Hmin, Hmax, Hloop.
    destruct loop, (Z.ltb_spec (first - 1 + 1) first),
             (Z.geb_spec (first - 1 + 1) (last + 1)),
             (Z.geb_spec (first - 1 + 1) (last + 1 - 1)); subst last; lia. }
  assert (Hb : frame_for p (value p - 1) = if loop then last else first).
  { unfold frame_for. rewrite Hv, Hmin, Hmax, Hloop.
    destruct loop, (Z.ltb_spec (first - 1 - 1) first); lia. }
  destruct (set_frame_fields (value p + 1) p) as (S1 & _ & _ & _ & _ & _ & _ & S8 & _).
  destruct (step_button_fields p) as (F1 & B1 & _).
  split; [exact Hv |]. split; [unfold in_range; lia |].
  unfold _handle_timer. rewrite S1, S8, Hf, F1, B1, Hf, Hb, Hv.
  destruct (Z.eqb_spec (first - 1) first); [lia |].
  repeat split.
Qed.

Lemma new_player_starts_before_first_frame_witness :
  value (onebackward (__init__ (0%Q, 5%Q) 1%Q true)) = 4.
Proof.
  assert (H : py_int (fst (0%Q, 5%Q)) < py_int (snd (0%Q, 5%Q)))
    by reflexivity.
  exact (proj2 (proj2 (proj2 (proj2 (proj2
           (new_player_starts_before_first_frame (0%Q, 5%Q) 1%Q true H)))))).
Defined.
